(** * Batcher's odd-even merge sort: the four sequential listings

    A shallow embedding of [parallel_odd_even_sort.cpp] (the sequential
    functions [sortListing1] .. [sortListing4]) and the verification of
    their sorting contract.

    Modelling conventions.
    - C++ [int] loop variables and indices are integers of [Z]; [/] and [%]
      are the truncating [Z.quot] and [Z.rem], [&] and [|] are [Z.land] and
      [Z.lor].  Every listing is given twice.  [listing1] .. [listing4]
      compute over the integers; the reasoning about schedules takes
      place there.  [listing1_int] .. [listing4_int] are the same loops
      with every arithmetic operation checked against the range of a
      32-bit [int]: signed overflow has no defined behaviour in C++, and
      such a run has no result.  Up to [n <= 2^30] elements no operation
      leaves the range and the two coincide ([listing1_int_exact] ..
      [listing4_int_exact], see also [fits_int]); for [n = 2^30 + 1] every
      listing reaches the phase [p = 2^30] and computes [2p]
      ([listing1_int_overflow] .. [listing4_int_overflow]).  Statements
      about runs of arbitrary size therefore carry [n <= 2^30].
    - The array [int A[]] is a [list Z] of integers that are only ever
      compared; the length [n] is passed separately, as in the source.  A
      read or write outside the list is reported as [OutOfBounds].  A sort
      returns the pointer it was given; in the model the result of a run
      is the final content of that one buffer.
    - Every [for] loop is run by [for_loop] with an explicit amount of
      fuel, the number of times the loop may test its condition; running
      out of it is reported as [OutOfFuel], so termination is a statement
      about the model and not a built-in assumption.

    Plan of the development.
    - Each listing is written once, over an arbitrary action on the
      emitted pairs; the executor performs compare-exchanges, the recorder
      collects the schedule.  With more than [n] units of fuel a listing
      performs exactly its schedule in closed form ([listing1_sched] ..).
    - A schedule acts on the zero-one view of the array.  After every
      layer of every phase the content of each block is known in closed
      form ([block_state]), which gives sortedness at the end of the sweep
      ([sweep_sorts]).
    - The layers of listings 2, 3 and 4 consist of the comparators of
      Batcher's network, each once ([layer_exact]); listing 1 visits more
      pairs, which are already in order when it reaches them
      ([layer1_ok]). *)

From Stdlib Require Import ZArith List Lia Bool Permutation Sorted.
Import ListNotations.
Open Scope Z_scope.

Set Implicit Arguments.

(** ** Results of a run *)

Inductive result (S : Type) : Type :=
| Ok (s : S)
| OutOfFuel
| OutOfBounds.

Arguments Ok {S} s.
Arguments OutOfFuel {S}.
Arguments OutOfBounds {S}.

Definition bind {S T : Type} (r : result S) (f : S -> result T) : result T :=
  match r with
  | Ok s => f s
  | OutOfFuel => OutOfFuel
  | OutOfBounds => OutOfBounds
  end.

(** [for (x = x0; cond x; x = step x) body x] *)
Fixpoint for_loop {S : Type} (fuel : nat) (cond : Z -> bool) (step : Z -> Z)
         (body : Z -> S -> result S) (x : Z) (s : S) : result S :=
  match fuel with
  | O => OutOfFuel
  | Datatypes.S fuel' =>
      if cond x
      then bind (body x s) (for_loop fuel' cond step body (step x))
      else Ok s
  end.

(** ** The array and the compare-exchange *)

Definition load (A : list Z) (i : Z) : option Z :=
  if i <? 0 then None else nth_error A (Z.to_nat i).

Fixpoint update (A : list Z) (i : nat) (v : Z) : list Z :=
  match A, i with
  | [], _ => []
  | _ :: A', O => v :: A'
  | a :: A', Datatypes.S i' => a :: update A' i' v
  end.

Definition store (A : list Z) (i : Z) (v : Z) : list Z :=
  update A (Z.to_nat i) v.

(** [if (A[x] > A[y]) swap(A[x], A[y]);] *)
Definition compexch (x y : Z) (A : list Z) : result (list Z) :=
  match load A x, load A y with
  | Some a, Some b =>
      if a >? b then Ok (store (store A x b) y a) else Ok A
  | _, _ => OutOfBounds
  end.

(** ** The four comparator-schedule enumerators

    Each listing is written once, over an arbitrary action [emit] that
    receives the loop variables [p], [k], [j] of the group and the two
    indices of the pair.  The executor instantiates it with [compexch];
    the schedule itself is obtained by recording the pairs. *)

Section Enumerators.

Variable S : Type.
Variable emit : Z -> Z -> Z -> Z -> Z -> S -> result S.

Definition listing1 (fuel : nat) (n : Z) : S -> result S :=
  for_loop fuel (fun p => p <? n) (fun p => p + p) (fun p =>
    for_loop fuel (fun k => k >? 0) (fun k => Z.quot k 2) (fun k =>
      for_loop fuel (fun j => j + k <? n) (fun j => j + 2 * k) (fun j =>
        for_loop fuel (fun i => i <? n - j - k) (fun i => i + 1) (fun i s =>
          if Z.quot (j + i) (p + p) =? Z.quot (j + i + k) (p + p)
          then emit p k j (j + i) (j + i + k) s
          else Ok s) 0)
      (Z.rem k p))
    p)
  1.

Definition listing2 (fuel : nat) (n : Z) : S -> result S :=
  for_loop fuel (fun p => p <? n) (fun p => p * 2) (fun p =>
    for_loop fuel (fun k => k >? 0) (fun k => Z.quot k 2) (fun k =>
      for_loop fuel (fun j => j + k <? 2 * p) (fun j => j + 2 * k) (fun j =>
        for_loop fuel (fun i => i <? k) (fun i => i + 1) (fun i =>
          for_loop fuel (fun m => m <? n - k) (fun m => m + 2 * p) (fun m =>
            emit p k j m (m + k))
          (i + j))
        0)
      (Z.rem k p))
    p)
  1.

(** [for (int i = std::min(k, n-j-k); i--;)]: the test reads [i] and
    decrements it, the body sees the decremented value. *)
Definition listing3 (fuel : nat) (n : Z) : S -> result S :=
  for_loop fuel (fun p => p <? n) (fun p => p * 2) (fun p =>
    for_loop fuel (fun k => k >? 0) (fun k => Z.quot k 2) (fun k =>
      for_loop fuel (fun j => j + k <? n) (fun j => j + 2 * k) (fun j =>
        for_loop fuel (fun i => negb (i =? 0)) (fun i => i - 1) (fun i' s =>
          let i := i' - 1 in
          if Z.quot (j + i) (2 * p) =? Z.quot (j + i + k) (2 * p)
          then emit p k j (j + i) (j + i + k) s
          else Ok s) (Z.min k (n - j - k)))
      (Z.rem k p))
    p)
  1.

Definition listing4 (fuel : nat) (n : Z) : S -> result S :=
  for_loop fuel (fun p => p <? n) (fun p => p * 2) (fun p =>
    for_loop fuel (fun k => k >? 0) (fun k => Z.quot k 2) (fun k =>
      for_loop fuel (fun j => j + k <? n) (fun j => j + 2 * k) (fun j s =>
        if Z.lor j (2 * p - 1) =? Z.lor (j + k) (2 * p - 1)
        then
          for_loop fuel (fun i => negb (i =? 0)) (fun i => i - 1) (fun i' =>
            let i := i' - 1 in
            emit p k j (j + i) (j + i + k)) (Z.min k (n - j - k)) s
        else Ok s)
      (Z.land k (p - 1)))
    p)
  1.

End Enumerators.

(** ** Sequential executors *)

Definition exec (p k j x y : Z) (A : list Z) : result (list Z) :=
  compexch x y A.

Definition sortListing1 (fuel : nat) (A : list Z) (n : Z) := listing1 exec fuel n A.
Definition sortListing2 (fuel : nat) (A : list Z) (n : Z) := listing2 exec fuel n A.
Definition sortListing3 (fuel : nat) (A : list Z) (n : Z) := listing3 exec fuel n A.
Definition sortListing4 (fuel : nat) (A : list Z) (n : Z) := listing4 exec fuel n A.

(** ** Recorded schedules *)

Record emission : Type := Emit { e_p : Z; e_k : Z; e_j : Z; e_x : Z; e_y : Z }.

Definition record (p k j x y : Z) (t : list emission) : result (list emission) :=
  Ok (t ++ [Emit p k j x y]).

Definition trace1 (fuel : nat) (n : Z) := listing1 record fuel n [].
Definition trace2 (fuel : nat) (n : Z) := listing2 record fuel n [].
Definition trace3 (fuel : nat) (n : Z) := listing3 record fuel n [].
Definition trace4 (fuel : nat) (n : Z) := listing4 record fuel n [].

(** ** Folds over explicit lists of loop values *)

Fixpoint mfold {S X : Type} (act : X -> S -> result S) (l : list X) (s : S)
  : result S :=
  match l with
  | [] => Ok s
  | x :: l' => bind (act x s) (mfold act l')
  end.

(** The values [x0, x0 + d, x0 + 2d, ...] below [bound]. *)
Definition upto_count (x0 d bound : Z) : nat :=
  Z.to_nat ((bound - x0 + d - 1) / d).

Definition upto (x0 d bound : Z) : list Z :=
  map (fun i => x0 + d * Z.of_nat i) (seq 0 (upto_count x0 d bound)).

(** The values [m, m-1, ..., 1]. *)
Definition downfrom (m : Z) : list Z :=
  map (fun i => m - Z.of_nat i) (seq 0 (Z.to_nat m)).

(** ** The schedules in closed form

    [pw a] is the phase size [2^a]; a sort of [n] elements runs the phases
    [pw 0 .. pw (phases n - 1)], the powers of two below [n]. *)

Definition pw (a : nat) : Z := 2 ^ Z.of_nat a.

Definition phases (n : Z) : nat := Z.to_nat (Z.log2_up n).

Definition group1 (n p k j : Z) : list emission :=
  flat_map (fun i =>
              if Z.quot (j + i) (p + p) =? Z.quot (j + i + k) (p + p)
              then [Emit p k j (j + i) (j + i + k)] else [])
           (upto 0 1 (n - j - k)).

Definition layer1 (n p k : Z) : list emission :=
  flat_map (group1 n p k) (upto (Z.rem k p) (2 * k) (n - k)).

Definition group2 (n p k j : Z) : list emission :=
  flat_map (fun i => map (fun m => Emit p k j m (m + k))
                         (upto (i + j) (2 * p) (n - k)))
           (upto 0 1 k).

Definition layer2 (n p k : Z) : list emission :=
  flat_map (group2 n p k) (upto (Z.rem k p) (2 * k) (2 * p - k)).

Definition group3 (n p k j : Z) : list emission :=
  flat_map (fun i' =>
              let i := i' - 1 in
              if Z.quot (j + i) (2 * p) =? Z.quot (j + i + k) (2 * p)
              then [Emit p k j (j + i) (j + i + k)] else [])
           (downfrom (Z.min k (n - j - k))).

Definition layer3 (n p k : Z) : list emission :=
  flat_map (group3 n p k) (upto (Z.rem k p) (2 * k) (n - k)).

Definition group4 (n p k j : Z) : list emission :=
  if Z.lor j (2 * p - 1) =? Z.lor (j + k) (2 * p - 1)
  then map (fun i' => let i := i' - 1 in Emit p k j (j + i) (j + i + k))
           (downfrom (Z.min k (n - j - k)))
  else [].

Definition layer4 (n p k : Z) : list emission :=
  flat_map (group4 n p k) (upto (Z.land k (p - 1)) (2 * k) (n - k)).

(** The phase loop around the merge-distance loop: [k] runs through
    [pw a, pw (a-1), ..., pw 0]. *)
Definition sweep (layer : Z -> Z -> Z -> list emission) (n : Z) : list emission :=
  flat_map (fun a =>
              flat_map (fun i => layer n (pw a) (pw (a - i)))
                       (seq 0 (Datatypes.S a)))
           (seq 0 (phases n)).

Definition sched1 : Z -> list emission := sweep layer1.
Definition sched2 : Z -> list emission := sweep layer2.
Definition sched3 : Z -> list emission := sweep layer3.
Definition sched4 : Z -> list emission := sweep layer4.

(** An action on emissions, from an action on the loop variables. *)
Definition on_emission {S : Type} (emit : Z -> Z -> Z -> Z -> Z -> S -> result S)
           (e : emission) : S -> result S :=
  emit (e_p e) (e_k e) (e_j e) (e_x e) (e_y e).

(** ** The comparator layer of phase [p] and merge distance [k]

    [lower p k x] holds when [x] is the lower index of a comparator
    [(x, x + k)] of the layer: [x] and [x + k] lie in the same block of
    size [2p], and [x] lies in an odd block of size [k] (an even one when
    [k = p]). *)

Definition lower (p k x : Z) : bool :=
  (0 <=? x) && (x / (2 * p) =? (x + k) / (2 * p))
  && Bool.eqb (Z.odd (x / k)) (k <? p).

(** The index of row [r], column [c] of block [blk], when a block of size
    [2kh] is laid out in [2h] rows of [k] columns. *)
Definition at_ (k h blk r c : Z) : Z := 2 * (k * h) * blk + k * r + c.

(** ** The zero-one view of an array

    A threshold turns an array into a function [Z -> bool] (is the element
    at least the threshold?), which is [true] outside the array.  A
    compare-exchange becomes [cmpF]: conjunction at the lower index,
    disjunction at the upper one. *)

Definition cmpF (x y : Z) (f : Z -> bool) : Z -> bool :=
  fun z => if z =? x then f x && f y
           else if z =? y then f x || f y
                else f z.

Definition runF (cs : list emission) (f : Z -> bool) : Z -> bool :=
  fold_left (fun g e => cmpF (e_x e) (e_y e) g) cs f.

(** All comparators of the layer [(p, k)] at once. *)
Definition Lf (p k : Z) (f : Z -> bool) : Z -> bool :=
  fun z => if lower p k z then f z && f (z + k)
           else if lower p k (z - k) then f (z - k) || f z
                else f z.

(** Among the first [z] positions, those congruent to [c] modulo [k]. *)
Definition u (z c k : Z) : Z := (z + k - 1 - c) / k.

(** The state of one block of size [2kh] after the layer of distance [k],
    when its two halves held [za] and [zb] zeros before the phase: every
    column of stride [k] is sorted, with [u za c k + u zb c k] zeros. *)
Definition merged (k za zb r c : Z) : bool := u za c k + u zb c k <=? r.

Definition block_state (k h : Z) (f : Z -> bool) (blk za zb : Z) : Prop :=
  0 <= za <= k * h /\ 0 <= zb <= k * h /\
  forall r c, 0 <= r < 2 * h -> 0 <= c < k ->
              f (at_ k h blk r c) = merged k za zb r c.

(** The state of a block of size [2p] before the phase: two sorted halves. *)
Definition block_pre (p : Z) (f : Z -> bool) (blk za zb : Z) : Prop :=
  0 <= za <= p /\ 0 <= zb <= p /\
  forall r c, 0 <= r < 2 -> 0 <= c < p ->
              f (at_ p 1 blk r c) = ((if r =? 0 then za else zb) <=? c).

(** Every aligned block of size [q] is sorted: zeros first. *)
Definition block_sorted (q : Z) (f : Z -> bool) : Prop :=
  forall blk, 0 <= blk ->
              exists z, 0 <= z <= q /\
                        forall l, 0 <= l < q -> f (q * blk + l) = (z <=? l).

Definition true_from (n : Z) (f : Z -> bool) : Prop :=
  forall z, n <= z -> f z = true.

(** The state of a block of phase [pw a] before and after the layer of
    distance [pw b]. *)
Definition state_before (a b : nat) (f : Z -> bool) (blk za zb : Z) : Prop :=
  if (b =? a)%nat
  then block_pre (pw a) f blk za zb
  else block_state (pw (Datatypes.S b)) (pw (a - Datatypes.S b)) f blk za zb.

Definition state_after (a b : nat) (f : Z -> bool) (blk za zb : Z) : Prop :=
  block_state (pw b) (pw (a - b)) f blk za zb.

(** A layer enumeration is sound when, on the states it can meet, it acts
    like the comparators of the layer applied all at once. *)
Definition layer_ok (layer : Z -> Z -> Z -> list emission) (n : Z) : Prop :=
  forall (a b : nat) (f : Z -> bool),
    (b <= a)%nat -> pw a < n -> true_from n f ->
    (forall blk, 0 <= blk -> exists za zb, state_before a b f blk za zb) ->
    forall z, runF (layer n (pw a) (pw b)) f z = Lf (pw a) (pw b) f z.

(** A layer enumeration is exact when it emits, for every phase and merge
    distance of the sweep, the comparators [(x, x + k)] with [lower p k x]
    and [x + k < n], and nothing else. *)
Definition layer_exact (layer : Z -> Z -> Z -> list emission) (n : Z) : Prop :=
  forall a b : nat,
    (b <= a)%nat -> pw a < n ->
    (forall e, In e (layer n (pw a) (pw b)) ->
               e_y e = e_x e + pw b /\ lower (pw a) (pw b) (e_x e) = true
               /\ e_x e + pw b < n) /\
    (forall x, lower (pw a) (pw b) x = true -> x + pw b < n ->
               exists e, In e (layer n (pw a) (pw b)) /\ e_x e = x).

Definition has_lower (cs : list emission) (z : Z) : bool :=
  existsb (fun e => e_x e =? z) cs.

(** The first [c] iterations of the position loop of listing 1. *)
Definition pass1 (p k j : Z) (c : nat) : list emission :=
  flat_map (fun i =>
              if Z.quot (j + i) (p + p) =? Z.quot (j + i + k) (p + p)
              then [Emit p k j (j + i) (j + i + k)] else [])
           (map (fun i => 0 + 1 * Z.of_nat i) (seq 0 c)).

(** ** Arrays, their zero-one views and the sorting contract *)

Definition toF (t : Z) (A : list Z) : Z -> bool :=
  fun z => match load A z with
           | Some v => t <=? v
           | None => true
           end.

(** [output[i] <= output[j]] for all positions [i < j]. *)
Definition ascending (A : list Z) : Prop :=
  forall i j vi vj,
    0 <= i < j -> load A i = Some vi -> load A j = Some vj -> vi <= vj.

(** Every pair of the schedule lies inside an array of [n] elements. *)
Definition in_bounds (n : Z) (cs : list emission) : Prop :=
  forall e, In e cs -> 0 <= e_x e < e_y e /\ e_y e < n.

Definition len (A : list Z) : Z := Z.of_nat (length A).

(** The contract of a sequential sort: on an array of [n] elements and
    with more than [n] units of fuel it returns a sorted permutation. *)
Definition sorts (sort : nat -> list Z -> Z -> result (list Z)) : Prop :=
  forall (fuel : nat) (A : list Z) (n : Z),
    len A = n -> (Z.to_nat n < fuel)%nat ->
    exists A', sort fuel A n = Ok A' /\ len A' = n /\
               Permutation A A' /\ ascending A'.

(** [output[i] <= output[j]] for all positions [i < j < n] of an array
    that has them. *)
Definition nondecreasing (n : Z) (A : list Z) : Prop :=
  forall i j, 0 <= i < j -> j < n ->
              exists vi vj, load A i = Some vi /\ load A j = Some vj /\ vi <= vj.

(** A run is index-safe when the compare-exchanges it performs are those
    of the recorded schedule, every recorded pair lies in [[0, n)], and
    the run does not fail. *)
Definition index_safe (trace : nat -> Z -> result (list emission))
           (sort : nat -> list Z -> Z -> result (list Z))
           (fuel : nat) (A : list Z) (n : Z) : Prop :=
  exists t A',
    trace fuel n = Ok t /\
    (forall e, In e t -> 0 <= e_x e < n /\ 0 <= e_y e < n) /\
    sort fuel A n = mfold (on_emission exec) t A /\
    sort fuel A n = Ok A'.

(** A sort terminates on [A] when there is a result that every run with
    more than [n] units of fuel returns. *)
Definition terminates (sort : nat -> list Z -> Z -> result (list Z))
           (A : list Z) (n : Z) : Prop :=
  exists A', forall fuel, (Z.to_nat n < fuel)%nat -> sort fuel A n = Ok A'.

(** ** Batcher's odd-even merge network, as a reference

    The recursive construction, following the specification's glossary
    ("a specific recursive sorting-network construction"): to merge the
    two sorted halves of the [2^(d+1)] positions [lo, lo + r, lo + 2r, ...],
    merge their even-indexed and their odd-indexed positions, then
    compare-exchange the positions [2i+1] and [2i+2]; to sort [2^t]
    positions, sort both halves and merge them. *)

Fixpoint oddeven_merge (d : nat) (lo r : Z) : list (Z * Z) :=
  match d with
  | O => [(lo, lo + r)]
  | Datatypes.S d' =>
      oddeven_merge d' lo (2 * r)
      ++ oddeven_merge d' (lo + r) (2 * r)
      ++ map (fun i => (lo + (2 * i + 1) * r, lo + (2 * i + 2) * r))
             (upto 0 1 (pw d - 1))
  end.

Fixpoint oddeven_merge_sort (t : nat) (lo : Z) : list (Z * Z) :=
  match t with
  | O => []
  | Datatypes.S t' =>
      oddeven_merge_sort t' lo
      ++ oddeven_merge_sort t' (lo + pw t')
      ++ oddeven_merge t' lo 1
  end.

(** The network for the smallest power of two that is at least [n],
    restricted to the indices below [n]: a comparator whose second index
    would be [n] or more is skipped. *)
Definition batcher (n : Z) : list (Z * Z) :=
  filter (fun c => snd c <? n) (oddeven_merge_sort (phases n) 0).

Definition pairs (cs : list emission) : list (Z * Z) :=
  map (fun e => (e_x e, e_y e)) cs.

Definition same_set {X : Type} (l1 l2 : list X) : Prop :=
  forall x, In x l1 <-> In x l2.

(** The comparators of the sweep, as a predicate on pairs. *)
Definition in_network (n : Z) (c : Z * Z) : Prop :=
  exists a b : nat,
    (b <= a)%nat /\ pw a < n /\ lower (pw a) (pw b) (fst c) = true /\
    snd c = fst c + pw b /\ snd c < n.

(** ** Groups of a schedule

    The pairs emitted under the same values of [p], [k] and [j] form a
    group. *)

Definition same_group (e1 e2 : emission) : Prop :=
  e_p e1 = e_p e2 /\ e_k e1 = e_k e2 /\ e_j e1 = e_j e2.

Definition share_index (e1 e2 : emission) : Prop :=
  e_x e1 = e_x e2 \/ e_x e1 = e_y e2 \/ e_y e1 = e_x e2 \/ e_y e1 = e_y e2.

(** No array position occurs in two distinct pairs of a group. *)
Definition groups_disjoint (t : list emission) : Prop :=
  forall e1 e2,
    In e1 t -> In e2 t -> same_group e1 e2 ->
    (e_x e1, e_y e1) <> (e_x e2, e_y e2) -> ~ share_index e1 e2.

(** Two distinct pairs of a group share a position only as a chain
    [(x, x + k)], [(x + k, x + 2k)]. *)
Definition groups_chained (t : list emission) : Prop :=
  forall e1 e2,
    In e1 t -> In e2 t -> same_group e1 e2 ->
    (e_x e1, e_y e1) <> (e_x e2, e_y e2) -> share_index e1 e2 ->
    e_y e1 = e_x e2 \/ e_y e2 = e_x e1.

(** The position of a pair inside its group: offset [i] below [k],
    possibly [u] blocks of size [2p] further (listing 2). *)
Definition in_span (e : emission) : Prop :=
  exists i u, 0 <= i < e_k e /\ 0 <= u /\ e_k e <= e_p e /\
              e_x e = e_j e + i + 2 * e_p e * u /\ e_y e = e_x e + e_k e.

Definition rev16 : list Z :=
  [16; 15; 14; 13; 12; 11; 10; 9; 8; 7; 6; 5; 4; 3; 2; 1].

Definition asc16 : list Z :=
  [1; 2; 3; 4; 5; 6; 7; 8; 9; 10; 11; 12; 13; 14; 15; 16].

(** ** The range of [int]

    The values that the loop variables and the index expressions take
    around an emission: [p], [p + p] and [2 * p]; [k]; [j], its successor
    [j + 2 * k] and the loop test [j + k] on that successor; the indices
    [x] and [y]; and, in listing 2, the successor [m + 2 * p] of [m = x]. *)
Definition fits_int (e : emission) : Prop :=
  0 < e_k e <= e_p e /\ 2 * e_p e <= 2 ^ 30 /\
  0 <= e_j e /\ e_j e + 3 * e_k e < 2 ^ 31 /\
  0 <= e_x e < e_y e /\ e_y e + 2 * e_p e < 2 ^ 31.

(** ** Further properties of the listings: definitions *)

(** What every emission of a sweep over [n] elements satisfies: [p] and
    [k] are powers of two with [k <= p < n], the block offset [j] is not
    above the lower index, the pair has distance [k], lies below [n] and
    inside one merge block of size [2p]. *)
Definition block_local (n : Z) (e : emission) : Prop :=
  exists a b : nat,
    (b <= a)%nat /\ e_p e = pw a /\ e_k e = pw b /\ e_p e < n /\
    0 <= e_j e <= e_x e /\ e_y e = e_x e + e_k e /\ e_y e < n /\
    e_x e / (2 * e_p e) = e_y e / (2 * e_p e).

(** Two compare-exchanges are compatible when they act on the same pair
    of positions or on four distinct positions. *)
Definition compatible (cs : list emission) : Prop :=
  forall e1 e2, In e1 cs -> In e2 cs ->
                (e_x e1 = e_x e2 /\ e_y e1 = e_y e2) \/ ~ share_index e1 e2.

(** Some compare-exchange of [cs] reads position [z]. *)
Definition touched (cs : list emission) (z : Z) : bool :=
  existsb (fun e => (e_x e =? z) || (e_y e =? z)) cs.

(** The compare-exchanges of the first [T] iterations of the phase loop
    ([p = 1, 2, ..., pw (T - 1)], each with all its merge distances);
    with [T = phases n] this is the whole sweep. *)
Definition sweep_upto (layer : Z -> Z -> Z -> list emission) (n : Z) (T : nat)
  : list emission :=
  flat_map (fun a =>
              flat_map (fun i => layer n (pw a) (pw (a - i)))
                       (seq 0 (Datatypes.S a)))
           (seq 0 T).

(** The compare-exchanges of the remaining iterations of the phase loop. *)
Definition sweep_from (layer : Z -> Z -> Z -> list emission) (n : Z) (T : nat)
  : list emission :=
  flat_map (fun a =>
              flat_map (fun i => layer n (pw a) (pw (a - i)))
                       (seq 0 (Datatypes.S a)))
           (seq T (phases n - T)).

(** Inside every aligned block of [q] positions the array is in order. *)
Definition block_ascending (q : Z) (A : list Z) : Prop :=
  forall i j vi vj,
    0 <= i < j -> i / q = j / q ->
    load A i = Some vi -> load A j = Some vj -> vi <= vj.

(** The compare-exchanges of the first [a] iterations of the phase loop
    followed by those of the first [i] merge distances
    ([k = pw a, ..., pw (a - i + 1)]) of the next phase, [p = pw a]. *)
Definition rounds_upto (layer : Z -> Z -> Z -> list emission) (n : Z)
           (a i : nat) : list emission :=
  sweep_upto layer n a
  ++ flat_map (fun i' => layer n (pw a) (pw (a - i'))) (seq 0 i).

(** ** The listings in [int] arithmetic

    The loop variables of the source are 32-bit [int]s.  An arithmetic
    operation whose result leaves the range of [int] has no defined
    behaviour in C++; the listings below perform every arithmetic
    operation of the source through a checked operation and stop with
    [None] at the first such result.  [Some r] is a run whose arithmetic
    stayed in range, with the result [r] of the run.  The operators [&]
    and [|] cannot leave the range. *)

Definition int_min : Z := - 2 ^ 31.
Definition int_max : Z := 2 ^ 31 - 1.

Definition in_int (z : Z) : bool := (int_min <=? z) && (z <=? int_max).

Definition checked (z : Z) : option Z := if in_int z then Some z else None.

Definition iadd (a b : Z) : option Z := checked (a + b).
Definition isub (a b : Z) : option Z := checked (a - b).
Definition imul (a b : Z) : option Z := checked (a * b).

(** [a / b] and [a % b]: no defined behaviour for [b = 0] and for
    [INT_MIN / -1]. *)
Definition idiv (a b : Z) : option Z :=
  if b =? 0 then None else checked (Z.quot a b).

Definition irem (a b : Z) : option Z :=
  if b =? 0 then None
  else if (a =? int_min) && (b =? -1) then None
       else checked (Z.rem a b).

Definition obind {X Y : Type} (o : option X) (f : X -> option Y) : option Y :=
  match o with
  | Some x => f x
  | None => None
  end.

Notation "x <- o ;; f" := (obind o (fun x => f))
  (at level 61, o at next level, right associativity).

(** [for (x = x0; cond x; x = step x) body x], where the test and the
    step are computed in [int] arithmetic. *)
Fixpoint for_loop_int {S : Type} (fuel : nat) (cond : Z -> option bool)
         (step : Z -> option Z) (body : Z -> S -> option (result S))
         (x : Z) (s : S) : option (result S) :=
  match fuel with
  | O => Some OutOfFuel
  | Datatypes.S fuel' =>
      match cond x with
      | None => None
      | Some false => Some (Ok s)
      | Some true =>
          match body x s with
          | None => None
          | Some (Ok s') =>
              match step x with
              | None => None
              | Some x' => for_loop_int fuel' cond step body x' s'
              end
          | Some OutOfFuel => Some OutOfFuel
          | Some OutOfBounds => Some OutOfBounds
          end
      end
  end.

Section IntEnumerators.

Variable S : Type.
Variable emit : Z -> Z -> Z -> Z -> Z -> S -> result S.

Definition listing1_int (fuel : nat) (n : Z) : S -> option (result S) :=
  for_loop_int fuel (fun p => Some (p <? n)) (fun p => iadd p p) (fun p =>
    for_loop_int fuel (fun k => Some (k >? 0)) (fun k => idiv k 2) (fun k s =>
      j0 <- irem k p ;;
      for_loop_int fuel
        (fun j => jk <- iadd j k ;; Some (jk <? n))
        (fun j => k2 <- imul 2 k ;; iadd j k2)
        (fun j =>
           for_loop_int fuel
             (fun i => nj <- isub n j ;; njk <- isub nj k ;; Some (i <? njk))
             (fun i => iadd i 1)
             (fun i s =>
                x <- iadd j i ;;
                pp <- iadd p p ;;
                q1 <- idiv x pp ;;
                y <- iadd x k ;;
                q2 <- idiv y pp ;;
                if q1 =? q2 then Some (emit p k j x y s) else Some (Ok s))
             0)
        j0 s)
    p)
  1.

Definition listing2_int (fuel : nat) (n : Z) : S -> option (result S) :=
  for_loop_int fuel (fun p => Some (p <? n)) (fun p => imul p 2) (fun p =>
    for_loop_int fuel (fun k => Some (k >? 0)) (fun k => idiv k 2) (fun k s =>
      j0 <- irem k p ;;
      for_loop_int fuel
        (fun j => jk <- iadd j k ;; pp <- imul 2 p ;; Some (jk <? pp))
        (fun j => k2 <- imul 2 k ;; iadd j k2)
        (fun j =>
           for_loop_int fuel (fun i => Some (i <? k)) (fun i => iadd i 1)
             (fun i s =>
                m0 <- iadd i j ;;
                for_loop_int fuel
                  (fun m => nk <- isub n k ;; Some (m <? nk))
                  (fun m => pp <- imul 2 p ;; iadd m pp)
                  (fun m s => y <- iadd m k ;; Some (emit p k j m y s))
                  m0 s)
             0)
        j0 s)
    p)
  1.

(** [for (int i = std::min(k, n-j-k); i--;)]: the test reads [i] and
    decrements it, the body sees the decremented value. *)
Definition listing3_int (fuel : nat) (n : Z) : S -> option (result S) :=
  for_loop_int fuel (fun p => Some (p <? n)) (fun p => imul p 2) (fun p =>
    for_loop_int fuel (fun k => Some (k >? 0)) (fun k => idiv k 2) (fun k s =>
      j0 <- irem k p ;;
      for_loop_int fuel
        (fun j => jk <- iadd j k ;; Some (jk <? n))
        (fun j => k2 <- imul 2 k ;; iadd j k2)
        (fun j s =>
           nj <- isub n j ;;
           njk <- isub nj k ;;
           for_loop_int fuel
             (fun i => _ <- isub i 1 ;; Some (negb (i =? 0)))
             (fun i => isub i 1)
             (fun i' s =>
                i <- isub i' 1 ;;
                x <- iadd j i ;;
                pp <- imul 2 p ;;
                q1 <- idiv x pp ;;
                y <- iadd x k ;;
                q2 <- idiv y pp ;;
                if q1 =? q2 then Some (emit p k j x y s) else Some (Ok s))
             (Z.min k njk) s)
        j0 s)
    p)
  1.

Definition listing4_int (fuel : nat) (n : Z) : S -> option (result S) :=
  for_loop_int fuel (fun p => Some (p <? n)) (fun p => imul p 2) (fun p =>
    for_loop_int fuel (fun k => Some (k >? 0)) (fun k => idiv k 2) (fun k s =>
      p1 <- isub p 1 ;;
      for_loop_int fuel
        (fun j => jk <- iadd j k ;; Some (jk <? n))
        (fun j => k2 <- imul 2 k ;; iadd j k2)
        (fun j s =>
           pp <- imul 2 p ;;
           mask <- isub pp 1 ;;
           jk <- iadd j k ;;
           if Z.lor j mask =? Z.lor jk mask
           then
             nj <- isub n j ;;
             njk <- isub nj k ;;
             for_loop_int fuel
               (fun i => _ <- isub i 1 ;; Some (negb (i =? 0)))
               (fun i => isub i 1)
               (fun i' s =>
                  i <- isub i' 1 ;;
                  x <- iadd j i ;;
                  y <- iadd x k ;;
                  Some (emit p k j x y s))
               (Z.min k njk) s
           else Some (Ok s))
        (Z.land k p1) s)
    p)
  1.

End IntEnumerators.

(** The sorts and the recorded schedules in [int] arithmetic. *)
Definition sortListing1_int (fuel : nat) (A : list Z) (n : Z) :=
  listing1_int exec fuel n A.
Definition sortListing2_int (fuel : nat) (A : list Z) (n : Z) :=
  listing2_int exec fuel n A.
Definition sortListing3_int (fuel : nat) (A : list Z) (n : Z) :=
  listing3_int exec fuel n A.
Definition sortListing4_int (fuel : nat) (A : list Z) (n : Z) :=
  listing4_int exec fuel n A.

Definition trace1_int (fuel : nat) (n : Z) := listing1_int record fuel n [].
Definition trace2_int (fuel : nat) (n : Z) := listing2_int record fuel n [].
Definition trace3_int (fuel : nat) (n : Z) := listing3_int record fuel n [].
Definition trace4_int (fuel : nat) (n : Z) := listing4_int record fuel n [].

(** Index safety and termination of a run in [int] arithmetic. *)
Definition index_safe_int (trace : nat -> Z -> option (result (list emission)))
           (sort : nat -> list Z -> Z -> option (result (list Z)))
           (fuel : nat) (A : list Z) (n : Z) : Prop :=
  exists t A',
    trace fuel n = Some (Ok t) /\
    (forall e, In e t -> 0 <= e_x e < n /\ 0 <= e_y e < n) /\
    sort fuel A n = Some (mfold (on_emission exec) t A) /\
    sort fuel A n = Some (Ok A').

Definition terminates_int (sort : nat -> list Z -> Z -> option (result (list Z)))
           (A : list Z) (n : Z) : Prop :=
  exists A', forall fuel, (Z.to_nat n < fuel)%nat -> sort fuel A n = Some (Ok A').

(** ** Loops as folds over the values of the loop variable *)

Lemma bind_ext {S T : Type} (r : result S) (f g : S -> result T) :
  (forall s, f s = g s) -> bind r f = bind r g.
Proof. intros H; destruct r; simpl; auto. Qed.

Lemma mfold_app {S X : Type} (act : X -> S -> result S) (l1 l2 : list X) (s : S) :
  mfold act (l1 ++ l2) s = bind (mfold act l1 s) (mfold act l2).
Proof.
  revert s; induction l1 as [|x l1 IH]; intros s; simpl; [reflexivity|].
  destruct (act x s); simpl; auto.
Qed.

Lemma flat_map_map {X Y W : Type} (f : Y -> list W) (g : X -> Y) (l : list X) :
  flat_map f (map g l) = flat_map (fun x => f (g x)) l.
Proof. induction l as [|x l IH]; simpl; [reflexivity|now rewrite IH]. Qed.

(** A loop whose variable takes the values [v 0], [v 1], ..., [v (cnt-1)]
    and whose body at [v i] performs the actions [g i] performs, with more
    than [cnt] units of fuel, the actions of all [g i] in order. *)
Lemma for_loop_unroll {S X : Type} (act : X -> S -> result S)
      (cond : Z -> bool) (step : Z -> Z) (body : Z -> S -> result S)
      (g : nat -> list X) :
  forall (cnt : nat) (v : nat -> Z) (fuel : nat) (s : S),
    (cnt < fuel)%nat ->
    (forall i, (i < cnt)%nat ->
               cond (v i) = true /\ step (v i) = v (Datatypes.S i)) ->
    (forall i s', (i < cnt)%nat -> body (v i) s' = mfold act (g i) s') ->
    cond (v cnt) = false ->
    for_loop fuel cond step body (v O) s
    = mfold act (flat_map g (seq 0 cnt)) s.
Proof.
  intros cnt. revert g.
  induction cnt as [|c IH]; intros g v fuel s Hf Hv Hb Hend.
  - destruct fuel as [|f]; [lia|]. simpl. now rewrite Hend.
  - destruct fuel as [|f]; [lia|].
    destruct (Hv O ltac:(lia)) as [Hc Hs].
    cbn [for_loop seq flat_map]. rewrite Hc, mfold_app, (Hb O s ltac:(lia)).
    apply bind_ext; intros s'. rewrite Hs.
    rewrite <- seq_shift, flat_map_map.
    apply (IH (fun i => g (Datatypes.S i)) (fun i => v (Datatypes.S i)));
      [lia| | |assumption].
    + intros i Hi. apply Hv. lia.
    + intros i s'' Hi. apply Hb. lia.
Qed.

Lemma upto_count_spec (x0 d bound : Z) (i : nat) :
  0 < d ->
  (i < upto_count x0 d bound)%nat <-> x0 + d * Z.of_nat i < bound.
Proof.
  intros Hd. unfold upto_count.
  assert (Hq := Z.div_mod (bound - x0 + d - 1) d ltac:(lia)).
  assert (Hr := Z.mod_pos_bound (bound - x0 + d - 1) d Hd).
  set (q := (bound - x0 + d - 1) / d) in *.
  set (r := (bound - x0 + d - 1) mod d) in *.
  split; intros H.
  - assert (Z.of_nat i < q) by lia. nia.
  - assert (Z.of_nat i < q) by nia. lia.
Qed.

Lemma in_upto (x0 d bound x : Z) :
  0 < d ->
  In x (upto x0 d bound) <-> exists t, 0 <= t /\ x = x0 + d * t /\ x < bound.
Proof.
  intros Hd. unfold upto. rewrite in_map_iff. split.
  - intros (i & <- & Hi). apply in_seq in Hi.
    exists (Z.of_nat i). repeat split; [lia|].
    apply upto_count_spec; [assumption|lia].
  - intros (t & Ht & -> & Hb). exists (Z.to_nat t).
    rewrite Z2Nat.id by assumption. split; [reflexivity|].
    apply in_seq. split; [lia|]. simpl.
    apply upto_count_spec; [assumption|]. now rewrite Z2Nat.id.
Qed.

Lemma in_downfrom (m x : Z) : In x (downfrom m) <-> 0 < x <= m.
Proof.
  unfold downfrom. rewrite in_map_iff. split.
  - intros (i & <- & Hi). apply in_seq in Hi. lia.
  - intros H. exists (Z.to_nat (m - x)). split; [lia|]. apply in_seq. lia.
Qed.

(** *** The four loop shapes of the listings *)

Section LoopShapes.

Context {S X : Type} (act : X -> S -> result S).

Lemma loop_upto (cond : Z -> bool) (step : Z -> Z) (body : Z -> S -> result S)
      (g : Z -> list X) (x0 d bound : Z) (fuel : nat) (s : S) :
  0 < d ->
  (forall x, cond x = (x <? bound)) ->
  (forall x, step x = x + d) ->
  (upto_count x0 d bound < fuel)%nat ->
  (forall x s', In x (upto x0 d bound) -> body x s' = mfold act (g x) s') ->
  for_loop fuel cond step body x0 s
  = mfold act (flat_map g (upto x0 d bound)) s.
Proof.
  intros Hd Hc Hs Hf Hb. unfold upto. rewrite flat_map_map.
  pose (v := fun i : nat => x0 + d * Z.of_nat i).
  replace x0 with (v O) at 1 by (unfold v; simpl; lia).
  apply (@for_loop_unroll _ _ act cond step body (fun i => g (v i)) _ v);
    unfold v; [assumption| | |].
  - intros i Hi. rewrite Hc, Hs. split.
    + apply Z.ltb_lt. now apply upto_count_spec.
    + lia.
  - intros i s' Hi. apply Hb. unfold upto. apply in_map_iff.
    exists i. split; [reflexivity|]. apply in_seq. lia.
  - rewrite Hc. apply Z.ltb_ge.
    destruct (Z.lt_ge_cases (x0 + d * Z.of_nat (upto_count x0 d bound)) bound)
      as [H|H]; [|assumption].
    apply upto_count_spec in H; [lia|assumption].
Qed.

Lemma loop_downfrom (body : Z -> S -> result S) (g : Z -> list X)
      (m : Z) (fuel : nat) (s : S) :
  0 <= m ->
  (Z.to_nat m < fuel)%nat ->
  (forall x s', In x (downfrom m) -> body x s' = mfold act (g x) s') ->
  for_loop fuel (fun i => negb (i =? 0)) (fun i => i - 1) body m s
  = mfold act (flat_map g (downfrom m)) s.
Proof.
  intros Hm Hf Hb. unfold downfrom. rewrite flat_map_map.
  pose (v := fun i : nat => m - Z.of_nat i).
  replace m with (v O) at 1 by (unfold v; simpl; lia).
  apply (@for_loop_unroll _ _ act _ _ body (fun i => g (v i)) _ v);
    unfold v; [assumption| | |].
  - intros i Hi. split; [|lia].
    apply negb_true_iff, Z.eqb_neq. lia.
  - intros i s' Hi. apply Hb. unfold downfrom. apply in_map_iff.
    exists i. split; [reflexivity|]. apply in_seq. lia.
  - apply negb_false_iff, Z.eqb_eq. lia.
Qed.

End LoopShapes.

(** *** Powers of two *)

Lemma pw_S (a : nat) : pw (Datatypes.S a) = 2 * pw a.
Proof.
  unfold pw. rewrite Nat2Z.inj_succ, Z.pow_succ_r by lia. reflexivity.
Qed.

Lemma pw_pos (a : nat) : 0 < pw a.
Proof. unfold pw. apply Z.pow_pos_nonneg; lia. Qed.

Lemma pw_add (a b : nat) : pw (a + b) = pw a * pw b.
Proof. unfold pw. rewrite Nat2Z.inj_add, Z.pow_add_r by lia. reflexivity. Qed.

Lemma pw_le_mono (a b : nat) : (a <= b)%nat -> pw a <= pw b.
Proof. intros H. unfold pw. apply Z.pow_le_mono_r; lia. Qed.

Lemma pw_gt_lin (a : nat) : Z.of_nat a < pw a.
Proof. unfold pw. apply Z.pow_gt_lin_r; lia. Qed.

Lemma pw_lt_phases (n : Z) (a : nat) : (a < phases n)%nat <-> pw a < n.
Proof.
  unfold phases, pw.
  destruct (Z.le_gt_cases n 0) as [Hn|Hn].
  - rewrite Z.log2_up_nonpos by assumption.
    assert (0 < 2 ^ Z.of_nat a) by (apply Z.pow_pos_nonneg; lia).
    simpl. lia.
  - rewrite (Z.log2_up_lt_pow2 n (Z.of_nat a)) by assumption.
    assert (0 <= Z.log2_up n) by apply Z.log2_up_nonneg. lia.
Qed.

Lemma phases_le (n : Z) : 0 <= n -> (phases n <= Z.to_nat n)%nat.
Proof.
  intros Hn. unfold phases.
  destruct (Z.eq_dec n 0) as [->|Hne]; [simpl; lia|].
  assert (Z.log2_up n < n) by (apply Z.log2_up_lt_lin; lia).
  assert (0 <= Z.log2_up n) by apply Z.log2_up_nonneg. lia.
Qed.

Lemma phases_spec (n : Z) : n <= pw (phases n).
Proof.
  destruct (Z.lt_ge_cases (pw (phases n)) n) as [H|H]; [|lia].
  apply pw_lt_phases in H. lia.
Qed.

Section PowerLoops.

Context {S X : Type} (act : X -> S -> result S).

Lemma loop_phase (step : Z -> Z) (body : Z -> S -> result S)
      (g : nat -> list X) (n : Z) (fuel : nat) (s : S) :
  (forall x, step x = 2 * x) ->
  (phases n < fuel)%nat ->
  (forall a s', (a < phases n)%nat -> body (pw a) s' = mfold act (g a) s') ->
  for_loop fuel (fun p => p <? n) step body 1 s
  = mfold act (flat_map g (seq 0 (phases n))) s.
Proof.
  intros Hs Hf Hb. change 1 with (pw 0).
  apply (@for_loop_unroll _ _ act _ step body g _ pw); [assumption| | |].
  - intros a Ha. split.
    + apply Z.ltb_lt. now apply pw_lt_phases.
    + rewrite Hs. symmetry. apply pw_S.
  - intros a s' Ha. now apply Hb.
  - apply Z.ltb_ge. apply phases_spec.
Qed.

Lemma loop_halve (body : Z -> S -> result S) (g : nat -> list X)
      (a : nat) (fuel : nat) (s : S) :
  (Datatypes.S a < fuel)%nat ->
  (forall i s', (i <= a)%nat -> body (pw (a - i)) s' = mfold act (g i) s') ->
  for_loop fuel (fun k => k >? 0) (fun k => Z.quot k 2) body (pw a) s
  = mfold act (flat_map g (seq 0 (Datatypes.S a))) s.
Proof.
  intros Hf Hb.
  pose (v := fun i : nat => if (i <=? a)%nat then pw (a - i) else 0).
  replace (pw a) with (v O) at 1 by (unfold v; simpl; now rewrite Nat.sub_0_r).
  apply (@for_loop_unroll _ _ act _ _ body g _ v); [assumption| | |].
  - intros i Hi. unfold v.
    destruct (Nat.leb_spec i a) as [Hia|Hia]; [|lia]. split.
    + assert (0 < pw (a - i)) by apply pw_pos. apply Z.gtb_lt. lia.
    + destruct (Nat.leb_spec (Datatypes.S i) a) as [Hsa|Hsa].
      * replace (a - i)%nat with (Datatypes.S (a - Datatypes.S i)) by lia.
        rewrite pw_S, Z.mul_comm. apply Z.quot_mul. lia.
      * replace (a - i)%nat with O by lia. reflexivity.
  - intros i s' Hi. unfold v.
    destruct (Nat.leb_spec i a) as [Hia|Hia]; [|lia]. apply Hb. lia.
  - unfold v. destruct (Nat.leb_spec (Datatypes.S a) a); [lia|reflexivity].
Qed.

End PowerLoops.

Lemma upto_count_le (x0 d bound : Z) :
  0 < d -> 0 <= x0 -> (upto_count x0 d bound <= Z.to_nat bound)%nat.
Proof.
  intros Hd Hx.
  destruct (upto_count x0 d bound) as [|c] eqn:E; [lia|].
  assert (H : (c < upto_count x0 d bound)%nat) by lia.
  apply upto_count_spec in H; [|assumption]. nia.
Qed.

Lemma mfold_single {S X : Type} (act : X -> S -> result S) (x : X) (s : S) :
  mfold act [x] s = act x s.
Proof. simpl. destruct (act x s); reflexivity. Qed.

Lemma mfold_guard {S X : Type} (act : X -> S -> result S) (b : bool) (x : X) (s : S) :
  (if b then act x s else Ok s) = mfold act (if b then [x] else []) s.
Proof. destruct b; [now rewrite mfold_single|reflexivity]. Qed.

Lemma pw_sub_le (a i : nat) : 0 < pw (a - i) <= pw a.
Proof. split; [apply pw_pos|apply pw_le_mono; lia]. Qed.

Lemma rem_pw_nonneg (a i : nat) : 0 <= Z.rem (pw (a - i)) (pw a).
Proof.
  assert (H := pw_sub_le a i). assert (Hp := pw_pos a).
  apply Z.rem_nonneg; lia.
Qed.

Ltac ltb_agree :=
  intros;
  repeat match goal with
         | |- context [?a <? ?b] => destruct (Z.ltb_spec a b)
         end; try reflexivity; lia.

Lemma upto_count_bound (x0 d bound : Z) (c : nat) :
  0 < d -> bound <= x0 + d * Z.of_nat c -> (upto_count x0 d bound <= c)%nat.
Proof.
  intros Hd Hb.
  destruct (Nat.le_gt_cases (upto_count x0 d bound) c) as [H|H]; [assumption|].
  apply upto_count_spec in H; [lia|assumption].
Qed.

Lemma flat_map_single {X Y : Type} (f : X -> Y) (l : list X) :
  flat_map (fun x => [f x]) l = map f l.
Proof. induction l as [|x l IH]; simpl; [reflexivity|now rewrite IH]. Qed.

(** *** Every listing performs exactly its closed-form schedule *)

Section Unrolling.

Context {S : Type} (emit : Z -> Z -> Z -> Z -> Z -> S -> result S).

Theorem listing1_sched (fuel : nat) (n : Z) (s : S) :
  (Z.to_nat n < fuel)%nat ->
  listing1 emit fuel n s = mfold (on_emission emit) (sched1 n) s.
Proof.
  intros Hf. unfold listing1, sched1, sweep.
  destruct (Z.le_gt_cases n 0) as [Hn|Hn].
  { replace (phases n) with O
      by (unfold phases; now rewrite Z.log2_up_nonpos).
    destruct fuel; [lia|]. simpl.
    destruct (Z.ltb_spec 1 n); [lia|reflexivity]. }
  assert (Hph := phases_le (n := n) ltac:(lia)).
  apply loop_phase; [intros; lia|lia|].
  intros a s1 Ha. apply pw_lt_phases in Ha.
  assert (Hlin := pw_gt_lin a).
  apply loop_halve; [lia|].
  intros i s2 Hi.
  assert (Hk := pw_sub_le a i). assert (Hr := rem_pw_nonneg a i).
  set (p := pw a) in *. set (k := pw (a - i)) in *.
  unfold layer1.
  apply loop_upto; [lia|ltb_agree|reflexivity| |].
  { assert (H := @upto_count_le (Z.rem k p) (2 * k) (n - k) ltac:(lia) Hr).
    lia. }
  intros j s3 Hj. apply in_upto in Hj; [|lia].
  destruct Hj as (t & Ht & Hj & Hjn).
  unfold group1.
  apply loop_upto; [lia|ltb_agree|reflexivity| |].
  { assert (H := @upto_count_le 0 1 (n - j - k) ltac:(lia) ltac:(lia)).
    assert (0 <= j) by nia. lia. }
  intros x s4 _.
  exact (mfold_guard (on_emission emit) _ (Emit p k j (j + x) (j + x + k)) s4).
Qed.

Theorem listing2_sched (fuel : nat) (n : Z) (s : S) :
  (Z.to_nat n < fuel)%nat ->
  listing2 emit fuel n s = mfold (on_emission emit) (sched2 n) s.
Proof.
  intros Hf. unfold listing2, sched2, sweep.
  destruct (Z.le_gt_cases n 0) as [Hn|Hn].
  { replace (phases n) with O
      by (unfold phases; now rewrite Z.log2_up_nonpos).
    destruct fuel; [lia|]. simpl.
    destruct (Z.ltb_spec 1 n); [lia|reflexivity]. }
  assert (Hph := phases_le (n := n) ltac:(lia)).
  apply loop_phase; [intros; lia|lia|].
  intros a s1 Ha. apply pw_lt_phases in Ha.
  assert (Hlin := pw_gt_lin a).
  apply loop_halve; [lia|].
  intros i s2 Hi.
  assert (Hk := pw_sub_le a i). assert (Hr := rem_pw_nonneg a i).
  set (p := pw a) in *. set (k := pw (a - i)) in *.
  unfold layer2.
  apply loop_upto; [lia|ltb_agree|reflexivity| |].
  { assert (H := @upto_count_bound (Z.rem k p) (2 * k) (2 * p - k)
                                   (Z.to_nat p) ltac:(lia) ltac:(nia)).
    lia. }
  intros j s3 Hj. apply in_upto in Hj; [|lia].
  destruct Hj as (t & Ht & Hj & Hjn). assert (H0j : 0 <= j) by nia.
  unfold group2.
  apply loop_upto; [lia|ltb_agree|reflexivity| |].
  { assert (Hc := @upto_count_le 0 1 k ltac:(lia) ltac:(lia)). lia. }
  intros x s4 Hx. apply in_upto in Hx; [|lia].
  destruct Hx as (u & Hu & Hx & Hxk).
  rewrite <- flat_map_single.
  apply loop_upto; [lia|ltb_agree|reflexivity| |].
  { assert (Hc := @upto_count_le (x + j) (2 * p) (n - k)
                                 ltac:(lia) ltac:(lia)).
    lia. }
  intros m s5 _.
  exact (eq_sym (mfold_single (on_emission emit) (Emit p k j m (m + k)) s5)).
Qed.

Theorem listing3_sched (fuel : nat) (n : Z) (s : S) :
  (Z.to_nat n < fuel)%nat ->
  listing3 emit fuel n s = mfold (on_emission emit) (sched3 n) s.
Proof.
  intros Hf. unfold listing3, sched3, sweep.
  destruct (Z.le_gt_cases n 0) as [Hn|Hn].
  { replace (phases n) with O
      by (unfold phases; now rewrite Z.log2_up_nonpos).
    destruct fuel; [lia|]. simpl.
    destruct (Z.ltb_spec 1 n); [lia|reflexivity]. }
  assert (Hph := phases_le (n := n) ltac:(lia)).
  apply loop_phase; [intros; lia|lia|].
  intros a s1 Ha. apply pw_lt_phases in Ha.
  assert (Hlin := pw_gt_lin a).
  apply loop_halve; [lia|].
  intros i s2 Hi.
  assert (Hk := pw_sub_le a i). assert (Hr := rem_pw_nonneg a i).
  set (p := pw a) in *. set (k := pw (a - i)) in *.
  unfold layer3.
  apply loop_upto; [lia|ltb_agree|reflexivity| |].
  { assert (H := @upto_count_le (Z.rem k p) (2 * k) (n - k) ltac:(lia) Hr).
    lia. }
  intros j s3 Hj. apply in_upto in Hj; [|lia].
  destruct Hj as (t & Ht & Hj & Hjn).
  unfold group3.
  apply loop_downfrom; [lia|lia|].
  intros x s4 _. cbv zeta.
  exact (mfold_guard (on_emission emit) _
                     (Emit p k j (j + (x - 1)) (j + (x - 1) + k)) s4).
Qed.

Theorem listing4_sched (fuel : nat) (n : Z) (s : S) :
  (Z.to_nat n < fuel)%nat ->
  listing4 emit fuel n s = mfold (on_emission emit) (sched4 n) s.
Proof.
  intros Hf. unfold listing4, sched4, sweep.
  destruct (Z.le_gt_cases n 0) as [Hn|Hn].
  { replace (phases n) with O
      by (unfold phases; now rewrite Z.log2_up_nonpos).
    destruct fuel; [lia|]. simpl.
    destruct (Z.ltb_spec 1 n); [lia|reflexivity]. }
  assert (Hph := phases_le (n := n) ltac:(lia)).
  apply loop_phase; [intros; lia|lia|].
  intros a s1 Ha. apply pw_lt_phases in Ha.
  assert (Hlin := pw_gt_lin a).
  apply loop_halve; [lia|].
  intros i s2 Hi.
  assert (Hk := pw_sub_le a i).
  set (p := pw a) in *. set (k := pw (a - i)) in *.
  assert (Hr : 0 <= Z.land k (p - 1)) by (apply Z.land_nonneg; lia).
  unfold layer4.
  apply loop_upto; [lia|ltb_agree|reflexivity| |].
  { assert (H := @upto_count_le (Z.land k (p - 1)) (2 * k) (n - k)
                                ltac:(lia) Hr).
    lia. }
  intros j s3 Hj. apply in_upto in Hj; [|lia].
  destruct Hj as (t & Ht & Hj & Hjn).
  unfold group4.
  destruct (Z.lor j (2 * p - 1) =? Z.lor (j + k) (2 * p - 1)); [|reflexivity].
  rewrite <- flat_map_single.
  apply loop_downfrom; [lia|lia|].
  intros x s4 _. cbv zeta.
  exact (eq_sym (mfold_single (on_emission emit)
                              (Emit p k j (j + (x - 1)) (j + (x - 1) + k)) s4)).
Qed.

End Unrolling.

(** ** Membership in the schedules *)

Lemma in_sweep (layer : Z -> Z -> Z -> list emission) (n : Z) (e : emission) :
  In e (sweep layer n) <->
  exists a b : nat, (b <= a)%nat /\ pw a < n /\ In e (layer n (pw a) (pw b)).
Proof.
  unfold sweep. rewrite in_flat_map. split.
  - intros (a & Ha & He). apply in_seq in Ha. apply in_flat_map in He.
    destruct He as (i & Hi & He). apply in_seq in Hi.
    exists a, (a - i)%nat. repeat split; [lia| |assumption].
    apply pw_lt_phases. lia.
  - intros (a & b & Hb & Ha & He). exists a. split.
    + apply in_seq. apply pw_lt_phases in Ha. lia.
    + apply in_flat_map. exists (a - b)%nat. split; [apply in_seq; lia|].
      replace (a - (a - b))%nat with b by lia. assumption.
Qed.

Section LayerMembership.

Variables n p k : Z.
Hypothesis Hk : 0 < k.
Hypothesis Hp : 0 < p.

Lemma in_layer1 (e : emission) :
  In e (layer1 n p k) <->
  exists t i, 0 <= t /\ 0 <= i /\
    let j := Z.rem k p + 2 * k * t in
    j + i + k < n /\
    Z.quot (j + i) (p + p) = Z.quot (j + i + k) (p + p) /\
    e = Emit p k j (j + i) (j + i + k).
Proof.
  unfold layer1, group1. rewrite in_flat_map. split.
  - intros (j & Hj & He). apply in_upto in Hj; [|lia].
    destruct Hj as (t & Ht & -> & Hjn). apply in_flat_map in He.
    destruct He as (i & Hi & He). apply in_upto in Hi; [|lia].
    destruct Hi as (u & Hu & -> & Hin).
    destruct (Z.eqb_spec (Z.quot (Z.rem k p + 2 * k * t + (0 + 1 * u)) (p + p))
                         (Z.quot (Z.rem k p + 2 * k * t + (0 + 1 * u) + k) (p + p)))
      as [E|E]; [|contradiction].
    destruct He as [<-|[]]. exists t, (0 + 1 * u). cbv zeta.
    repeat split; try assumption; lia.
  - intros (t & i & Ht & Hi & Hn & E & ->).
    exists (Z.rem k p + 2 * k * t). split.
    + apply in_upto; [lia|]. exists t. repeat split; [assumption|lia].
    + apply in_flat_map. exists i. split.
      * apply in_upto; [lia|]. exists i. repeat split; lia.
      * rewrite E, Z.eqb_refl. now left.
Qed.

Lemma in_layer2 (e : emission) :
  In e (layer2 n p k) <->
  exists t i u, 0 <= t /\ 0 <= i < k /\ 0 <= u /\
    let j := Z.rem k p + 2 * k * t in
    let m := i + j + 2 * p * u in
    j + k < 2 * p /\ m + k < n /\ e = Emit p k j m (m + k).
Proof.
  unfold layer2, group2. rewrite in_flat_map. split.
  - intros (j & Hj & He). apply in_upto in Hj; [|lia].
    destruct Hj as (t & Ht & -> & Hjn). apply in_flat_map in He.
    destruct He as (i & Hi & He). apply in_upto in Hi; [|lia].
    destruct Hi as (u & Hu & -> & Hin). apply in_map_iff in He.
    destruct He as (m & <- & Hm). apply in_upto in Hm; [|lia].
    destruct Hm as (w & Hw & -> & Hmn).
    exists t, (0 + 1 * u), w. cbv zeta. repeat split; try assumption; lia.
  - intros (t & i & u & Ht & Hi & Hu & Hj & Hm & ->).
    exists (Z.rem k p + 2 * k * t). split.
    + apply in_upto; [lia|]. exists t. repeat split; [assumption|lia].
    + apply in_flat_map. exists i. split.
      * apply in_upto; [lia|]. exists i. repeat split; lia.
      * apply in_map_iff. exists (i + (Z.rem k p + 2 * k * t) + 2 * p * u).
        split; [reflexivity|].
        apply in_upto; [lia|]. exists u. repeat split; [assumption|lia].
Qed.

Lemma in_layer3 (e : emission) :
  In e (layer3 n p k) <->
  exists t i, 0 <= t /\ 0 <= i < k /\
    let j := Z.rem k p + 2 * k * t in
    j + i + k < n /\
    Z.quot (j + i) (2 * p) = Z.quot (j + i + k) (2 * p) /\
    e = Emit p k j (j + i) (j + i + k).
Proof.
  unfold layer3, group3. rewrite in_flat_map. split.
  - intros (j & Hj & He). apply in_upto in Hj; [|lia].
    destruct Hj as (t & Ht & -> & Hjn). apply in_flat_map in He.
    destruct He as (i & Hi & He). apply in_downfrom in Hi. cbv zeta in He.
    destruct (Z.eqb_spec (Z.quot (Z.rem k p + 2 * k * t + (i - 1)) (2 * p))
                         (Z.quot (Z.rem k p + 2 * k * t + (i - 1) + k) (2 * p)))
      as [E|E]; [|contradiction].
    destruct He as [<-|[]]. exists t, (i - 1). cbv zeta.
    repeat split; try assumption; lia.
  - intros (t & i & Ht & Hi & Hn & E & ->).
    exists (Z.rem k p + 2 * k * t). split.
    + apply in_upto; [lia|]. exists t. repeat split; [assumption|lia].
    + apply in_flat_map. exists (i + 1). split.
      * apply in_downfrom. lia.
      * cbv zeta. replace (i + 1 - 1) with i by lia.
        rewrite E, Z.eqb_refl. now left.
Qed.

Lemma in_layer4 (e : emission) :
  In e (layer4 n p k) <->
  exists t i, 0 <= t /\ 0 <= i < k /\
    let j := Z.land k (p - 1) + 2 * k * t in
    j + i + k < n /\
    Z.lor j (2 * p - 1) = Z.lor (j + k) (2 * p - 1) /\
    e = Emit p k j (j + i) (j + i + k).
Proof.
  unfold layer4, group4. rewrite in_flat_map. split.
  - intros (j & Hj & He). apply in_upto in Hj; [|lia].
    destruct Hj as (t & Ht & -> & Hjn).
    destruct (Z.eqb_spec (Z.lor (Z.land k (p - 1) + 2 * k * t) (2 * p - 1))
                         (Z.lor (Z.land k (p - 1) + 2 * k * t + k) (2 * p - 1)))
      as [E|E]; [|contradiction].
    apply in_map_iff in He. destruct He as (i & <- & Hi).
    apply in_downfrom in Hi. exists t, (i - 1). cbv zeta.
    repeat split; try assumption; lia.
  - intros (t & i & Ht & Hi & Hn & E & ->).
    exists (Z.land k (p - 1) + 2 * k * t). split.
    + apply in_upto; [lia|]. exists t. repeat split; [assumption|lia].
    + rewrite E, Z.eqb_refl. apply in_map_iff. exists (i + 1). split.
      * cbv zeta. now replace (i + 1 - 1) with i by lia.
      * apply in_downfrom. lia.
Qed.

End LayerMembership.

(** ** Index arithmetic inside a block of size [2p = 2kh] *)

Unset Implicit Arguments.

Section Coords.

Variables k h : Z.
Hypothesis Hk : 0 < k.
Hypothesis Hh : 0 < h.

Local Abbreviation p := (k * h).
Local Abbreviation pos := (at_ k h).

Lemma at_div_block (blk r c : Z) :
  0 <= r < 2 * h -> 0 <= c < k -> pos blk r c / (2 * p) = blk.
Proof.
  intros Hr Hc. symmetry. apply Z.div_unique with (r := k * r + c).
  - left. nia.
  - unfold at_. lia.
Qed.

Lemma at_div_k (blk r c : Z) :
  0 <= c < k -> pos blk r c / k = 2 * h * blk + r.
Proof.
  intros Hc. symmetry. apply Z.div_unique with (r := c).
  - left. lia.
  - unfold at_. lia.
Qed.

Lemma at_succ (blk r c : Z) : pos blk r c + k = pos blk (r + 1) c.
Proof. unfold at_. lia. Qed.

Lemma at_wrap (blk c : Z) : pos blk (2 * h) c = pos (blk + 1) 0 c.
Proof. unfold at_. lia. Qed.

Lemma at_nonneg (blk r c : Z) : 0 <= blk -> 0 <= r -> 0 <= c -> 0 <= pos blk r c.
Proof. intros. unfold at_. nia. Qed.

Lemma coords_exist (x : Z) :
  0 <= x ->
  exists blk r c, 0 <= blk /\ 0 <= r < 2 * h /\ 0 <= c < k /\ x = pos blk r c.
Proof.
  intros Hx.
  assert (Hp : 0 < 2 * p) by nia.
  assert (E1 := Z.div_mod x (2 * p) ltac:(lia)).
  assert (B1 := Z.mod_pos_bound x (2 * p) Hp).
  assert (E2 := Z.div_mod (x mod (2 * p)) k ltac:(lia)).
  assert (B2 := Z.mod_pos_bound (x mod (2 * p)) k Hk).
  exists (x / (2 * p)), (x mod (2 * p) / k), ((x mod (2 * p)) mod k).
  repeat split; try lia.
  - apply Z.div_pos; lia.
  - apply Z.div_pos; lia.
  - apply Z.div_lt_upper_bound; [lia|]. lia.
  - unfold at_. lia.
Qed.

Lemma lower_at (blk r c : Z) :
  0 <= blk -> 0 <= r < 2 * h -> 0 <= c < k ->
  lower p k (pos blk r c) = (r + 1 <? 2 * h) && Bool.eqb (Z.odd r) (k <? p).
Proof.
  intros Hb Hr Hc. unfold lower.
  assert (H0 := at_nonneg blk r c Hb ltac:(lia) ltac:(lia)).
  destruct (Z.leb_spec 0 (pos blk r c)) as [_|]; [|lia].
  rewrite at_div_block, at_div_k by assumption.
  replace (2 * h * blk + r) with (r + 2 * (h * blk)) by lia.
  rewrite Z.odd_add_mul_2. rewrite at_succ.
  destruct (Z.ltb_spec (r + 1) (2 * h)) as [Hlt|Hge].
  - rewrite at_div_block by (assumption || lia). now rewrite Z.eqb_refl.
  - replace (r + 1) with (2 * h) by lia. rewrite at_wrap.
    rewrite at_div_block by (assumption || lia).
    destruct (Z.eqb_spec blk (blk + 1)); [lia|reflexivity].
Qed.

Lemma lower_at_pred_0 (blk c : Z) :
  0 <= blk -> 0 <= c < k -> lower p k (pos blk 0 c - k) = false.
Proof.
  intros Hb Hc.
  destruct (Z.eq_dec blk 0) as [->|Hne].
  - unfold lower. replace (pos 0 0 c - k) with (c - k) by (unfold at_; lia).
    destruct (Z.leb_spec 0 (c - k)); [lia|reflexivity].
  - replace (pos blk 0 c - k) with (pos (blk - 1) (2 * h - 1) c)
      by (unfold at_; lia).
    rewrite lower_at by lia.
    destruct (Z.ltb_spec (2 * h - 1 + 1) (2 * h)); [lia|reflexivity].
Qed.

End Coords.

(** ** Zero counts of the columns *)

Lemma u_bounds (z c k h : Z) :
  0 < k -> 0 <= c < k -> 0 <= z <= k * h -> 0 <= u z c k <= h.
Proof.
  intros Hk Hc Hz. unfold u. split.
  - apply Z.div_pos; lia.
  - assert (H : (z + k - 1 - c) / k < h + 1); [|lia].
    apply Z.div_lt_upper_bound; [lia|]. lia.
Qed.

Lemma u_even_column (z c k : Z) :
  0 < k -> u z c (2 * k) = (u z c k + 1) / 2.
Proof.
  intros Hk. unfold u.
  replace (z + 2 * k - 1 - c) with (z + k - 1 - c + 1 * k) by lia.
  rewrite <- Z.div_add by lia.
  rewrite Z.div_div by lia. now rewrite (Z.mul_comm k 2).
Qed.

Lemma u_odd_column (z c k : Z) :
  0 < k -> u z (c + k) (2 * k) = u z c k / 2.
Proof.
  intros Hk. unfold u.
  replace (z + 2 * k - 1 - (c + k)) with (z + k - 1 - c) by lia.
  rewrite Z.div_div by lia. now rewrite (Z.mul_comm k 2).
Qed.

Lemma u_one (z : Z) : u z 0 1 = z.
Proof. unfold u. rewrite Z.div_1_r. lia. Qed.

Lemma u_full (z c p : Z) :
  0 <= c < p -> 0 <= z <= p -> u z c p = if c <? z then 1 else 0.
Proof.
  intros Hc Hz. unfold u. destruct (Z.ltb_spec c z).
  - symmetry. apply Z.div_unique with (r := z - 1 - c); lia.
  - symmetry. apply Z.div_unique with (r := z + p - 1 - c); lia.
Qed.

Lemma odd_split (r : Z) : r = 2 * (r / 2) + (if Z.odd r then 1 else 0).
Proof.
  rewrite <- Z.div2_div. rewrite (Z.div2_odd r) at 1.
  now destruct (Z.odd r).
Qed.

Ltac leb_cases :=
  repeat match goal with
         | |- context [?a <=? ?b] => destruct (Z.leb_spec a b)
         | |- context [?a <? ?b] => destruct (Z.ltb_spec a b)
         | |- context [?a =? ?b] => destruct (Z.eqb_spec a b)
         end.

(** ** One layer of a merge, on the zero-one view of one block *)

Section Transition.

Variables (k h' : Z) (f : Z -> bool) (blk za zb : Z).
Hypothesis Hk : 0 < k.
Hypothesis Hh : 0 < h'.
Hypothesis Hblk : 0 <= blk.
Hypothesis Hst : block_state (2 * k) h' f blk za zb.

Lemma at_refine (r c : Z) :
  at_ k (2 * h') blk r c
  = at_ (2 * k) h' blk (r / 2) (c + k * (if Z.odd r then 1 else 0)).
Proof.
  unfold at_. rewrite (odd_split r) at 1. destruct (Z.odd r); ring.
Qed.

Lemma f_at (r c : Z) :
  0 <= r < 4 * h' -> 0 <= c < k ->
  f (at_ k (2 * h') blk r c)
  = ((if Z.odd r
      then u za c k / 2 + u zb c k / 2
      else (u za c k + 1) / 2 + (u zb c k + 1) / 2) <=? r / 2).
Proof.
  intros Hr Hc. destruct Hst as (_ & _ & Hf).
  rewrite at_refine. assert (Ho := odd_split r).
  destruct (Z.odd r).
  - rewrite Hf by lia. unfold merged.
    replace (c + k * 1) with (c + k) by lia.
    now rewrite !u_odd_column by assumption.
  - rewrite Hf by lia. unfold merged.
    replace (c + k * 0) with c by lia.
    now rewrite !u_even_column by assumption.
Qed.

Lemma layer_step :
  block_state k (2 * h') (Lf (k * (2 * h')) k f) blk za zb.
Proof.
  destruct Hst as (Hza & Hzb & _).
  split; [lia|]. split; [lia|]. intros r c Hr Hc.
  assert (Ha := u_bounds za c k (2 * h') Hk Hc ltac:(lia)).
  assert (Hb := u_bounds zb c k (2 * h') Hk Hc ltac:(lia)).
  assert (Hkp : (k <? k * (2 * h')) = true) by (apply Z.ltb_lt; nia).
  unfold Lf, merged.
  rewrite lower_at by (assumption || lia). rewrite Hkp.
  assert (Ho := odd_split r).
  destruct (Z.odd r) eqn:Hodd.
  - (* an odd row: the lower end of a comparator, unless it is the last row *)
    destruct (Z.ltb_spec (r + 1) (2 * (2 * h'))) as [Hlt|Hge];
      cbn [andb Bool.eqb].
    + rewrite at_succ, !f_at by lia.
      rewrite Hodd. replace (Z.odd (r + 1)) with false
        by (rewrite Z.odd_add, Hodd; reflexivity).
      leb_cases; simpl; try reflexivity; Z.div_mod_to_equations; lia.
    + replace (at_ k (2 * h') blk r c - k) with (at_ k (2 * h') blk (r - 1) c)
        by (unfold at_; lia).
      rewrite lower_at by (assumption || lia). rewrite Hkp.
      replace (Z.odd (r - 1)) with false
        by (rewrite Z.odd_sub, Hodd; reflexivity).
      rewrite andb_false_r. rewrite f_at by lia. rewrite Hodd.
      leb_cases; simpl; try reflexivity; Z.div_mod_to_equations; lia.
  - (* an even row: the upper end of a comparator, unless it is row 0 *)
    rewrite andb_false_r.
    destruct (Z.eq_dec r 0) as [->|Hr0].
    + rewrite lower_at_pred_0 by (assumption || lia).
      rewrite f_at by lia. cbn [Z.odd].
      leb_cases; simpl; try reflexivity; Z.div_mod_to_equations; lia.
    + replace (at_ k (2 * h') blk r c - k) with (at_ k (2 * h') blk (r - 1) c)
        by (unfold at_; lia).
      rewrite lower_at by (assumption || lia). rewrite Hkp.
      replace (Z.odd (r - 1)) with true
        by (rewrite Z.odd_sub, Hodd; reflexivity).
      replace (r - 1 + 1 <? 2 * (2 * h')) with true
        by (symmetry; apply Z.ltb_lt; lia).
      cbn [andb Bool.eqb]. rewrite !f_at by lia. rewrite Hodd.
      replace (Z.odd (r - 1)) with true
        by (rewrite Z.odd_sub, Hodd; reflexivity).
      leb_cases; simpl; try reflexivity; Z.div_mod_to_equations; lia.
Qed.

End Transition.

Section FirstLayer.

Variables (p : Z) (f : Z -> bool) (blk za zb : Z).
Hypothesis Hp : 0 < p.
Hypothesis Hblk : 0 <= blk.
Hypothesis Hpre : block_pre p f blk za zb.

Lemma layer_first : block_state p 1 (Lf p p f) blk za zb.
Proof.
  destruct Hpre as (Hza & Hzb & Hf).
  split; [lia|]. split; [lia|]. intros r c Hr Hc.
  assert (Hl : forall x, lower p p x = lower (p * 1) p x)
    by (intros x; now rewrite Z.mul_1_r).
  assert (Hpp : (p <? p * 1) = false) by (apply Z.ltb_ge; lia).
  unfold Lf, merged. rewrite !Hl.
  rewrite !u_full by lia.
  destruct (Z.eq_dec r 0) as [->|Hr0].
  - rewrite lower_at by lia. rewrite Hpp. cbn [Z.odd andb Bool.eqb].
    replace (0 + 1 <? 2 * 1) with true by reflexivity.
    rewrite at_succ. rewrite !Hf by lia.
    cbn [Z.eqb Z.add].
    destruct (Z.ltb_spec c za), (Z.ltb_spec c zb);
      leb_cases; simpl; try reflexivity; lia.
  - assert (r = 1) by lia. subst r.
    rewrite lower_at by lia. rewrite Hpp.
    replace (1 + 1 <? 2 * 1) with false by reflexivity. cbn [andb].
    replace (at_ p 1 blk 1 c - p) with (at_ p 1 blk 0 c) by (unfold at_; lia).
    rewrite lower_at by lia. rewrite Hpp. cbn [Z.odd andb Bool.eqb].
    replace (0 + 1 <? 2 * 1) with true by reflexivity.
    rewrite !Hf by lia.
    cbn [Z.eqb].
    destruct (Z.ltb_spec c za), (Z.ltb_spec c zb);
      leb_cases; simpl; try reflexivity; lia.
Qed.

End FirstLayer.

(** *** Sorted blocks, before and after a phase *)

Lemma block_sorted_pre (p : Z) (f : Z -> bool) (blk : Z) :
  0 < p -> 0 <= blk -> block_sorted p f ->
  exists za zb, block_pre p f blk za zb.
Proof.
  intros Hp Hb Hs.
  destruct (Hs (2 * blk) ltac:(lia)) as (za & Hza & Ha).
  destruct (Hs (2 * blk + 1) ltac:(lia)) as (zb & Hzb & Hb').
  exists za, zb. split; [assumption|]. split; [assumption|].
  intros r c Hr Hc. destruct (Z.eqb_spec r 0) as [->|Hr0].
  - rewrite <- Ha by assumption. f_equal. unfold at_. ring.
  - assert (r = 1) by lia. subst r.
    rewrite <- Hb' by assumption. f_equal. unfold at_. ring.
Qed.

Lemma block_state_sorted (p : Z) (f : Z -> bool) :
  0 < p ->
  (forall blk, 0 <= blk -> exists za zb, block_state 1 p f blk za zb) ->
  block_sorted (2 * p) f.
Proof.
  intros Hp H blk Hb. destruct (H blk Hb) as (za & zb & Hza & Hzb & Hf).
  exists (za + zb). split; [lia|]. intros l Hl.
  specialize (Hf l 0 ltac:(lia) ltac:(lia)).
  unfold merged in Hf. rewrite !u_one in Hf. rewrite <- Hf.
  f_equal. unfold at_. ring.
Qed.

Lemma block_sorted_1 (f : Z -> bool) : block_sorted 1 f.
Proof.
  intros blk Hb. exists (if f blk then 0 else 1).
  split; [destruct (f blk); lia|].
  intros l Hl. assert (l = 0) by lia. subst l.
  replace (1 * blk + 0) with blk by lia.
  destruct (f blk); reflexivity.
Qed.

Lemma block_state_ext (k h : Z) (f g : Z -> bool) (blk za zb : Z) :
  (forall z, g z = f z) ->
  block_state k h f blk za zb -> block_state k h g blk za zb.
Proof.
  intros E (Hza & Hzb & Hf). split; [assumption|]. split; [assumption|].
  intros r c Hr Hc. rewrite E. now apply Hf.
Qed.

Lemma pw_split (a b : nat) : (b <= a)%nat -> pw a = pw b * pw (a - b).
Proof. intros H. rewrite <- pw_add. f_equal. lia. Qed.

Lemma layer_sem (a b : nat) (f : Z -> bool) (blk za zb : Z) :
  (b <= a)%nat -> 0 <= blk ->
  state_before a b f blk za zb ->
  state_after a b (Lf (pw a) (pw b) f) blk za zb.
Proof.
  intros Hba Hblk. unfold state_before, state_after.
  destruct (Nat.eqb_spec b a) as [->|Hne]; intros H.
  - rewrite Nat.sub_diag. change (pw 0) with 1.
    apply layer_first; [apply pw_pos|assumption|assumption].
  - rewrite pw_S in H.
    replace (pw (a - b)) with (2 * pw (a - Datatypes.S b))
      by (rewrite <- pw_S; f_equal; lia).
    replace (pw a) with (pw b * (2 * pw (a - Datatypes.S b))).
    + apply layer_step; [apply pw_pos|apply pw_pos|assumption|assumption].
    + rewrite <- pw_S, <- pw_add. f_equal. lia.
Qed.

(** *** Runs on the zero-one view *)

Lemma runF_app (l1 l2 : list emission) (f : Z -> bool) :
  runF (l1 ++ l2) f = runF l2 (runF l1 f).
Proof. unfold runF. apply fold_left_app. Qed.

Lemma cmpF_ext (x y : Z) (f g : Z -> bool) :
  (forall z, f z = g z) -> forall z, cmpF x y f z = cmpF x y g z.
Proof. intros E z. unfold cmpF. now rewrite !E. Qed.

Lemma runF_ext (l : list emission) :
  forall f g, (forall z, f z = g z) -> forall z, runF l f z = runF l g z.
Proof.
  induction l as [|e l IH]; intros f g E z; simpl; [apply E|].
  apply IH. now apply cmpF_ext.
Qed.

Lemma Lf_true_from (n p k : Z) (f : Z -> bool) :
  0 < k -> true_from n f -> true_from n (Lf p k f).
Proof.
  intros Hk Hf z Hz. unfold Lf.
  rewrite (Hf z Hz), (Hf (z + k)) by lia.
  destruct (lower p k z); [reflexivity|].
  destruct (lower p k (z - k)); [apply orb_true_r|reflexivity].
Qed.

Lemma true_from_ext (n : Z) (f g : Z -> bool) :
  (forall z, g z = f z) -> true_from n f -> true_from n g.
Proof. intros E H z Hz. rewrite E. now apply H. Qed.

(** *** A whole phase, then the whole sweep *)

Section SweepSound.

Variable layer : Z -> Z -> Z -> list emission.
Variable n : Z.
Hypothesis Hok : layer_ok layer n.

Lemma phase_layers (a : nat) (f : Z -> bool) :
  pw a < n -> true_from n f ->
  (forall blk, 0 <= blk -> exists za zb, block_pre (pw a) f blk za zb) ->
  forall i, (i <= a)%nat ->
    let g := runF (flat_map (fun i => layer n (pw a) (pw (a - i)))
                            (seq 0 (Datatypes.S i))) f in
    true_from n g /\
    forall blk za zb, 0 <= blk -> block_pre (pw a) f blk za zb ->
                      state_after a (a - i) g blk za zb.
Proof.
  intros Ha Hf Hall i.
  induction i as [|i IH]; intros Hi g.
  - subst g. cbn [seq flat_map]. rewrite app_nil_r, Nat.sub_0_r.
    assert (Hpre : forall blk, 0 <= blk ->
                               exists za zb, state_before a a f blk za zb).
    { intros blk Hb. destruct (Hall blk Hb) as (za & zb & H).
      exists za, zb. unfold state_before. now rewrite Nat.eqb_refl. }
    assert (E := Hok a a f (le_n a) Ha Hf Hpre).
    split.
    + apply true_from_ext with (f := Lf (pw a) (pw a) f); [exact E|].
      apply Lf_true_from; [apply pw_pos|assumption].
    + intros blk za zb Hb Hp. unfold state_after.
      apply block_state_ext with (f := Lf (pw a) (pw a) f); [exact E|].
      apply (layer_sem a a f blk za zb (le_n a) Hb).
      unfold state_before. now rewrite Nat.eqb_refl.
  - destruct (IH ltac:(lia)) as (Ht & Hst). clear IH.
    subst g. rewrite seq_S, flat_map_app, runF_app. cbn [flat_map].
    rewrite app_nil_r. cbn [Nat.add].
    set (g0 := runF (flat_map (fun i0 => layer n (pw a) (pw (a - i0)))
                              (seq 0 (Datatypes.S i))) f) in *.
    assert (Hpre : forall blk, 0 <= blk ->
              exists za zb, state_before a (a - Datatypes.S i) g0 blk za zb).
    { intros blk Hb. destruct (Hall blk Hb) as (za & zb & H).
      exists za, zb. unfold state_before.
      destruct (Nat.eqb_spec (a - Datatypes.S i) a) as [E|_]; [lia|].
      replace (Datatypes.S (a - Datatypes.S i)) with (a - i)%nat by lia.
      apply (Hst blk za zb Hb H). }
    assert (E := Hok a (a - Datatypes.S i)%nat g0 ltac:(lia) Ha Ht Hpre).
    split.
    + apply true_from_ext with (f := Lf (pw a) (pw (a - Datatypes.S i)) g0);
        [exact E|].
      apply Lf_true_from; [apply pw_pos|assumption].
    + intros blk za zb Hb Hp. unfold state_after.
      apply block_state_ext with (f := Lf (pw a) (pw (a - Datatypes.S i)) g0);
        [exact E|].
      apply (layer_sem a (a - Datatypes.S i)%nat g0 blk za zb ltac:(lia) Hb).
      unfold state_before.
      destruct (Nat.eqb_spec (a - Datatypes.S i) a) as [E'|_]; [lia|].
      replace (Datatypes.S (a - Datatypes.S i)) with (a - i)%nat by lia.
      apply (Hst blk za zb Hb Hp).
Qed.

End SweepSound.

Lemma phase_sorted (layer : Z -> Z -> Z -> list emission) (n : Z) (a : nat)
      (f : Z -> bool) :
  layer_ok layer n -> pw a < n -> true_from n f -> block_sorted (pw a) f ->
  let g := runF (flat_map (fun i => layer n (pw a) (pw (a - i)))
                          (seq 0 (Datatypes.S a))) f in
  true_from n g /\ block_sorted (pw (Datatypes.S a)) g.
Proof.
  intros Hok Ha Hf Hs g.
  assert (Hall : forall blk, 0 <= blk ->
                             exists za zb, block_pre (pw a) f blk za zb).
  { intros blk Hb. apply block_sorted_pre; [apply pw_pos|assumption|assumption]. }
  destruct (phase_layers layer n Hok a f Ha Hf Hall a (le_n a)) as (Ht & Hst).
  fold g in Ht, Hst. split; [assumption|].
  rewrite pw_S. apply block_state_sorted; [apply pw_pos|].
  intros blk Hb. destruct (Hall blk Hb) as (za & zb & Hp).
  exists za, zb. specialize (Hst blk za zb Hb Hp).
  unfold state_after in Hst. rewrite Nat.sub_diag, Nat.sub_0_r in Hst.
  exact Hst.
Qed.

Lemma sweep_phases (layer : Z -> Z -> Z -> list emission) (n : Z)
      (f : Z -> bool) :
  layer_ok layer n -> true_from n f ->
  forall T, (T <= phases n)%nat ->
    let g := runF (flat_map (fun a =>
                     flat_map (fun i => layer n (pw a) (pw (a - i)))
                              (seq 0 (Datatypes.S a)))
                            (seq 0 T)) f in
    true_from n g /\ block_sorted (pw T) g.
Proof.
  intros Hok Hf T. induction T as [|T IH]; intros HT g.
  - subst g. simpl. split; [assumption|]. apply block_sorted_1.
  - destruct (IH ltac:(lia)) as (Ht & Hs). clear IH.
    subst g. rewrite seq_S, flat_map_app, runF_app. cbn [flat_map Nat.add].
    rewrite app_nil_r.
    apply phase_sorted; try assumption.
    apply pw_lt_phases. lia.
Qed.

(** The zero-one view of the result of a sound sweep is monotone on the
    array. *)
Theorem sweep_monotone (layer : Z -> Z -> Z -> list emission) (n : Z)
        (f : Z -> bool) (x y : Z) :
  layer_ok layer n -> true_from n f ->
  0 <= x <= y -> y < n ->
  runF (sweep layer n) f x = true -> runF (sweep layer n) f y = true.
Proof.
  intros Hok Hf Hxy Hyn.
  destruct (sweep_phases layer n f Hok Hf (phases n) (le_n _)) as (_ & Hs).
  fold (sweep layer n) in Hs.
  destruct (Hs 0 ltac:(lia)) as (z & Hz & Hg).
  assert (Hn := phases_spec n).
  rewrite Z.mul_0_r in Hg. 
  rewrite <- (Z.add_0_l x), <- (Z.add_0_l y), !Hg by lia.
  intros H. apply Z.leb_le in H. apply Z.leb_le. lia.
Qed.

(** ** Layers of pairwise disjoint comparators *)

Lemma lower_sep (p k x : Z) :
  0 < k -> lower p k x = true -> lower p k (x + k) = false.
Proof.
  intros Hk H. unfold lower in *.
  apply andb_true_iff in H. destruct H as (_ & H). apply eqb_prop in H.
  assert (E : (x + k) / k = x / k + 1).
  { replace (x + k) with (x + 1 * k) by lia. apply Z.div_add. lia. }
  rewrite E, Z.odd_add, H.
  destruct (k <? p); simpl; now rewrite andb_false_r.
Qed.

Lemma lower_sep_pred (p k x : Z) :
  0 < k -> lower p k x = true -> lower p k (x - k) = false.
Proof.
  intros Hk H. destruct (lower p k (x - k)) eqn:E; [|reflexivity].
  apply lower_sep in E; [|assumption].
  replace (x - k + k) with x in E by lia. congruence.
Qed.

Lemma has_lower_true (cs : list emission) (z : Z) :
  has_lower cs z = true <-> exists e, In e cs /\ e_x e = z.
Proof.
  unfold has_lower. rewrite existsb_exists. split.
  - intros (e & He & E). apply Z.eqb_eq in E. eauto.
  - intros (e & He & E). exists e. split; [assumption|now apply Z.eqb_eq].
Qed.

Lemma has_lower_cons (e : emission) (cs : list emission) (z : Z) :
  has_lower (e :: cs) z = (e_x e =? z) || has_lower cs z.
Proof. reflexivity. Qed.

Section Separated.

Variables p k : Z.
Hypothesis Hk : 0 < k.

Lemma runF_separated (cs : list emission) :
  (forall e, In e cs -> e_y e = e_x e + k /\ lower p k (e_x e) = true) ->
  forall f z,
    runF cs f z
    = if has_lower cs z then f z && f (z + k)
      else if has_lower cs (z - k) then f (z - k) || f z
           else f z.
Proof.
  induction cs as [|e cs IH]; intros Hcs f z; [reflexivity|].
  assert (Hcs' : forall e', In e' cs ->
                            e_y e' = e_x e' + k /\ lower p k (e_x e') = true)
    by (intros e' He'; apply Hcs; now right).
  destruct (Hcs e (or_introl eq_refl)) as (Ey & Lx).
  assert (Lxk := lower_sep p k (e_x e) Hk Lx).
  assert (Lxp := lower_sep_pred p k (e_x e) Hk Lx).
  assert (Hlow : forall w, has_lower cs w = true -> lower p k w = true).
  { intros w Hw. apply has_lower_true in Hw. destruct Hw as (e' & He' & <-).
    now apply Hcs'. }
  cbn [runF fold_left]. fold (runF cs (cmpF (e_x e) (e_y e) f)).
  rewrite (IH Hcs'). rewrite Ey. clear IH.
  rewrite !has_lower_cons.
  destruct (has_lower cs z) eqn:Hz.
  - (* [z] is a lower index of the rest *)
    assert (Lz := Hlow z Hz). rewrite orb_true_r. unfold cmpF.
    destruct (Z.eqb_spec z (e_x e)) as [->|N1].
    + rewrite Z.eqb_refl.
      destruct (Z.eqb_spec (e_x e + k) (e_x e)); [lia|].
      destruct (f (e_x e)), (f (e_x e + k)); reflexivity.
    + destruct (Z.eqb_spec z (e_x e + k)) as [->|N2]; [congruence|].
      destruct (Z.eqb_spec (z + k) (e_x e)) as [E|N3].
      { rewrite <- E in Lx. rewrite (lower_sep p k z Hk Lz) in Lx. discriminate. }
      destruct (Z.eqb_spec (z + k) (e_x e + k)); [lia|reflexivity].
  - destruct (has_lower cs (z - k)) eqn:Hzk.
    + (* [z] is an upper index of the rest *)
      assert (Lz := Hlow (z - k) Hzk). unfold cmpF.
      destruct (Z.eqb_spec (e_x e) z) as [E|N1].
      { rewrite <- E in Lz. congruence. }
      rewrite orb_true_r. cbn [orb].
      destruct (Z.eqb_spec z (e_x e)); [lia|].
      destruct (Z.eqb_spec (z - k) (e_x e)) as [E|N2].
      * replace (e_x e + k) with z by lia.
        rewrite Z.eqb_refl. rewrite E.
        destruct (Z.eqb_spec z (e_x e)); [lia|].
        destruct (f (e_x e)), (f z); reflexivity.
      * destruct (Z.eqb_spec (z - k) (e_x e + k)) as [E|N3].
        { replace (e_x e + k) with (z - k) in Lxk by lia. congruence. }
        destruct (Z.eqb_spec z (e_x e + k)); [lia|reflexivity].
    + (* the rest does not touch [z] *)
      rewrite !orb_false_r. unfold cmpF.
      destruct (Z.eqb_spec z (e_x e)) as [->|N1].
      * rewrite Z.eqb_refl. reflexivity.
      * destruct (Z.eqb_spec (e_x e) z); [lia|].
        destruct (Z.eqb_spec z (e_x e + k)) as [->|N2].
        -- replace (e_x e + k - k) with (e_x e) by lia.
           now rewrite Z.eqb_refl.
        -- destruct (Z.eqb_spec (e_x e) (z - k)); [lia|reflexivity].
Qed.

End Separated.

(** An exact layer enumeration is sound. *)
Theorem layer_exact_ok (layer : Z -> Z -> Z -> list emission) (n : Z) :
  layer_exact layer n -> layer_ok layer n.
Proof.
  intros Hex a b f Hba Ha Hf _ z.
  destruct (Hex a b Hba Ha) as (Hin & Hall).
  assert (Hk := pw_pos b).
  rewrite (runF_separated (pw a) (pw b) Hk).
  2:{ intros e He. destruct (Hin e He) as (H1 & H2 & _). now split. }
  unfold Lf.
  destruct (lower (pw a) (pw b) z) eqn:Lz.
  - destruct (has_lower (layer n (pw a) (pw b)) z) eqn:Hz; [reflexivity|].
    assert (Hzn : n <= z + pw b).
    { destruct (Z.lt_ge_cases (z + pw b) n) as [H|H]; [|lia].
      destruct (Hall z Lz H) as (e & He & E).
      assert (has_lower (layer n (pw a) (pw b)) z = true)
        by (apply has_lower_true; eauto).
      congruence. }
    rewrite (Hf (z + pw b) Hzn), andb_true_r.
    destruct (has_lower (layer n (pw a) (pw b)) (z - pw b)) eqn:Hzk;
      [|reflexivity].
    apply has_lower_true in Hzk. destruct Hzk as (e & He & E).
    destruct (Hin e He) as (_ & L & _). rewrite E in L.
    rewrite (lower_sep_pred (pw a) (pw b) z Hk Lz) in L. discriminate.
  - destruct (has_lower (layer n (pw a) (pw b)) z) eqn:Hz.
    { apply has_lower_true in Hz. destruct Hz as (e & He & E).
      destruct (Hin e He) as (_ & L & _). congruence. }
    destruct (lower (pw a) (pw b) (z - pw b)) eqn:Lzk.
    + destruct (has_lower (layer n (pw a) (pw b)) (z - pw b)) eqn:Hzk;
        [reflexivity|].
      assert (Hzn : n <= z).
      { destruct (Z.lt_ge_cases z n) as [H|H]; [|lia].
        destruct (Hall (z - pw b) Lzk ltac:(lia)) as (e & He & E).
        assert (has_lower (layer n (pw a) (pw b)) (z - pw b) = true)
          by (apply has_lower_true; eauto).
        congruence. }
      rewrite (Hf z Hzn). now rewrite orb_true_r.
    + destruct (has_lower (layer n (pw a) (pw b)) (z - pw b)) eqn:Hzk;
        [|reflexivity].
      apply has_lower_true in Hzk. destruct Hzk as (e & He & E).
      destruct (Hin e He) as (_ & L & _). congruence.
Qed.

(** ** Modulo, masks and divisions on powers of two *)

Lemma pw_lt_mono (a b : nat) : (b < a)%nat -> pw b < pw a.
Proof. intros H. unfold pw. apply Z.pow_lt_mono_r; lia. Qed.

Lemma ltb_pw (a b : nat) : (b <= a)%nat -> (pw b <? pw a) = (b <? a)%nat.
Proof.
  intros H. destruct (Nat.ltb_spec b a) as [Hlt|Hge].
  - apply Z.ltb_lt. now apply pw_lt_mono.
  - replace b with a by lia. apply Z.ltb_irrefl.
Qed.

Lemma rem_pw (a b : nat) :
  (b <= a)%nat -> Z.rem (pw b) (pw a) = if pw b <? pw a then pw b else 0.
Proof.
  intros H. rewrite ltb_pw by assumption.
  assert (Hb := pw_pos b).
  destruct (Nat.ltb_spec b a) as [Hlt|Hge].
  - apply Z.rem_small. apply pw_lt_mono in Hlt. lia.
  - replace b with a by lia. apply Z.rem_same. assert (Ha := pw_pos a). lia.
Qed.

Lemma land_pw (a b : nat) :
  Z.land (pw b) (pw a - 1) = Z.rem (pw b) (pw a).
Proof.
  assert (Ha := pw_pos a). assert (Hb := pw_pos b).
  rewrite Z.rem_mod_nonneg by lia.
  replace (pw a - 1) with (Z.ones (Z.of_nat a))
    by (rewrite Z.ones_equiv; unfold pw; lia).
  apply Z.land_ones. lia.
Qed.

Lemma lor_ones_div (x y m : Z) :
  0 <= m ->
  Z.lor x (2 ^ m - 1) = Z.lor y (2 ^ m - 1) <-> x / 2 ^ m = y / 2 ^ m.
Proof.
  intros Hm. rewrite Z.sub_1_r, <- Z.ones_equiv. split; intros H.
  - apply Z.bits_inj'. intros i Hi.
    rewrite !Z.div_pow2_bits by assumption.
    assert (E : Z.testbit (Z.lor x (Z.ones m)) (i + m)
                = Z.testbit (Z.lor y (Z.ones m)) (i + m)) by now rewrite H.
    rewrite !Z.lor_spec, Z.ones_spec_high, !orb_false_r in E by lia.
    exact E.
  - apply Z.bits_inj'. intros i Hi. rewrite !Z.lor_spec.
    destruct (Z.lt_ge_cases i m) as [Hlt|Hge].
    + rewrite Z.ones_spec_low by lia. now rewrite !orb_true_r.
    + replace i with (i - m + m) by lia.
      rewrite <- !Z.div_pow2_bits by lia. now rewrite H.
Qed.

Lemma lor_test_pw (a : nat) (x y : Z) :
  Z.lor x (2 * pw a - 1) = Z.lor y (2 * pw a - 1)
  <-> x / (2 * pw a) = y / (2 * pw a).
Proof.
  rewrite <- pw_S. unfold pw. apply lor_ones_div. lia.
Qed.

Lemma div_mul_offset (k m q i : Z) :
  0 < k -> 0 < m -> 0 <= i < k -> (k * q + i) / (k * m) = q / m.
Proof.
  intros Hk Hm Hi. rewrite <- Z.div_div by lia. f_equal.
  symmetry. apply Z.div_unique with (r := i); [left|]; lia.
Qed.

(** ** The layers of listings 2, 3 and 4 are exact *)

Section Regime.

Variables a b : nat.
Hypothesis Hba : (b <= a)%nat.

Local Abbreviation p := (pw a).
Local Abbreviation k := (pw b).
Local Abbreviation h := (pw (a - b)).

Lemma regime_rem : Z.rem k p = k * (if k <? p then 1 else 0).
Proof. rewrite rem_pw by assumption. destruct (k <? p); lia. Qed.

Lemma regime_odd (q : Z) :
  Z.odd ((if k <? p then 1 else 0) + 2 * q) = (k <? p).
Proof. rewrite Z.odd_add_mul_2. now destruct (k <? p). Qed.

Lemma lower_of_loop (t i : Z) :
  0 <= t -> 0 <= i < k ->
  let j := Z.rem k p + 2 * k * t in
  (j + i) / (2 * p) = (j + i + k) / (2 * p) ->
  lower p k (j + i) = true.
Proof.
  intros Ht Hi j E. assert (Hk := pw_pos b).
  assert (Hj : j = k * ((if k <? p then 1 else 0) + 2 * t))
    by (unfold j; rewrite regime_rem; ring).
  assert (H0 : 0 <= j) by (rewrite Hj; destruct (k <? p); nia).
  unfold lower. rewrite E, Z.eqb_refl.
  replace (0 <=? j + i) with true by (symmetry; apply Z.leb_le; lia).
  replace ((j + i) / k) with ((if k <? p then 1 else 0) + 2 * t).
  - rewrite regime_odd. now destruct (k <? p).
  - apply Z.div_unique with (r := i); [left; lia|lia].
Qed.

Lemma loop_of_lower (x : Z) :
  lower p k x = true ->
  exists t i, 0 <= t /\ 0 <= i < k /\ x = Z.rem k p + 2 * k * t + i /\
              x / (2 * p) = (x + k) / (2 * p).
Proof.
  intros H. assert (Hk := pw_pos b). unfold lower in H.
  apply andb_true_iff in H. destruct H as (H & Hodd).
  apply andb_true_iff in H. destruct H as (H0 & Hblk).
  apply Z.leb_le in H0. apply Z.eqb_eq in Hblk. apply eqb_prop in Hodd.
  assert (Hq := Z.div_mod x k ltac:(lia)).
  assert (Hr := Z.mod_pos_bound x k Hk).
  assert (Hq0 : 0 <= x / k) by (apply Z.div_pos; lia).
  assert (Ho := odd_split (x / k)). rewrite Hodd in Ho.
  exists (x / k / 2), (x mod k). rewrite regime_rem.
  repeat split; try lia; try assumption.
  apply Z.div_pos; lia.
Qed.

Lemma block_test_shift (t i : Z) :
  0 <= i < k ->
  let j := Z.rem k p + 2 * k * t in
  (j + i) / (2 * p) = (j + i + k) / (2 * p) <-> j / (2 * p) = (j + k) / (2 * p).
Proof.
  intros Hi j. assert (Hk := pw_pos b). assert (Hh := pw_pos (a - b)).
  set (q := (if k <? p then 1 else 0) + 2 * t).
  assert (Hj : j = k * q) by (unfold j, q; rewrite regime_rem; ring).
  assert (Hp : 2 * p = k * (2 * h)) by (rewrite (pw_split a b Hba); ring).
  rewrite Hp, Hj.
  replace (k * q + i + k) with (k * (q + 1) + i) by ring.
  replace (k * q + k) with (k * (q + 1) + 0) by ring.
  replace (k * q / (k * (2 * h))) with ((k * q + 0) / (k * (2 * h)))
    by (now rewrite Z.add_0_r).
  rewrite !div_mul_offset by lia. reflexivity.
Qed.

End Regime.

Theorem layer3_exact (n : Z) : layer_exact layer3 n.
Proof.
  intros a' b' Hba Ha. assert (Hk := pw_pos b').
  assert (Hp := pw_pos a'). split.
  - intros e He. apply in_layer3 in He; [|assumption].
    destruct He as (t & i & Ht & Hi & Hn & E & ->). cbn [e_x e_y].
    assert (Hr := rem_pw_nonneg a' (a' - b')).
    replace (a' - (a' - b'))%nat with b' in Hr by lia.
    rewrite !Z.quot_div_nonneg in E by nia.
    repeat split; [|assumption].
    now apply lower_of_loop.
  - intros x Hx Hxn.
    destruct (loop_of_lower a' b' Hba x Hx) as (t & i & Ht & Hi & -> & E).
    exists (Emit (pw a') (pw b') (Z.rem (pw b') (pw a') + 2 * pw b' * t)
                 (Z.rem (pw b') (pw a') + 2 * pw b' * t + i)
                 (Z.rem (pw b') (pw a') + 2 * pw b' * t + i + pw b')).
    split; [|reflexivity].
    apply in_layer3; [assumption|]. exists t, i. cbv zeta.
    assert (Hr := rem_pw_nonneg a' (a' - b')).
    replace (a' - (a' - b'))%nat with b' in Hr by lia.
    rewrite !Z.quot_div_nonneg by nia.
    repeat split; try assumption; lia.
Qed.

Theorem layer4_exact (n : Z) : layer_exact layer4 n.
Proof.
  intros a' b' Hba Ha. assert (Hk := pw_pos b').
  assert (Hp := pw_pos a'). split.
  - intros e He. apply in_layer4 in He; [|assumption].
    destruct He as (t & i & Ht & Hi & Hn & E & ->). cbn [e_x e_y].
    rewrite land_pw in *.
    apply lor_test_pw in E. apply (block_test_shift a' b' Hba t i Hi) in E.
    repeat split; [|assumption].
    now apply lower_of_loop.
  - intros x Hx Hxn.
    destruct (loop_of_lower a' b' Hba x Hx) as (t & i & Ht & Hi & -> & E).
    exists (Emit (pw a') (pw b') (Z.rem (pw b') (pw a') + 2 * pw b' * t)
                 (Z.rem (pw b') (pw a') + 2 * pw b' * t + i)
                 (Z.rem (pw b') (pw a') + 2 * pw b' * t + i + pw b')).
    split; [|reflexivity].
    apply in_layer4; [assumption|]. exists t, i. cbv zeta.
    rewrite land_pw.
    repeat split; try assumption; try lia.
    apply lor_test_pw. now apply (block_test_shift a' b' Hba t i Hi).
Qed.

Lemma lower_nonneg (p k x : Z) : lower p k x = true -> 0 <= x.
Proof.
  unfold lower. intros H.
  apply andb_true_iff in H. destruct H as (H & _).
  apply andb_true_iff in H. destruct H as (H & _). now apply Z.leb_le.
Qed.

Lemma lower_pw_at (a b : nat) (blk r c : Z) :
  (b <= a)%nat ->
  0 <= blk -> 0 <= r < 2 * pw (a - b) -> 0 <= c < pw b ->
  lower (pw a) (pw b) (at_ (pw b) (pw (a - b)) blk r c)
  = (r + 1 <? 2 * pw (a - b)) && Bool.eqb (Z.odd r) (pw b <? pw a).
Proof.
  intros Hba Hblk Hr Hc. rewrite (pw_split a b Hba) at 1 2.
  apply lower_at; try assumption; apply pw_pos.
Qed.

Theorem layer2_exact (n : Z) : layer_exact layer2 n.
Proof.
  intros a b Hba Ha. assert (Hk := pw_pos b).
  assert (Hp := pw_pos a). assert (Hh := pw_pos (a - b)).
  assert (Ep := pw_split a b Hba). split.
  - intros e He. apply in_layer2 in He; [|assumption|assumption].
    destruct He as (t & i & u & Ht & Hi & Hu & Hj & Hm & ->).
    cbn [e_x e_y]. rewrite regime_rem in * by assumption.
    repeat split; [|assumption].
    set (q := (if pw b <? pw a then 1 else 0) + 2 * t).
    replace (i + (pw b * (if pw b <? pw a then 1 else 0) + 2 * pw b * t)
             + 2 * pw a * u)
      with (at_ (pw b) (pw (a - b)) u q i)
      by (unfold at_, q; rewrite Ep; ring).
    assert (Hq : 0 <= q < 2 * pw (a - b)).
    { unfold q in *. destruct (pw b <? pw a); nia. }
    rewrite lower_pw_at by assumption.
    unfold q at 2. rewrite regime_odd.
    replace (q + 1 <? 2 * pw (a - b)) with true.
    + now destruct (pw b <? pw a).
    + symmetry. apply Z.ltb_lt. unfold q in *. destruct (pw b <? pw a); nia.
  - intros x Hx Hxn. assert (H0 := lower_nonneg _ _ _ Hx).
    destruct (coords_exist (pw b) (pw (a - b)) Hk Hh x H0)
      as (blk & r & c & Hblk & Hr & Hc & ->).
    rewrite lower_pw_at in Hx by assumption.
    apply andb_true_iff in Hx. destruct Hx as (Hlt & Hodd).
    apply Z.ltb_lt in Hlt. apply eqb_prop in Hodd.
    assert (Ho := odd_split r). rewrite Hodd in Ho.
    assert (Hr2 : 0 <= r / 2) by (apply Z.div_pos; lia).
    exists (Emit (pw a) (pw b) (Z.rem (pw b) (pw a) + 2 * pw b * (r / 2))
                 (at_ (pw b) (pw (a - b)) blk r c)
                 (at_ (pw b) (pw (a - b)) blk r c + pw b)).
    split; [|reflexivity].
    apply in_layer2; [assumption|assumption|].
    exists (r / 2), c, blk. cbv zeta. rewrite regime_rem by assumption.
    assert (Ej : pw b * (if pw b <? pw a then 1 else 0) + 2 * pw b * (r / 2)
                 = pw b * r) by (rewrite Ho at 2; ring).
    rewrite Ej.
    assert (Ex : c + pw b * r + 2 * pw a * blk
                 = at_ (pw b) (pw (a - b)) blk r c)
      by (unfold at_; rewrite Ep; ring).
    rewrite Ex. repeat split; try assumption; try lia.
    rewrite Ep. nia.
Qed.

(** ** The layers of listing 1

    Listing 1 lets [i] run over the whole remaining span, so that a group
    also visits pairs [(x, x + k)] that are not comparators of the layer
    and revisits comparators of earlier groups.  On the states that the
    sweep can reach, all those additional compare-exchanges find their
    pair already in order. *)

Lemma runF_noop (cs : list emission) (g : Z -> bool) :
  (forall e, In e cs -> g (e_x e) = true -> g (e_y e) = true) ->
  forall z, runF cs g z = g z.
Proof.
  induction cs as [|e cs IH]; intros H z; [reflexivity|].
  cbn [runF fold_left]. fold (runF cs (cmpF (e_x e) (e_y e) g)).
  assert (E : forall w, cmpF (e_x e) (e_y e) g w = g w).
  { intros w. unfold cmpF. specialize (H e (or_introl eq_refl)).
    destruct (Z.eqb_spec w (e_x e)) as [->|_].
    - destruct (g (e_x e)); [now rewrite H|reflexivity].
    - destruct (Z.eqb_spec w (e_y e)) as [->|_]; [|reflexivity].
      destruct (g (e_x e)); [now rewrite H|reflexivity]. }
  rewrite (runF_ext cs _ g E). apply IH. intros e' He'. apply H. now right.
Qed.

Section SameBlock.

Variables k h : Z.
Hypothesis Hk : 0 < k.
Hypothesis Hh : 0 < h.

Lemma same_block_at (blk r c : Z) :
  0 <= blk -> 0 <= r < 2 * h -> 0 <= c < k ->
  at_ k h blk r c / (2 * (k * h)) = (at_ k h blk r c + k) / (2 * (k * h))
  <-> r + 1 < 2 * h.
Proof.
  intros Hb Hr Hc. rewrite at_succ, at_div_block by assumption.
  destruct (Z.lt_ge_cases (r + 1) (2 * h)) as [Hlt|Hge].
  - rewrite at_div_block by (assumption || lia). tauto.
  - replace (r + 1) with (2 * h) by lia.
    rewrite at_wrap, at_div_block by (assumption || lia). lia.
Qed.

End SameBlock.

Section TransitionExtra.

Variables (k h' : Z) (f : Z -> bool) (blk za zb : Z).
Hypothesis Hk : 0 < k.
Hypothesis Hh : 0 < h'.
Hypothesis Hblk : 0 <= blk.
Hypothesis Hst : block_state (2 * k) h' f blk za zb.

(** An even row after the layer is below the odd row that follows it
    before the layer. *)
Lemma extra_noop (r c : Z) :
  0 <= r -> r + 1 < 4 * h' -> 0 <= c < k -> Z.odd r = false ->
  Lf (k * (2 * h')) k f (at_ k (2 * h') blk r c) = true ->
  f (at_ k (2 * h') blk (r + 1) c) = true.
Proof.
  intros Hr Hr1 Hc Hodd.
  destruct (layer_step k h' f blk za zb Hk Hh Hblk Hst) as (Hza & Hzb & Hg).
  rewrite Hg by lia. rewrite (f_at k h' f blk za zb Hk Hst) by lia.
  rewrite Z.odd_add, Hodd. cbn [Z.odd xorb]. unfold merged.
  intros H. apply Z.leb_le in H. apply Z.leb_le.
  assert (Ho := odd_split r). rewrite Hodd in Ho.
  assert (Ha := u_bounds za c k (2 * h') Hk Hc ltac:(lia)).
  assert (Hb := u_bounds zb c k (2 * h') Hk Hc ltac:(lia)).
  Z.div_mod_to_equations. lia.
Qed.

End TransitionExtra.

Section Listing1Layer.

Variables (a b : nat) (n : Z) (f : Z -> bool).
Hypothesis Hba : (b <= a)%nat.
Hypothesis Hf : true_from n f.
Hypothesis Hpre :
  forall blk, 0 <= blk -> exists za zb, state_before a b f blk za zb.

Local Abbreviation p := (pw a).
Local Abbreviation k := (pw b).
Local Abbreviation h := (pw (a - b)).
Local Abbreviation g := (Lf (pw a) (pw b) f).

Lemma same_block_pw (blk r c : Z) :
  0 <= blk -> 0 <= r < 2 * h -> 0 <= c < k ->
  at_ k h blk r c / (2 * p) = (at_ k h blk r c + k) / (2 * p)
  <-> r + 1 < 2 * h.
Proof.
  intros Hb Hr Hc. rewrite (pw_split a b Hba).
  apply same_block_at; try assumption; apply pw_pos.
Qed.

(** After the layer, every pair inside a block is in order. *)
Lemma post_in_order (x : Z) :
  0 <= x -> x / (2 * p) = (x + k) / (2 * p) ->
  g x = true -> g (x + k) = true.
Proof.
  intros Hx Hsame.
  destruct (coords_exist k h (pw_pos b) (pw_pos (a - b)) x Hx)
    as (blk & r & c & Hblk & Hr & Hc & ->).
  apply same_block_pw in Hsame; try assumption.
  destruct (Hpre blk Hblk) as (za & zb & Hst).
  apply (layer_sem a b f blk za zb Hba Hblk) in Hst.
  destruct Hst as (_ & _ & Hg).
  rewrite at_succ, !Hg by lia. unfold merged.
  intros H. apply Z.leb_le in H. apply Z.leb_le. lia.
Qed.

(** Before the layer, a pair inside a block that is not a comparator of
    the layer has its upper element above the result at its lower index. *)
Lemma pre_in_order (x : Z) :
  0 <= x -> x / (2 * p) = (x + k) / (2 * p) ->
  lower p k x = false ->
  g x = true -> f (x + k) = true.
Proof.
  intros Hx Hsame Hlow.
  destruct (coords_exist k h (pw_pos b) (pw_pos (a - b)) x Hx)
    as (blk & r & c & Hblk & Hr & Hc & ->).
  apply same_block_pw in Hsame; try assumption.
  rewrite lower_pw_at in Hlow by assumption.
  replace (r + 1 <? 2 * h) with true in Hlow
    by (symmetry; apply Z.ltb_lt; lia).
  cbn [andb] in Hlow. rewrite ltb_pw in Hlow by assumption.
  destruct (Nat.ltb_spec b a) as [Hlt|Hge].
  - (* [k < p]: an even row *)
    assert (Hodd : Z.odd r = false) by (destruct (Z.odd r); [discriminate|reflexivity]).
    destruct (Hpre blk Hblk) as (za & zb & Hst).
    unfold state_before in Hst.
    destruct (Nat.eqb_spec b a) as [E|_]; [lia|].
    rewrite pw_S in Hst.
    assert (Eh : h = 2 * pw (a - Datatypes.S b))
      by (rewrite <- pw_S; f_equal; lia).
    assert (Ep : p = k * (2 * pw (a - Datatypes.S b)))
      by (rewrite <- Eh; now apply pw_split).
    rewrite at_succ. rewrite Ep, Eh in *.
    apply (extra_noop k (pw (a - Datatypes.S b)) f blk za zb
                      (pw_pos b) (pw_pos _) Hblk Hst); try lia; assumption.
  - (* [k = p]: every pair inside a block is a comparator *)
    replace (a - b)%nat with O in * by lia. change (pw 0) with 1 in *.
    assert (r = 0) by lia. subst r. discriminate.
Qed.

Lemma lower_ge_start (x : Z) : lower p k x = true -> Z.rem k p <= x.
Proof.
  intros H. destruct (loop_of_lower a b Hba x H) as (t & i & Ht & Hi & E & _).
  assert (Hk := pw_pos b). nia.
Qed.

Lemma layer_id_low (z : Z) :
  z < Z.rem k p + k -> lower p k z = false -> g z = f z.
Proof.
  intros Hz Hlow. unfold Lf. rewrite Hlow.
  destruct (lower p k (z - k)) eqn:E; [|reflexivity].
  apply lower_ge_start in E. lia.
Qed.

Lemma layer_id_high (z : Z) :
  n <= z + k -> (n <= z \/ lower p k z = true) -> g z = f z.
Proof.
  intros Hz Hor. unfold Lf. assert (Hk := pw_pos b).
  destruct (lower p k z) eqn:E.
  - rewrite (Hf (z + k)) by lia. apply andb_true_r.
  - destruct Hor as [Hn|]; [|discriminate]. rewrite (Hf z Hn).
    destruct (lower p k (z - k)); [apply orb_true_r|reflexivity].
Qed.

Lemma lower_same_block (x : Z) :
  lower p k x = true -> x / (2 * p) = (x + k) / (2 * p).
Proof.
  unfold lower. intros H.
  apply andb_true_iff in H. destruct H as (H & _).
  apply andb_true_iff in H. destruct H as (_ & H). now apply Z.eqb_eq.
Qed.

Lemma quot_test (x : Z) :
  0 <= x ->
  (Z.quot x (p + p) =? Z.quot (x + k) (p + p))
  = (x / (2 * p) =? (x + k) / (2 * p)).
Proof.
  intros Hx. assert (Hp := pw_pos a). assert (Hk := pw_pos b).
  rewrite !Z.quot_div_nonneg by lia. now replace (p + p) with (2 * p) by lia.
Qed.

(** The first group of the layer: after [c] iterations the positions
    below the current one hold the result of the layer, and so do the
    upper ends of the comparators already performed. *)
Lemma pass1_inv (c : nat) :
  Z.of_nat c <= Z.max 0 (n - Z.rem k p - k) ->
  forall z,
    runF (pass1 p k (Z.rem k p) c) f z
    = if (z <? Z.rem k p + Z.of_nat c)
         || ((z <? Z.rem k p + Z.of_nat c + k) && negb (lower p k z))
      then g z else f z.
Proof.
  assert (Hk := pw_pos b). assert (Hp := pw_pos a).
  assert (Hj0 := rem_pw_nonneg a (a - b)).
  replace (a - (a - b))%nat with b in Hj0 by lia.
  induction c as [|c IH]; intros Hc z.
  - cbn [pass1 seq map flat_map runF fold_left].
    destruct ((z <? Z.rem k p + Z.of_nat 0)
              || ((z <? Z.rem k p + Z.of_nat 0 + k) && negb (lower p k z)))
             eqn:E; [|reflexivity].
    symmetry. apply orb_true_iff in E. destruct E as [E|E].
    + apply Z.ltb_lt in E. apply layer_id_low; [lia|].
      destruct (lower p k z) eqn:L; [|reflexivity].
      apply lower_ge_start in L. lia.
    + apply andb_true_iff in E. destruct E as (E & L).
      apply Z.ltb_lt in E. apply negb_true_iff in L.
      apply layer_id_low; [lia|assumption].
  - specialize (IH ltac:(lia)).
    unfold pass1. rewrite seq_S, map_app, flat_map_app, runF_app.
    fold (pass1 p k (Z.rem k p) c). cbn [Nat.add map flat_map].
    rewrite app_nil_r.
    set (x := Z.rem k p + (0 + 1 * Z.of_nat c)).
    assert (Hx : 0 <= x) by (unfold x; lia).
    assert (Hxn : x + k < n) by (unfold x; lia).
    assert (Ex : Z.rem k p + Z.of_nat c = x) by (unfold x; lia).
    assert (Ex' : Z.rem k p + Z.of_nat (Datatypes.S c) = x + 1)
      by (unfold x; lia).
    rewrite Ex'. rewrite Ex in IH.
    assert (IHx : runF (pass1 p k (Z.rem k p) c) f x
                  = if lower p k x then f x else g x).
    { rewrite IH. destruct (Z.ltb_spec x x); [lia|].
      destruct (Z.ltb_spec x (x + k)); [|lia].
      now destruct (lower p k x). }
    assert (IHxk : runF (pass1 p k (Z.rem k p) c) f (x + k) = f (x + k)).
    { rewrite IH. destruct (Z.ltb_spec (x + k) x); [lia|].
      destruct (Z.ltb_spec (x + k) (x + k)); [lia|]. reflexivity. }
    assert (Hrest : forall w, w <> x -> w <> x + k ->
              ((w <? x + 1) || ((w <? x + 1 + k) && negb (lower p k w)))
              = ((w <? x) || ((w <? x + k) && negb (lower p k w)))).
    { intros w N1 N2.
      destruct (Z.ltb_spec w (x + 1)), (Z.ltb_spec w x); try lia;
        destruct (Z.ltb_spec w (x + 1 + k)), (Z.ltb_spec w (x + k));
        try lia; reflexivity. }
    assert (Hgx1 : (if (x <? x + 1)
                       || ((x <? x + 1 + k) && negb (lower p k x))
                    then g x else f x) = g x)
      by (destruct (Z.ltb_spec x (x + 1)); [reflexivity|lia]).
    assert (Hgxk : (if (x + k <? x + 1)
                       || ((x + k <? x + 1 + k) && negb (lower p k (x + k)))
                    then g (x + k) else f (x + k))
                   = if lower p k (x + k) then f (x + k) else g (x + k)).
    { destruct (Z.ltb_spec (x + k) (x + 1)); [lia|].
      destruct (Z.ltb_spec (x + k) (x + 1 + k)); [|lia].
      now destruct (lower p k (x + k)). }
    rewrite quot_test by assumption.
    destruct (Z.eqb_spec (x / (2 * p)) ((x + k) / (2 * p))) as [Hsame|Hdiff].
    + (* a pair inside a block: a compare-exchange is performed *)
      cbn [runF fold_left e_x e_y]. unfold cmpF.
      rewrite IHx, IHxk.
      destruct (Z.eqb_spec z x) as [->|N1].
      * rewrite Hgx1. destruct (lower p k x) eqn:L.
        -- unfold Lf. now rewrite L.
        -- assert (H := pre_in_order x Hx Hsame L).
           destruct (g x); [now rewrite H|reflexivity].
      * destruct (Z.eqb_spec z (x + k)) as [->|N2].
        -- rewrite Hgxk. destruct (lower p k x) eqn:L.
           ++ rewrite (lower_sep p k x Hk L). unfold Lf.
              rewrite (lower_sep p k x Hk L).
              replace (x + k - k) with x by lia. now rewrite L.
           ++ assert (H := pre_in_order x Hx Hsame L).
              replace (g x || f (x + k)) with (f (x + k))
                by (destruct (g x); [now rewrite H|reflexivity]).
              destruct (lower p k (x + k)) eqn:L'; [reflexivity|].
              unfold Lf. rewrite L'.
              replace (x + k - k) with x by lia. now rewrite L.
        -- rewrite IH. now rewrite Hrest.
    + (* a pair across two blocks: nothing is done *)
      cbn [runF fold_left]. rewrite IH.
      assert (L : lower p k x = false).
      { destruct (lower p k x) eqn:L; [|reflexivity].
        apply lower_same_block in L. contradiction. }
      destruct (Z.eq_dec z x) as [->|N1].
      * rewrite Hgx1. destruct (Z.ltb_spec x x); [lia|].
        destruct (Z.ltb_spec x (x + k)); [|lia]. now rewrite L.
      * destruct (Z.eq_dec z (x + k)) as [->|N2].
        -- rewrite Hgxk. destruct (Z.ltb_spec (x + k) x); [lia|].
           destruct (Z.ltb_spec (x + k) (x + k)); [lia|]. cbn [orb andb].
           destruct (lower p k (x + k)) eqn:L'; [reflexivity|].
           unfold Lf. rewrite L'.
           replace (x + k - k) with x by lia. now rewrite L.
        -- now rewrite Hrest.
Qed.

Lemma group1_pass (j : Z) :
  group1 n p k j = pass1 p k j (Z.to_nat (n - j - k)).
Proof.
  unfold group1, pass1, upto, upto_count.
  replace (n - j - k - 0 + 1 - 1) with (n - j - k) by lia.
  now rewrite Z.div_1_r.
Qed.

Lemma first_group (z : Z) : runF (group1 n p k (Z.rem k p)) f z = g z.
Proof.
  rewrite group1_pass, pass1_inv by lia.
  set (c := Z.of_nat (Z.to_nat (n - Z.rem k p - k))).
  assert (Hc : n - k <= Z.rem k p + c) by (unfold c; lia).
  destruct ((z <? Z.rem k p + c)
            || ((z <? Z.rem k p + c + k) && negb (lower p k z))) eqn:E;
    [reflexivity|].
  symmetry. apply orb_false_iff in E. destruct E as (E1 & E2).
  apply Z.ltb_ge in E1. apply layer_id_high; [lia|].
  apply andb_false_iff in E2. destruct E2 as [E2|E2].
  - apply Z.ltb_ge in E2. left. lia.
  - right. now apply negb_false_iff in E2.
Qed.

Lemma layer1_members (e : emission) :
  In e (layer1 n p k) ->
  0 <= e_x e /\ e_y e = e_x e + k
  /\ e_x e / (2 * p) = (e_x e + k) / (2 * p).
Proof.
  intros He. assert (Hk := pw_pos b). assert (Hp := pw_pos a).
  assert (Hj0 := rem_pw_nonneg a (a - b)).
  replace (a - (a - b))%nat with b in Hj0 by lia.
  apply in_layer1 in He; [|assumption].
  destruct He as (t & i & Ht & Hi & Hn & E & ->). cbn [e_x e_y].
  assert (H0 : 0 <= Z.rem k p + 2 * k * t + i) by nia.
  repeat split; [assumption|].
  apply Z.eqb_eq. rewrite <- quot_test by assumption. now apply Z.eqb_eq.
Qed.

Lemma layer1_sound (z : Z) : runF (layer1 n p k) f z = g z.
Proof.
  assert (Hk := pw_pos b).
  assert (Hmem := layer1_members). revert Hmem.
  unfold layer1, upto.
  destruct (upto_count (Z.rem k p) (2 * k) (n - k)) as [|c] eqn:Ec;
    intros Hmem.
  - cbn [seq map flat_map runF fold_left].
    rewrite <- first_group. rewrite group1_pass.
    replace (Z.to_nat (n - Z.rem k p - k)) with O; [reflexivity|].
    destruct (Z.lt_ge_cases (Z.rem k p + 2 * k * Z.of_nat 0) (n - k))
      as [H|H]; [|lia].
    apply upto_count_spec in H; lia.
  - cbn [seq map flat_map] in *.
    replace (Z.rem k p + 2 * k * Z.of_nat 0) with (Z.rem k p) in * by lia.
    rewrite runF_app.
    rewrite (runF_ext _ _ g first_group).
    apply runF_noop. intros e He.
    destruct (Hmem e (in_or_app _ _ _ (or_intror He))) as (H0 & -> & Hs).
    now apply post_in_order.
Qed.

End Listing1Layer.

Theorem layer1_ok (n : Z) : layer_ok layer1 n.
Proof.
  intros a b f Hba _ Hf Hpre z. now apply layer1_sound.
Qed.

(** ** The array: loads, stores and the compare-exchange *)

Lemma update_length (A : list Z) (i : nat) (v : Z) :
  length (update A i v) = length A.
Proof.
  revert i. induction A as [|a A IH]; intros [|i]; simpl; auto.
Qed.

Lemma update_nth_same (A : list Z) (i : nat) (v : Z) :
  (i < length A)%nat -> nth_error (update A i v) i = Some v.
Proof.
  revert i. induction A as [|a A IH]; intros [|i] H; simpl in *;
    try lia; [reflexivity|]. apply IH. lia.
Qed.

Lemma update_nth_other (A : list Z) (i j : nat) (v : Z) :
  i <> j -> nth_error (update A i v) j = nth_error A j.
Proof.
  revert i j. induction A as [|a A IH]; intros [|i] [|j] H; simpl;
    try reflexivity; try lia. apply IH. lia.
Qed.

Lemma update_split (l1 l2 : list Z) (w v : Z) :
  update (l1 ++ w :: l2) (length l1) v = l1 ++ v :: l2.
Proof. induction l1 as [|a l1 IH]; simpl; [reflexivity|now rewrite IH]. Qed.

Lemma load_Some (A : list Z) (i : Z) :
  0 <= i < len A -> exists v, load A i = Some v.
Proof.
  intros H. unfold load, len in *. destruct (Z.ltb_spec i 0); [lia|].
  destruct (nth_error A (Z.to_nat i)) eqn:E; [eauto|].
  apply nth_error_None in E. lia.
Qed.

Lemma load_range (A : list Z) (i v : Z) :
  load A i = Some v -> 0 <= i < len A.
Proof.
  unfold load, len. destruct (Z.ltb_spec i 0); [discriminate|].
  intros Hv. assert (Hn : nth_error A (Z.to_nat i) <> None) by congruence.
  apply nth_error_Some in Hn. lia.
Qed.

Lemma store_len (A : list Z) (i v : Z) : len (store A i v) = len A.
Proof. unfold len, store. now rewrite update_length. Qed.

Lemma load_store_same (A : list Z) (i v : Z) :
  0 <= i < len A -> load (store A i v) i = Some v.
Proof.
  intros H. unfold load, store, len in *.
  destruct (Z.ltb_spec i 0); [lia|]. apply update_nth_same. lia.
Qed.

Lemma load_store_other (A : list Z) (i j v : Z) :
  0 <= i -> i <> j -> load (store A i v) j = load A j.
Proof.
  intros Hi H. unfold load, store.
  destruct (Z.ltb_spec j 0); [reflexivity|]. apply update_nth_other. lia.
Qed.

Lemma swap_perm_nat (A : list Z) (i j : nat) (a b : Z) :
  (i < j)%nat ->
  nth_error A i = Some a -> nth_error A j = Some b ->
  Permutation A (update (update A i b) j a).
Proof.
  intros Hij Ha Hb.
  destruct (nth_error_split A i Ha) as (l1 & r & -> & <-).
  replace j with (length l1 + Datatypes.S (j - length l1 - 1))%nat in * by lia.
  set (d := (j - length l1 - 1)%nat) in *. clearbody d.
  rewrite nth_error_app2 in Hb by lia.
  replace (length l1 + Datatypes.S d - length l1)%nat
    with (Datatypes.S d) in Hb by lia.
  cbn [nth_error] in Hb.
  destruct (nth_error_split r d Hb) as (l2 & l3 & -> & <-).
  rewrite update_split.
  replace (length l1 + Datatypes.S (length l2))%nat
    with (length (l1 ++ b :: l2))
    by (rewrite length_app; simpl; lia).
  replace (l1 ++ b :: l2 ++ b :: l3) with ((l1 ++ b :: l2) ++ b :: l3)
    by (now rewrite <- app_assoc).
  rewrite update_split, <- app_assoc. cbn [app].
  apply Permutation_app_head.
  transitivity (a :: b :: l2 ++ l3).
  - apply perm_skip. symmetry. apply Permutation_middle.
  - transitivity (b :: a :: l2 ++ l3); [apply perm_swap|].
    apply perm_skip. apply Permutation_middle.
Qed.

Lemma swap_perm (A : list Z) (x y a b : Z) :
  0 <= x < y ->
  load A x = Some a -> load A y = Some b ->
  Permutation A (store (store A x b) y a).
Proof.
  intros Hxy Ha Hb. unfold load, store in *.
  destruct (Z.ltb_spec x 0); [lia|]. destruct (Z.ltb_spec y 0); [lia|].
  apply swap_perm_nat; [lia|assumption|assumption].
Qed.

(** The compare-exchange on two positions [x < y] of the array: it does
    not fail, it leaves the array as it is or swaps the two values, and
    afterwards the two positions are in order. *)
Lemma compexch_spec (x y : Z) (A : list Z) :
  0 <= x < y -> y < len A ->
  exists A' a b,
    compexch x y A = Ok A' /\ len A' = len A /\ Permutation A A' /\
    load A' x = Some a /\ load A' y = Some b /\ a <= b /\
    (A' = A \/ (load A' x = load A y /\ load A' y = load A x)) /\
    (forall z, z <> x -> z <> y -> load A' z = load A z).
Proof.
  intros Hxy Hy.
  destruct (load_Some A x ltac:(lia)) as (a & Ha).
  destruct (load_Some A y ltac:(lia)) as (b & Hb).
  unfold compexch. rewrite Ha, Hb.
  destruct (Z.gtb_spec a b) as [Hgt|Hle].
  - exists (store (store A x b) y a), b, a.
    assert (L1 : load (store (store A x b) y a) x = Some b).
    { rewrite load_store_other by lia. apply load_store_same. lia. }
    assert (L2 : load (store (store A x b) y a) y = Some a).
    { apply load_store_same. rewrite store_len. lia. }
    repeat split.
    + now rewrite !store_len.
    + now apply swap_perm.
    + exact L1.
    + exact L2.
    + lia.
    + right. now split.
    + intros z N1 N2. rewrite !load_store_other by lia. reflexivity.
  - exists A, a, b. repeat split; auto.
Qed.

Lemma compexch_toF (x y : Z) (A A' : list Z) :
  0 <= x < y -> y < len A -> compexch x y A = Ok A' ->
  forall t z, toF t A' z = cmpF x y (toF t A) z.
Proof.
  intros Hxy Hy H t z.
  destruct (load_Some A x ltac:(lia)) as (a & Ha).
  destruct (load_Some A y ltac:(lia)) as (b & Hb).
  unfold compexch in H. rewrite Ha, Hb in H.
  unfold cmpF, toF. rewrite Ha, Hb.
  destruct (Z.gtb_spec a b) as [Hgt|Hle]; injection H as <-.
  - destruct (Z.eqb_spec z x) as [->|N1].
    + rewrite load_store_other by lia.
      rewrite load_store_same by lia. leb_cases; simpl; try reflexivity; lia.
    + destruct (Z.eqb_spec z y) as [->|N2].
      * rewrite load_store_same by (rewrite store_len; lia).
        leb_cases; simpl; try reflexivity; lia.
      * now rewrite !load_store_other by lia.
  - destruct (Z.eqb_spec z x) as [->|N1].
    + rewrite Ha. leb_cases; simpl; try reflexivity; lia.
    + destruct (Z.eqb_spec z y) as [->|N2]; [|reflexivity].
      rewrite Hb. leb_cases; simpl; try reflexivity; lia.
Qed.

(** ** Running a schedule on an array *)

Lemma run_schedule (n : Z) (cs : list emission) :
  in_bounds n cs ->
  forall A, len A = n ->
    exists A', mfold (on_emission exec) cs A = Ok A' /\ len A' = n /\
               Permutation A A' /\
               forall t z, toF t A' z = runF cs (toF t A) z.
Proof.
  induction cs as [|e cs IH]; intros Hb A HA.
  - exists A. repeat split; auto.
  - destruct (Hb e (or_introl eq_refl)) as (Hxy & Hy).
    destruct (compexch_spec (e_x e) (e_y e) A Hxy ltac:(lia))
      as (A1 & a & b & H1 & L1 & P1 & _).
    destruct (IH (fun e' He' => Hb e' (or_intror He')) A1 ltac:(lia))
      as (A' & H' & L' & P' & F').
    exists A'. cbn [mfold]. unfold on_emission at 1, exec. rewrite H1.
    cbn [bind]. repeat split; try assumption.
    + now transitivity A1.
    + intros t z. rewrite F'. cbn [runF fold_left].
      apply runF_ext. intros w.
      apply compexch_toF with (A := A); [assumption|lia|assumption].
Qed.

Lemma toF_true_from (t : Z) (A : list Z) : true_from (len A) (toF t A).
Proof.
  intros z Hz. unfold toF. destruct (load A z) as [v|] eqn:E; [|reflexivity].
  apply load_range in E. lia.
Qed.

(** A sound sweep sorts: the zero-one principle. *)
Theorem sweep_sorts (layer : Z -> Z -> Z -> list emission) (n : Z) (A : list Z) :
  layer_ok layer n -> in_bounds n (sweep layer n) -> len A = n ->
  exists A', mfold (on_emission exec) (sweep layer n) A = Ok A' /\
             len A' = n /\ Permutation A A' /\ ascending A'.
Proof.
  intros Hok Hb HA.
  destruct (run_schedule n (sweep layer n) Hb A HA) as (A' & H' & L' & P' & F').
  exists A'. repeat split; try assumption.
  intros i j vi vj Hij Hi Hj.
  assert (Hjn := load_range A' j vj Hj).
  assert (Ht : true_from n (toF vi A)) by (rewrite <- HA; apply toF_true_from).
  assert (M := sweep_monotone layer n (toF vi A) i j Hok Ht
                              ltac:(lia) ltac:(lia)).
  rewrite <- !F' in M. unfold toF in M. rewrite Hi, Hj in M.
  apply Z.leb_le. apply M. apply Z.leb_le. lia.
Qed.

(** ** The schedules stay inside the array *)

Lemma exact_in_bounds (layer : Z -> Z -> Z -> list emission) (n : Z) :
  layer_exact layer n -> in_bounds n (sweep layer n).
Proof.
  intros Hex e He. apply in_sweep in He.
  destruct He as (a & b & Hba & Ha & He).
  destruct (Hex a b Hba Ha) as (Hin & _).
  destruct (Hin e He) as (-> & L & Hn).
  apply lower_nonneg in L. assert (Hk := pw_pos b). lia.
Qed.

Lemma sched1_in_bounds (n : Z) : in_bounds n (sched1 n).
Proof.
  intros e He. apply in_sweep in He.
  destruct He as (a & b & Hba & Ha & He).
  assert (Hk := pw_pos b).
  assert (Hj0 := rem_pw_nonneg a (a - b)).
  replace (a - (a - b))%nat with b in Hj0 by lia.
  apply in_layer1 in He; [|assumption].
  destruct He as (t & i & Ht & Hi & Hn & _ & ->). cbn [e_x e_y]. nia.
Qed.

Lemma sched2_in_bounds (n : Z) : in_bounds n (sched2 n).
Proof. apply exact_in_bounds, layer2_exact. Qed.

Lemma sched3_in_bounds (n : Z) : in_bounds n (sched3 n).
Proof. apply exact_in_bounds, layer3_exact. Qed.

Lemma sched4_in_bounds (n : Z) : in_bounds n (sched4 n).
Proof. apply exact_in_bounds, layer4_exact. Qed.

(** ** The recorded schedule of a listing is its closed form *)

Lemma mfold_record (l t : list emission) :
  mfold (on_emission record) l t = Ok (t ++ l).
Proof.
  revert t. induction l as [|e l IH]; intros t; cbn [mfold].
  - now rewrite app_nil_r.
  - unfold on_emission at 1, record. cbn [bind]. rewrite IH.
    rewrite <- app_assoc. now destruct e.
Qed.

Lemma trace1_sched (fuel : nat) (n : Z) :
  (Z.to_nat n < fuel)%nat -> trace1 fuel n = Ok (sched1 n).
Proof.
  intros H. unfold trace1. rewrite listing1_sched by assumption.
  apply mfold_record.
Qed.

Lemma trace2_sched (fuel : nat) (n : Z) :
  (Z.to_nat n < fuel)%nat -> trace2 fuel n = Ok (sched2 n).
Proof.
  intros H. unfold trace2. rewrite listing2_sched by assumption.
  apply mfold_record.
Qed.

Lemma trace3_sched (fuel : nat) (n : Z) :
  (Z.to_nat n < fuel)%nat -> trace3 fuel n = Ok (sched3 n).
Proof.
  intros H. unfold trace3. rewrite listing3_sched by assumption.
  apply mfold_record.
Qed.

Lemma trace4_sched (fuel : nat) (n : Z) :
  (Z.to_nat n < fuel)%nat -> trace4 fuel n = Ok (sched4 n).
Proof.
  intros H. unfold trace4. rewrite listing4_sched by assumption.
  apply mfold_record.
Qed.

(** ** Each sequential sort returns a sorted permutation of its input *)

Lemma sortListing1_sorts : sorts sortListing1.
Proof.
  intros fuel A n HA Hf. unfold sortListing1.
  rewrite listing1_sched by assumption.
  apply sweep_sorts; [apply layer1_ok|apply sched1_in_bounds|assumption].
Qed.

Lemma sortListing2_sorts : sorts sortListing2.
Proof.
  intros fuel A n HA Hf. unfold sortListing2.
  rewrite listing2_sched by assumption.
  apply sweep_sorts;
    [apply layer_exact_ok, layer2_exact|apply sched2_in_bounds|assumption].
Qed.

Lemma sortListing3_sorts : sorts sortListing3.
Proof.
  intros fuel A n HA Hf. unfold sortListing3.
  rewrite listing3_sched by assumption.
  apply sweep_sorts;
    [apply layer_exact_ok, layer3_exact|apply sched3_in_bounds|assumption].
Qed.

Lemma sortListing4_sorts : sorts sortListing4.
Proof.
  intros fuel A n HA Hf. unfold sortListing4.
  rewrite listing4_sched by assumption.
  apply sweep_sorts;
    [apply layer_exact_ok, layer4_exact|apply sched4_in_bounds|assumption].
Qed.

(** ** A sorted permutation is unique *)

Lemma load_cons_succ (a : Z) (A : list Z) (i : Z) :
  0 <= i -> load (a :: A) (i + 1) = load A i.
Proof.
  intros Hi. unfold load.
  destruct (Z.ltb_spec (i + 1) 0); [lia|]. destruct (Z.ltb_spec i 0); [lia|].
  replace (Z.to_nat (i + 1)) with (Datatypes.S (Z.to_nat i)) by lia.
  reflexivity.
Qed.

Lemma ascending_tail (a : Z) (A : list Z) : ascending (a :: A) -> ascending A.
Proof.
  intros H i j vi vj Hij Hi Hj.
  apply (H (i + 1) (j + 1) vi vj); [lia| |];
    rewrite load_cons_succ by lia; assumption.
Qed.

Lemma ascending_head (a v : Z) (A : list Z) :
  ascending (a :: A) -> In v A -> a <= v.
Proof.
  intros H Hv. apply In_nth_error in Hv. destruct Hv as (i & Hi).
  apply (H 0 (Z.of_nat i + 1) a v); [lia|reflexivity|].
  rewrite load_cons_succ by lia. unfold load.
  destruct (Z.ltb_spec (Z.of_nat i) 0); [lia|]. now rewrite Nat2Z.id.
Qed.

Lemma ascending_unique (A B : list Z) :
  ascending A -> ascending B -> Permutation A B -> A = B.
Proof.
  revert B. induction A as [|a A IH]; intros B HA HB HP.
  - apply Permutation_nil in HP. now subst.
  - destruct B as [|b B].
    + symmetry in HP. apply Permutation_nil in HP. discriminate.
    + assert (Hab : a = b).
      { assert (Hb : In b (a :: A))
          by (apply Permutation_in with (l := b :: B);
              [now symmetry|now left]).
        assert (Ha : In a (b :: B))
          by (apply Permutation_in with (l := a :: A); [assumption|now left]).
        destruct Hb as [Hb|Hb]; [assumption|].
        destruct Ha as [Ha|Ha]; [now symmetry|].
        assert (a <= b) by now apply (ascending_head a b A).
        assert (b <= a) by now apply (ascending_head b a B).
        lia. }
      subst b. f_equal. apply IH.
      * now apply ascending_tail in HA.
      * now apply ascending_tail in HB.
      * now apply Permutation_cons_inv in HP.
Qed.

Lemma ascending_nondecreasing (n : Z) (A : list Z) :
  len A = n -> ascending A -> nondecreasing n A.
Proof.
  intros HA H i j Hij Hj.
  destruct (load_Some A i ltac:(lia)) as (vi & Hi).
  destruct (load_Some A j ltac:(lia)) as (vj & Hvj).
  exists vi, vj. repeat split; try assumption.
  now apply (H i j vi vj).
Qed.

(** With at most one element the phase loop is not entered. *)
Lemma listing1_small {S : Type} (emit : Z -> Z -> Z -> Z -> Z -> S -> result S)
      (fuel : nat) (n : Z) (s : S) :
  n <= 1 -> listing1 emit (Datatypes.S fuel) n s = Ok s.
Proof.
  intros H. unfold listing1. cbn [for_loop].
  destruct (Z.ltb_spec 1 n); [lia|reflexivity].
Qed.

Lemma listing2_small {S : Type} (emit : Z -> Z -> Z -> Z -> Z -> S -> result S)
      (fuel : nat) (n : Z) (s : S) :
  n <= 1 -> listing2 emit (Datatypes.S fuel) n s = Ok s.
Proof.
  intros H. unfold listing2. cbn [for_loop].
  destruct (Z.ltb_spec 1 n); [lia|reflexivity].
Qed.

Lemma listing3_small {S : Type} (emit : Z -> Z -> Z -> Z -> Z -> S -> result S)
      (fuel : nat) (n : Z) (s : S) :
  n <= 1 -> listing3 emit (Datatypes.S fuel) n s = Ok s.
Proof.
  intros H. unfold listing3. cbn [for_loop].
  destruct (Z.ltb_spec 1 n); [lia|reflexivity].
Qed.

Lemma listing4_small {S : Type} (emit : Z -> Z -> Z -> Z -> Z -> S -> result S)
      (fuel : nat) (n : Z) (s : S) :
  n <= 1 -> listing4 emit (Datatypes.S fuel) n s = Ok s.
Proof.
  intros H. unfold listing4. cbn [for_loop].
  destruct (Z.ltb_spec 1 n); [lia|reflexivity].
Qed.

Lemma sorts_terminates (sort : nat -> list Z -> Z -> result (list Z))
      (A : list Z) (n : Z) :
  sorts sort -> len A = n -> terminates sort A n.
Proof.
  intros Hs HA.
  destruct (Hs (Datatypes.S (Z.to_nat n)) A n HA ltac:(lia))
    as (A0 & E0 & _ & P0 & S0).
  exists A0. intros fuel Hf.
  destruct (Hs fuel A n HA Hf) as (A1 & E1 & _ & P1 & S1).
  rewrite E1. f_equal. apply ascending_unique; try assumption.
  transitivity A; [now symmetry|assumption].
Qed.

Lemma in_bounds_range (n : Z) (t : list emission) :
  in_bounds n t ->
  forall e, In e t -> 0 <= e_x e < n /\ 0 <= e_y e < n.
Proof. intros H e He. destruct (H e He). lia. Qed.

Lemma sorts_index_safe (trace : nat -> Z -> result (list emission))
      (sort : nat -> list Z -> Z -> result (list Z))
      (sched : Z -> list emission) (fuel : nat) (A : list Z) (n : Z) :
  sorts sort ->
  (forall fuel n, (Z.to_nat n < fuel)%nat -> trace fuel n = Ok (sched n)) ->
  (forall fuel A n, (Z.to_nat n < fuel)%nat ->
                    sort fuel A n = mfold (on_emission exec) (sched n) A) ->
  in_bounds n (sched n) ->
  len A = n -> (Z.to_nat n < fuel)%nat ->
  index_safe trace sort fuel A n.
Proof.
  intros Hs Ht Hm Hb HA Hf.
  destruct (Hs fuel A n HA Hf) as (A' & E & _).
  exists (sched n), A'. split; [now apply Ht|].
  split; [now apply in_bounds_range|]. split; [now apply Hm|assumption].
Qed.

(** ** The recursive network and the sweep have the same comparators *)

Lemma lower_double (p k l rho : Z) :
  0 < k -> 0 < p -> 0 <= rho < 2 ->
  lower (2 * p) (2 * k) (2 * l + rho) = lower p k l.
Proof.
  intros Hk Hp Hrho. unfold lower.
  replace (2 * l + rho + 2 * k) with (2 * (l + k) + rho) by ring.
  rewrite !div_mul_offset by lia.
  replace (0 <=? 2 * l + rho) with (0 <=? l)
    by (destruct (Z.leb_spec 0 l), (Z.leb_spec 0 (2 * l + rho)); lia).
  replace (2 * k <? 2 * p) with (k <? p)
    by (destruct (Z.ltb_spec k p), (Z.ltb_spec (2 * k) (2 * p)); lia).
  reflexivity.
Qed.

Lemma lower_shift (p k h l m : Z) :
  0 < k -> 0 < h -> p = k * h -> 0 <= l -> 0 <= m ->
  lower p k (l + 2 * p * m) = lower p k l.
Proof.
  intros Hk Hh Hp Hl Hm. unfold lower.
  assert (0 < p) by nia.
  replace (l + 2 * p * m + k) with (l + k + m * (2 * p)) by ring.
  replace (l + 2 * p * m) with (l + m * (2 * p)) by ring.
  rewrite !Z.div_add by lia.
  replace ((l + m * (2 * p)) / k) with (l / k + 2 * (h * m)).
  - rewrite Z.odd_add_mul_2.
    replace (0 <=? l + m * (2 * p)) with (0 <=? l)
      by (destruct (Z.leb_spec 0 l), (Z.leb_spec 0 (l + m * (2 * p))); nia).
    destruct (Z.eqb_spec (l / (2 * p) + m) ((l + k) / (2 * p) + m)),
      (Z.eqb_spec (l / (2 * p)) ((l + k) / (2 * p))); try lia; reflexivity.
  - replace (l + m * (2 * p)) with (l + (2 * (h * m)) * k) by (subst p; ring).
    now rewrite Z.div_add by lia.
Qed.

Lemma lower_block0 (p k l : Z) :
  0 < p -> 0 < k -> lower p k l = true -> l < 2 * p -> l + k < 2 * p.
Proof.
  intros Hp Hk H Hl. assert (H0 := lower_nonneg p k l H).
  unfold lower in H. apply andb_true_iff in H. destruct H as (H & _).
  apply andb_true_iff in H. destruct H as (_ & H). apply Z.eqb_eq in H.
  rewrite (Z.div_small l) in H by lia.
  symmetry in H. apply Z.div_small_iff in H; lia.
Qed.

Lemma lower_in_block0 (p k l : Z) :
  0 < p -> 0 <= l -> 0 < k -> l + k < 2 * p ->
  lower p k l = Bool.eqb (Z.odd (l / k)) (k <? p).
Proof.
  intros Hp Hl Hk H. unfold lower.
  rewrite !Z.div_small by lia.
  destruct (Z.leb_spec 0 l); [|lia]. reflexivity.
Qed.

Lemma in_merge (d : nat) :
  forall lo r x y,
    In (x, y) (oddeven_merge d lo r) <->
    exists (b : nat) (l : Z),
      (b <= d)%nat /\ lower (pw d) (pw b) l = true /\
      l + pw b < 2 * pw d /\ x = lo + r * l /\ y = lo + r * (l + pw b).
Proof.
  induction d as [|d IH]; intros lo r x y.
  - cbn [oddeven_merge In]. split.
    + intros [E|[]]. injection E as <- <-. exists O, 0.
      change (pw 0) with 1. repeat split; try reflexivity; ring.
    + intros (b & l & Hb & L & Hl & -> & ->).
      replace b with O in * by lia. change (pw 0) with 1 in *.
      assert (H0 := lower_nonneg _ _ _ L). left.
      replace l with 0 by lia. f_equal; ring.
  - cbn [oddeven_merge]. rewrite !in_app_iff, !IH, in_map_iff.
    assert (Hd := pw_pos d). split.
    + intros [H|[H|H]].
      * destruct H as (b & l & Hb & L & Hl & -> & ->).
        assert (Hk := pw_pos b).
        exists (Datatypes.S b), (2 * l). rewrite !pw_S.
        replace (2 * l) with (2 * l + 0) at 1 by lia.
        rewrite lower_double by lia.
        repeat split; try assumption; try lia; ring.
      * destruct H as (b & l & Hb & L & Hl & -> & ->).
        assert (Hk := pw_pos b).
        exists (Datatypes.S b), (2 * l + 1). rewrite !pw_S.
        rewrite lower_double by lia.
        repeat split; try assumption; try lia; ring.
      * destruct H as (i & E & Hi).
        apply in_upto in Hi; [|lia]. destruct Hi as (t & Ht & Ei & Hi).
        assert (Hs := pw_S d).
        exists O, (1 + 2 * i). replace (pw 0) with 1 by reflexivity.
        rewrite lower_in_block0 by lia. rewrite Z.div_1_r.
        rewrite Z.odd_add_mul_2.
        replace (1 <? pw (Datatypes.S d)) with true
          by (symmetry; apply Z.ltb_lt; lia).
        split; [lia|]. split; [reflexivity|]. split; [lia|].
        assert (Ex : x = lo + (2 * i + 1) * r) by congruence.
        assert (Ey : y = lo + (2 * i + 2) * r) by congruence.
        rewrite Ex, Ey. split; ring.
    + intros (b & l & Hb & L & Hl & -> & ->).
      assert (H0 := lower_nonneg _ _ _ L). assert (Hs := pw_S d).
      destruct b as [|b].
      * right. right. change (pw 0) with 1 in *.
        rewrite lower_in_block0 in L by lia. rewrite Z.div_1_r in L.
        replace (1 <? pw (Datatypes.S d)) with true in L
          by (symmetry; apply Z.ltb_lt; lia).
        apply eqb_prop in L. assert (Ho := odd_split l). rewrite L in Ho.
        exists (l / 2). split.
        -- f_equal; [rewrite Ho at 2|rewrite Ho at 2]; ring.
        -- apply in_upto; [lia|]. exists (l / 2).
           repeat split; Z.div_mod_to_equations; lia.
      * assert (Hk := pw_pos b). rewrite !pw_S in *.
        assert (Ho := odd_split l).
        assert (Hrho : 0 <= (if Z.odd l then 1 else 0) < 2)
          by (destruct (Z.odd l); lia).
        rewrite Ho in L. rewrite lower_double in L by lia.
        destruct (Z.odd l).
        -- right. left. exists b, (l / 2).
           repeat split; try assumption; try lia;
             rewrite Ho at 2; ring.
        -- left. exists b, (l / 2).
           repeat split; try assumption; try lia;
             rewrite Ho at 2; ring.
Qed.

Lemma in_merge_sort (t : nat) :
  forall lo x y,
    In (x, y) (oddeven_merge_sort t lo) <->
    exists (a b : nat) (l : Z),
      (b <= a < t)%nat /\ lower (pw a) (pw b) l = true /\
      l < pw t /\ x = lo + l /\ y = lo + l + pw b.
Proof.
  induction t as [|t IH]; intros lo x y.
  - cbn [oddeven_merge_sort In]. split; [tauto|].
    intros (a & b & l & Hab & _). lia.
  - cbn [oddeven_merge_sort]. rewrite !in_app_iff, !IH, in_merge.
    assert (Ht := pw_pos t). assert (Hs := pw_S t). split.
    + intros [H|[H|H]].
      * destruct H as (a & b & l & Hab & L & Hl & -> & ->).
        exists a, b, l. repeat split; try assumption; lia.
      * destruct H as (a & b & l & Hab & L & Hl & -> & ->).
        assert (H0 := lower_nonneg _ _ _ L).
        exists a, b, (l + 2 * pw a * pw (t - a - 1)).
        assert (E : pw t = 2 * pw a * pw (t - a - 1)).
        { rewrite <- Z.mul_assoc, (Z.mul_comm (pw a)), Z.mul_assoc.
          rewrite <- pw_S, <- pw_add. f_equal. lia. }
        rewrite (lower_shift (pw a) (pw b) (pw (a - b)));
          try apply pw_pos; try assumption;
          [|apply pw_split; lia|assert (Hq := pw_pos (t - a - 1)); lia].
        repeat split; try assumption; lia.
      * destruct H as (b & l & Hb & L & Hl & -> & ->).
        exists t, b, l. assert (Hk := pw_pos b).
        repeat split; try assumption; lia.
    + intros (a & b & l & Hab & L & Hl & -> & ->).
      assert (H0 := lower_nonneg _ _ _ L). assert (Hk := pw_pos b).
      destruct (Nat.eq_dec a t) as [->|Hne].
      * right. right. exists b, l.
        assert (Hb0 := lower_block0 (pw t) (pw b) l Ht Hk L ltac:(lia)).
        repeat split; try assumption; lia.
      * assert (E : pw t = 2 * pw a * pw (t - a - 1)).
        { rewrite <- Z.mul_assoc, (Z.mul_comm (pw a)), Z.mul_assoc.
          rewrite <- pw_S, <- pw_add. f_equal. lia. }
        destruct (Z.lt_ge_cases l (pw t)) as [Hlt|Hge].
        -- left. exists a, b, l. repeat split; try assumption; lia.
        -- right. left. exists a, b, (l - pw t).
           assert (L' : lower (pw a) (pw b) (l - pw t) = true).
           { rewrite <- L.
             replace l with (l - pw t + 2 * pw a * pw (t - a - 1)) at 2 by lia.
             symmetry.
             apply (lower_shift (pw a) (pw b) (pw (a - b)));
               try apply pw_pos; [apply pw_split; lia|lia|].
             assert (Hq := pw_pos (t - a - 1)). lia. }
           repeat split; try assumption; lia.
Qed.

Lemma in_batcher (n : Z) (c : Z * Z) : In c (batcher n) <-> in_network n c.
Proof.
  destruct c as (x, y). unfold batcher, in_network. cbn [fst snd].
  rewrite filter_In, in_merge_sort. cbn [snd]. split.
  - intros ((a & b & l & Hab & L & Hl & -> & ->) & Hn).
    apply Z.ltb_lt in Hn. exists a, b.
    replace (0 + l) with l in * by lia.
    repeat split; try assumption; try lia. apply pw_lt_phases. lia.
  - intros (a & b & Hab & Ha & L & -> & Hn).
    assert (H0 := lower_nonneg _ _ _ L). assert (Hk := pw_pos b).
    split; [|now apply Z.ltb_lt].
    exists a, b, x. apply pw_lt_phases in Ha.
    assert (Hp := phases_spec n).
    repeat split; try assumption; lia.
Qed.

(** The pairs of an exact sweep are those of the network. *)
Lemma exact_pairs (layer : Z -> Z -> Z -> list emission) (n : Z) (c : Z * Z) :
  layer_exact layer n -> In c (pairs (sweep layer n)) <-> in_network n c.
Proof.
  intros Hex. unfold pairs, in_network. rewrite in_map_iff. split.
  - intros (e & <- & He). apply in_sweep in He.
    destruct He as (a & b & Hba & Ha & He).
    destruct (Hex a b Hba Ha) as (Hin & _).
    destruct (Hin e He) as (Ey & L & Hn).
    exists a, b. cbn [fst snd]. repeat split; try assumption. lia.
  - intros (a & b & Hba & Ha & L & Ey & Hn).
    destruct (Hex a b Hba Ha) as (Hin & Hall).
    destruct (Hall (fst c) L ltac:(lia)) as (e & He & Ex).
    exists e. split.
    + destruct (Hin e He) as (Ey' & _). destruct c as (x, y).
      cbn [fst snd] in *. f_equal; lia.
    + apply in_sweep. exists a, b. now repeat split.
Qed.

Lemma div_double (x k : Z) :
  0 < k -> x / (2 * k) = x / k / 2 /\ (x + k) / (2 * k) = (x / k + 1) / 2.
Proof.
  intros Hk. rewrite (Z.mul_comm 2 k), <- !Z.div_div by lia.
  replace (x + k) with (x + 1 * k) by lia. now rewrite Z.div_add by lia.
Qed.

(** A pair of listing 1 that is not a comparator of its own layer is a
    comparator of the first layer of the phase [k]. *)
Lemma extra_is_first_layer (p k x : Z) :
  0 < k -> k <= p -> 0 <= x ->
  x / (2 * p) = (x + k) / (2 * p) ->
  lower p k x = false -> lower k k x = true.
Proof.
  intros Hk Hkp Hx Hsame L. unfold lower in *.
  rewrite Hsame, Z.eqb_refl in L.
  destruct (Z.leb_spec 0 x); [|lia]. cbn [andb] in *.
  rewrite Z.ltb_irrefl.
  destruct (div_double x k Hk) as (E1 & E2).
  assert (Ho := odd_split (x / k)).
  destruct (Z.ltb_spec k p) as [Hlt|Hge].
  - destruct (Z.odd (x / k)) eqn:Hodd; [discriminate|].
    rewrite E1, E2. cbn [Bool.eqb].
    replace (x / k / 2 =? (x / k + 1) / 2) with true; [reflexivity|].
    symmetry. apply Z.eqb_eq. clear - Ho.
    set (q := x / k) in *. clearbody q. Z.div_mod_to_equations. lia.
  - assert (p = k) by lia. subst p.
    destruct (Z.odd (x / k)) eqn:Hodd; [|discriminate].
    rewrite E1, E2 in Hsame. exfalso. clear - Ho Hsame.
    set (q := x / k) in *. clearbody q. Z.div_mod_to_equations. lia.
Qed.

Lemma sched1_pairs (n : Z) (c : Z * Z) :
  In c (pairs (sched1 n)) <-> in_network n c.
Proof.
  unfold pairs, in_network. rewrite in_map_iff. split.
  - intros (e & <- & He). apply in_sweep in He.
    destruct He as (a & b & Hba & Ha & He).
    assert (Hk := pw_pos b). assert (Hp := pw_pos a).
    assert (Hkp := @pw_le_mono b a Hba).
    assert (Hj0 := rem_pw_nonneg a (a - b)).
    replace (a - (a - b))%nat with b in Hj0 by lia.
    apply in_layer1 in He; [|assumption].
    destruct He as (t & i & Ht & Hi & Hn & E & ->). cbn [e_x e_y fst snd].
    set (x := Z.rem (pw b) (pw a) + 2 * pw b * t + i) in *.
    assert (Hx : 0 <= x) by (unfold x; nia).
    apply Z.eqb_eq in E. rewrite (quot_test a b Hba x Hx) in E.
    apply Z.eqb_eq in E.
    destruct (lower (pw a) (pw b) x) eqn:L.
    + exists a, b. repeat split; try assumption; lia.
    + exists b, b. repeat split; try lia.
      now apply (extra_is_first_layer (pw a)).
  - intros (a & b & Hba & Ha & L & Ey & Hn).
    assert (Hk := pw_pos b). assert (Hp := pw_pos a).
    destruct (loop_of_lower a b Hba (fst c) L) as (t & i & Ht & Hi & Ex & E).
    assert (H0 := lower_nonneg _ _ _ L).
    exists (Emit (pw a) (pw b) (Z.rem (pw b) (pw a) + 2 * pw b * t)
                 (Z.rem (pw b) (pw a) + 2 * pw b * t + i)
                 (Z.rem (pw b) (pw a) + 2 * pw b * t + i + pw b)).
    cbn [e_x e_y]. split.
    + destruct c as (x, y). cbn [fst snd] in *. f_equal; lia.
    + apply in_sweep. exists a, b. repeat split; try assumption.
      apply in_layer1; [assumption|]. exists t, i. cbv zeta.
      rewrite <- Ex.
      repeat split; try assumption; try lia.
      apply Z.eqb_eq. rewrite (quot_test a b Hba (fst c) H0). now apply Z.eqb_eq.
Qed.

Lemma network_ordered (n : Z) (c : Z * Z) :
  in_network n c -> 0 <= fst c < snd c /\ snd c < n.
Proof.
  intros (a & b & _ & _ & L & Ey & Hn).
  apply lower_nonneg in L. assert (Hk := pw_pos b). lia.
Qed.

(** ** Groups *)

Lemma span_disjoint (t : list emission) :
  (forall e, In e t -> in_span e) -> groups_disjoint t.
Proof.
  intros H e1 e2 H1 H2 (Ep & Ek & Ej) Hne Hsh.
  destruct (H e1 H1) as (i1 & u1 & Hi1 & Hu1 & Hkp1 & Ex1 & Ey1).
  destruct (H e2 H2) as (i2 & u2 & Hi2 & Hu2 & Hkp2 & Ex2 & Ey2).
  rewrite Ep, Ek, Ej in *.
  assert (Hx : e_x e1 <> e_x e2) by (intros E; apply Hne; f_equal; lia).
  destruct (Z.lt_trichotomy u1 u2) as [Hu|[Hu|Hu]];
    destruct Hsh as [E|[E|[E|E]]]; try lia; nia.
Qed.

Lemma sched2_span (n : Z) (e : emission) : In e (sched2 n) -> in_span e.
Proof.
  intros He. apply in_sweep in He. destruct He as (a & b & Hba & Ha & He).
  assert (Hk := pw_pos b). assert (Hp := pw_pos a).
  assert (Hkp := @pw_le_mono b a Hba).
  apply in_layer2 in He; [|assumption|assumption].
  destruct He as (t & i & u & Ht & Hi & Hu & Hj & Hm & ->).
  exists i, u. cbn [e_p e_k e_j e_x e_y]. repeat split; try assumption; lia.
Qed.

Lemma sched3_span (n : Z) (e : emission) : In e (sched3 n) -> in_span e.
Proof.
  intros He. apply in_sweep in He. destruct He as (a & b & Hba & Ha & He).
  assert (Hk := pw_pos b). assert (Hkp := @pw_le_mono b a Hba).
  apply in_layer3 in He; [|assumption].
  destruct He as (t & i & Ht & Hi & Hn & _ & ->).
  exists i, 0. cbn [e_p e_k e_j e_x e_y]. repeat split; try assumption; lia.
Qed.

Lemma sched4_span (n : Z) (e : emission) : In e (sched4 n) -> in_span e.
Proof.
  intros He. apply in_sweep in He. destruct He as (a & b & Hba & Ha & He).
  assert (Hk := pw_pos b). assert (Hkp := @pw_le_mono b a Hba).
  apply in_layer4 in He; [|assumption].
  destruct He as (t & i & Ht & Hi & Hn & _ & ->).
  exists i, 0. cbn [e_p e_k e_j e_x e_y]. repeat split; try assumption; lia.
Qed.

Lemma sched1_chained (n : Z) : groups_chained (sched1 n).
Proof.
  intros e1 e2 H1 H2 (Ep & Ek & Ej) Hne Hsh.
  assert (G : forall e, In e (sched1 n) -> e_y e = e_x e + e_k e).
  { intros e He. apply in_sweep in He.
    destruct He as (a & b & Hba & Ha & He).
    apply in_layer1 in He; [|apply pw_pos].
    destruct He as (t & i & _ & _ & _ & _ & ->). reflexivity. }
  assert (E1 := G e1 H1). assert (E2 := G e2 H2).
  assert (Hx : e_x e1 <> e_x e2) by (intros E; apply Hne; f_equal; lia).
  destruct Hsh as [E|[E|[E|E]]]; lia.
Qed.

(** ** The bit tests of listing 4 *)

Lemma lor_test_quot (a b : nat) (t i : Z) :
  (b <= a)%nat -> 0 <= t -> 0 <= i < pw b ->
  let j := Z.land (pw b) (pw a - 1) + 2 * pw b * t in
  (Z.lor j (2 * pw a - 1) =? Z.lor (j + pw b) (2 * pw a - 1))
  = (Z.quot (j + i) (pw a + pw a) =? Z.quot (j + i + pw b) (pw a + pw a)).
Proof.
  intros Hba Ht Hi j. unfold j. rewrite land_pw.
  assert (Hk := pw_pos b).
  assert (Hj0 := rem_pw_nonneg a (a - b)).
  replace (a - (a - b))%nat with b in Hj0 by lia.
  rewrite (quot_test a b Hba) by nia.
  assert (H1 := lor_test_pw a (Z.rem (pw b) (pw a) + 2 * pw b * t)
                            (Z.rem (pw b) (pw a) + 2 * pw b * t + pw b)).
  assert (H2 := block_test_shift a b Hba t i Hi). cbv zeta in H2.
  destruct (Z.eqb_spec (Z.lor (Z.rem (pw b) (pw a) + 2 * pw b * t) (2 * pw a - 1))
                       (Z.lor (Z.rem (pw b) (pw a) + 2 * pw b * t + pw b)
                              (2 * pw a - 1))) as [E|E];
    destruct (Z.eqb_spec ((Z.rem (pw b) (pw a) + 2 * pw b * t + i) / (2 * pw a))
                         ((Z.rem (pw b) (pw a) + 2 * pw b * t + i + pw b)
                          / (2 * pw a))) as [E'|E'];
    try reflexivity; tauto.
Qed.

(** ** No signed overflow up to [2^30] elements *)

Lemma phase_bound (a : nat) (n : Z) :
  pw a < n -> n <= 2 ^ 30 -> 2 * pw a <= 2 ^ 30.
Proof.
  intros Ha Hn.
  destruct (Nat.le_gt_cases 30 a) as [H|H].
  - apply pw_le_mono in H. change (pw 30) with (2 ^ 30) in H. lia.
  - rewrite <- pw_S. change (2 ^ 30) with (pw 30). apply pw_le_mono. lia.
Qed.

Lemma sched1_fits (n : Z) (e : emission) :
  n <= 2 ^ 30 -> In e (sched1 n) -> fits_int e.
Proof.
  intros Hn He. apply in_sweep in He. destruct He as (a & b & Hba & Ha & He).
  assert (Hk := pw_pos b). assert (Hkp := @pw_le_mono b a Hba).
  assert (Hp := phase_bound a n Ha Hn).
  assert (Hj0 := rem_pw_nonneg a (a - b)).
  replace (a - (a - b))%nat with b in Hj0 by lia.
  apply in_layer1 in He; [|assumption].
  destruct He as (t & i & Ht & Hi & Hj & _ & ->).
  unfold fits_int. cbn [e_p e_k e_j e_x e_y]. repeat split; nia.
Qed.

Lemma sched2_fits (n : Z) (e : emission) :
  n <= 2 ^ 30 -> In e (sched2 n) -> fits_int e.
Proof.
  intros Hn He. apply in_sweep in He. destruct He as (a & b & Hba & Ha & He).
  assert (Hk := pw_pos b). assert (Hkp := @pw_le_mono b a Hba).
  assert (Hp := phase_bound a n Ha Hn).
  assert (Hj0 := rem_pw_nonneg a (a - b)).
  replace (a - (a - b))%nat with b in Hj0 by lia.
  apply in_layer2 in He; [|assumption|lia].
  destruct He as (t & i & u & Ht & Hi & Hu & Hj & Hm & ->).
  unfold fits_int. cbn [e_p e_k e_j e_x e_y]. repeat split; nia.
Qed.

Lemma sched3_fits (n : Z) (e : emission) :
  n <= 2 ^ 30 -> In e (sched3 n) -> fits_int e.
Proof.
  intros Hn He. apply in_sweep in He. destruct He as (a & b & Hba & Ha & He).
  assert (Hk := pw_pos b). assert (Hkp := @pw_le_mono b a Hba).
  assert (Hp := phase_bound a n Ha Hn).
  assert (Hj0 := rem_pw_nonneg a (a - b)).
  replace (a - (a - b))%nat with b in Hj0 by lia.
  apply in_layer3 in He; [|assumption].
  destruct He as (t & i & Ht & Hi & Hj & _ & ->).
  unfold fits_int. cbn [e_p e_k e_j e_x e_y]. repeat split; nia.
Qed.

Lemma sched4_fits (n : Z) (e : emission) :
  n <= 2 ^ 30 -> In e (sched4 n) -> fits_int e.
Proof.
  intros Hn He. apply in_sweep in He. destruct He as (a & b & Hba & Ha & He).
  assert (Hk := pw_pos b). assert (Hkp := @pw_le_mono b a Hba).
  assert (Hp := phase_bound a n Ha Hn).
  assert (Hj0 : 0 <= Z.land (pw b) (pw a - 1))
    by (apply Z.land_nonneg; lia).
  apply in_layer4 in He; [|assumption].
  destruct He as (t & i & Ht & Hi & Hj & _ & ->).
  unfold fits_int. cbn [e_p e_k e_j e_x e_y]. repeat split; nia.
Qed.

(** ** Listing 4 against listings 3 and 1 *)

Lemma flat_map_eq_in {X Y : Type} (f g : X -> list Y) (l : list X) :
  (forall x, In x l -> f x = g x) -> flat_map f l = flat_map g l.
Proof.
  induction l as [|x l IH]; intros H; cbn [flat_map]; [reflexivity|].
  rewrite (H x (or_introl eq_refl)), IH; [reflexivity|].
  intros y Hy. apply H. now right.
Qed.

Lemma flat_map_guard {X Y : Type} (c : bool) (f : X -> Y) (l : list X) :
  flat_map (fun x => if c then [f x] else []) l = if c then map f l else [].
Proof.
  destruct c; [apply flat_map_single|].
  induction l as [|x l IH]; [reflexivity|exact IH].
Qed.

Lemma layer3_layer4 (n : Z) (a b : nat) :
  (b <= a)%nat -> layer3 n (pw a) (pw b) = layer4 n (pw a) (pw b).
Proof.
  intros Hba. assert (Hk := pw_pos b).
  unfold layer3, layer4. rewrite <- (land_pw a b).
  apply flat_map_eq_in. intros j Hj.
  apply in_upto in Hj; [|lia]. destruct Hj as (t & Ht & -> & _).
  unfold group3, group4. rewrite <- flat_map_guard.
  apply flat_map_eq_in. intros i' Hi'. apply in_downfrom in Hi'.
  assert (Hi : 0 <= i' - 1 < pw b) by lia.
  assert (Hq := lor_test_quot a b t (i' - 1) Hba Ht Hi). cbv zeta in Hq.
  replace (pw a + pw a) with (2 * pw a) in Hq by lia.
  cbv zeta. rewrite <- Hq. reflexivity.
Qed.

Lemma sched3_sched4 (n : Z) : sched3 n = sched4 n.
Proof.
  unfold sched3, sched4, sweep. apply flat_map_eq_in. intros a _.
  apply flat_map_eq_in. intros i Hi. apply in_seq in Hi.
  apply layer3_layer4. lia.
Qed.

Lemma layer3_in_layer1 (n : Z) (a b : nat) (e : emission) :
  In e (layer3 n (pw a) (pw b)) -> In e (layer1 n (pw a) (pw b)).
Proof.
  assert (Hk := pw_pos b). intros He.
  apply in_layer3 in He; [|assumption].
  destruct He as (t & i & Ht & Hi & Hn & E & ->).
  apply in_layer1; [assumption|]. exists t, i.
  replace (pw a + pw a) with (2 * pw a) by lia.
  repeat split; try assumption; lia.
Qed.

Lemma sched4_in_sched1 (n : Z) (e : emission) :
  In e (sched4 n) -> In e (sched1 n).
Proof.
  rewrite <- sched3_sched4. intros He. apply in_sweep in He.
  destruct He as (a & b & Hba & Ha & He). apply in_sweep.
  exists a, b. split; [assumption|]. split; [assumption|].
  now apply layer3_in_layer1.
Qed.

Lemma sched1_low_in_sched4 (n : Z) (e : emission) :
  In e (sched1 n) -> e_x e - e_j e < e_k e -> In e (sched4 n).
Proof.
  rewrite <- sched3_sched4. intros He Hlow. apply in_sweep in He.
  destruct He as (a & b & Hba & Ha & He). apply in_sweep.
  exists a, b. split; [assumption|]. split; [assumption|].
  assert (Hk := pw_pos b).
  apply in_layer1 in He; [|assumption].
  destruct He as (t & i & Ht & Hi & Hn & E & ->).
  cbn [e_x e_j e_k] in Hlow.
  apply in_layer3; [assumption|]. exists t, i.
  replace (2 * pw a) with (pw a + pw a) by lia.
  repeat split; try assumption; lia.
Qed.

(** * The listings in [int] arithmetic

    Up to [n <= 2^30] no arithmetic operation of a listing leaves the
    range of [int], and the run in [int] arithmetic is the run of the
    listing over the integers; at [n = 2^30 + 1] every listing reaches
    the phase [p = 2^30], in which it computes [2p]. *)

Lemma checked_ok (z : Z) : - 2 ^ 31 <= z < 2 ^ 31 -> checked z = Some z.
Proof.
  intros H. unfold checked, in_int, int_min, int_max.
  destruct (Z.leb_spec (- 2 ^ 31) z); [|lia].
  destruct (Z.leb_spec z (2 ^ 31 - 1)); [reflexivity|lia].
Qed.

Lemma checked_overflow (z : Z) : 2 ^ 31 <= z -> checked z = None.
Proof.
  intros H. unfold checked, in_int, int_min, int_max.
  destruct (Z.leb_spec z (2 ^ 31 - 1)); [lia|].
  now rewrite andb_false_r.
Qed.

Lemma iadd_ok (a b : Z) : - 2 ^ 31 <= a + b < 2 ^ 31 -> iadd a b = Some (a + b).
Proof. apply checked_ok. Qed.

Lemma isub_ok (a b : Z) : - 2 ^ 31 <= a - b < 2 ^ 31 -> isub a b = Some (a - b).
Proof. apply checked_ok. Qed.

Lemma imul_ok (a b : Z) : - 2 ^ 31 <= a * b < 2 ^ 31 -> imul a b = Some (a * b).
Proof. apply checked_ok. Qed.

Lemma idiv_ok (a b : Z) :
  0 <= a < 2 ^ 31 -> 0 < b -> idiv a b = Some (Z.quot a b).
Proof.
  intros Ha Hb. unfold idiv. destruct (Z.eqb_spec b 0); [lia|].
  apply checked_ok. rewrite Z.quot_div_nonneg by lia.
  assert (0 <= a / b) by (apply Z.div_pos; lia).
  assert (a / b <= a) by (apply Z.div_le_upper_bound; nia). lia.
Qed.

Lemma irem_ok (a b : Z) :
  0 <= a < 2 ^ 31 -> 0 < b -> irem a b = Some (Z.rem a b).
Proof.
  intros Ha Hb. unfold irem. destruct (Z.eqb_spec b 0); [lia|].
  destruct (Z.eqb_spec b (-1)); [lia|]. rewrite andb_false_r.
  apply checked_ok. rewrite Z.rem_mod_nonneg by lia.
  assert (H := Z.mod_pos_bound a b Hb).
  assert (a mod b <= a) by (apply Z.mod_le; lia). lia.
Qed.

(** A loop in [int] arithmetic is the loop over the integers as long as
    its test, step and body are, on the values the loop variable takes. *)
Lemma for_loop_int_sim {S : Type} (I : Z -> Prop)
      (cond : Z -> bool) (step : Z -> Z) (body : Z -> S -> result S)
      (cond' : Z -> option bool) (step' : Z -> option Z)
      (body' : Z -> S -> option (result S)) :
  (forall x, I x -> cond' x = Some (cond x)) ->
  (forall x, I x -> cond x = true -> step' x = Some (step x) /\ I (step x)) ->
  (forall x s, I x -> cond x = true -> body' x s = Some (body x s)) ->
  forall fuel x s,
    I x ->
    for_loop_int fuel cond' step' body' x s
    = Some (for_loop fuel cond step body x s).
Proof.
  intros Hc Hs Hb fuel. induction fuel as [|fuel IH]; intros x s Hx;
    [reflexivity|].
  cbn [for_loop_int for_loop]. rewrite (Hc x Hx).
  destruct (cond x) eqn:E; [|reflexivity].
  rewrite (Hb x s Hx E). destruct (Hs x Hx E) as (Es & Hx').
  destruct (body x s) as [s'| |]; cbn [bind]; try reflexivity.
  rewrite Es. now apply IH.
Qed.

(** A loop whose variable reaches a value at which the test or the body
    has no result in [int] arithmetic does not return. *)
Lemma for_loop_int_stuck {S : Type} (cond : Z -> option bool)
      (step : Z -> option Z) (body : Z -> S -> option (result S))
      (v : nat -> Z) (m : nat) :
  (forall i, (i < m)%nat ->
             cond (v i) = Some true /\ step (v i) = Some (v (Datatypes.S i))) ->
  (cond (v m) = None \/
   (cond (v m) = Some true /\ forall s s', body (v m) s <> Some (Ok s'))) ->
  forall fuel i s s',
    (i <= m)%nat ->
    for_loop_int fuel cond step body (v i) s <> Some (Ok s').
Proof.
  intros Hs Hm fuel. induction fuel as [|fuel IH]; intros i s s' Hi;
    [discriminate|].
  cbn [for_loop_int].
  destruct (Nat.eq_dec i m) as [->|Hne].
  - destruct Hm as [Hm|(Hm & Hb)]; rewrite Hm; [discriminate|].
    specialize (Hb s). destruct (body (v m) s) as [[s1| |]|];
      try discriminate.
    exfalso. now apply (Hb s1).
  - destruct (Hs i ltac:(lia)) as (Ec & Es). rewrite Ec.
    destruct (body (v i) s) as [[s1| |]|]; try discriminate.
    rewrite Es. apply IH. lia.
Qed.

Lemma quot2_bounds (k : Z) : 0 <= k -> 0 <= Z.quot k 2 <= k.
Proof.
  intros H. rewrite Z.quot_div_nonneg by lia. Z.div_mod_to_equations. lia.
Qed.

Ltac int_ok :=
  cbn [obind];
  repeat (first
            [ rewrite iadd_ok by lia
            | rewrite isub_ok by lia
            | rewrite imul_ok by lia
            | rewrite idiv_ok by lia
            | rewrite irem_ok by lia ];
          cbn [obind]).

Section IntExact.

Context {S : Type} (emit : Z -> Z -> Z -> Z -> Z -> S -> result S).
Variable n : Z.
Hypothesis Hn : n <= 2 ^ 30.

Lemma listing1_int_exact (fuel : nat) (s : S) :
  listing1_int emit fuel n s = Some (listing1 emit fuel n s).
Proof.
  unfold listing1_int, listing1.
  apply (for_loop_int_sim (fun p => exists a, p = pw a)).
  - reflexivity.
  - intros p (a & ->) Hc. apply Z.ltb_lt in Hc.
    assert (Hp2 := phase_bound a n Hc Hn). assert (Hp := pw_pos a).
    split; [now int_ok|]. exists (Datatypes.S a). rewrite pw_S. lia.
  - intros p s0 (a & ->) Hc. apply Z.ltb_lt in Hc.
    assert (Hp2 := phase_bound a n Hc Hn). assert (Hp := pw_pos a).
    apply (for_loop_int_sim (fun k => 0 <= k <= pw a)); [reflexivity| | |lia].
    + intros k Hk Hc2. apply Z.gtb_lt in Hc2.
      assert (Hq := quot2_bounds k ltac:(lia)).
      split; [now int_ok|lia].
    + intros k s1 Hk Hc2. apply Z.gtb_lt in Hc2.
      assert (Hr := Z.rem_bound_pos k (pw a) ltac:(lia) Hp).
      int_ok.
      apply (for_loop_int_sim (fun j => 0 <= j < n + k)); [| | |lia].
      * intros j Hj. now int_ok.
      * intros j Hj Hc3. apply Z.ltb_lt in Hc3. int_ok. split; [reflexivity|lia].
      * intros j s2 Hj Hc3. apply Z.ltb_lt in Hc3.
        apply (for_loop_int_sim (fun i => 0 <= i <= n)); [| | |lia].
        -- intros i Hi. now int_ok.
        -- intros i Hi Hc4. apply Z.ltb_lt in Hc4. int_ok.
           split; [reflexivity|lia].
        -- intros i s3 Hi Hc4. apply Z.ltb_lt in Hc4. int_ok.
           now destruct (_ =? _).
  - exists 0%nat. reflexivity.
Qed.

Lemma listing2_int_exact (fuel : nat) (s : S) :
  listing2_int emit fuel n s = Some (listing2 emit fuel n s).
Proof.
  unfold listing2_int, listing2.
  apply (for_loop_int_sim (fun p => exists a, p = pw a)).
  - reflexivity.
  - intros p (a & ->) Hc. apply Z.ltb_lt in Hc.
    assert (Hp2 := phase_bound a n Hc Hn). assert (Hp := pw_pos a).
    split; [now int_ok|]. exists (Datatypes.S a). rewrite pw_S. lia.
  - intros p s0 (a & ->) Hc. apply Z.ltb_lt in Hc.
    assert (Hp2 := phase_bound a n Hc Hn). assert (Hp := pw_pos a).
    apply (for_loop_int_sim (fun k => 0 <= k <= pw a)); [reflexivity| | |lia].
    + intros k Hk Hc2. apply Z.gtb_lt in Hc2.
      assert (Hq := quot2_bounds k ltac:(lia)).
      split; [now int_ok|lia].
    + intros k s1 Hk Hc2. apply Z.gtb_lt in Hc2.
      assert (Hr := Z.rem_bound_pos k (pw a) ltac:(lia) Hp).
      int_ok.
      apply (for_loop_int_sim (fun j => 0 <= j < 2 * pw a + k)); [| | |lia].
      * intros j Hj. now int_ok.
      * intros j Hj Hc3. apply Z.ltb_lt in Hc3. int_ok. split; [reflexivity|lia].
      * intros j s2 Hj Hc3. apply Z.ltb_lt in Hc3.
        apply (for_loop_int_sim (fun i => 0 <= i <= k)); [reflexivity| | |lia].
        -- intros i Hi Hc4. apply Z.ltb_lt in Hc4. int_ok.
           split; [reflexivity|lia].
        -- intros i s3 Hi Hc4. apply Z.ltb_lt in Hc4. int_ok.
           apply (for_loop_int_sim (fun m => 0 <= m < n + 2 * pw a));
             [| | |lia].
           ++ intros m Hm. now int_ok.
           ++ intros m Hm Hc5. apply Z.ltb_lt in Hc5. int_ok.
              split; [reflexivity|lia].
           ++ intros m s4 Hm Hc5. apply Z.ltb_lt in Hc5. now int_ok.
  - exists 0%nat. reflexivity.
Qed.

Lemma listing3_int_exact (fuel : nat) (s : S) :
  listing3_int emit fuel n s = Some (listing3 emit fuel n s).
Proof.
  unfold listing3_int, listing3.
  apply (for_loop_int_sim (fun p => exists a, p = pw a)).
  - reflexivity.
  - intros p (a & ->) Hc. apply Z.ltb_lt in Hc.
    assert (Hp2 := phase_bound a n Hc Hn). assert (Hp := pw_pos a).
    split; [now int_ok|]. exists (Datatypes.S a). rewrite pw_S. lia.
  - intros p s0 (a & ->) Hc. apply Z.ltb_lt in Hc.
    assert (Hp2 := phase_bound a n Hc Hn). assert (Hp := pw_pos a).
    apply (for_loop_int_sim (fun k => 0 <= k <= pw a)); [reflexivity| | |lia].
    + intros k Hk Hc2. apply Z.gtb_lt in Hc2.
      assert (Hq := quot2_bounds k ltac:(lia)).
      split; [now int_ok|lia].
    + intros k s1 Hk Hc2. apply Z.gtb_lt in Hc2.
      assert (Hr := Z.rem_bound_pos k (pw a) ltac:(lia) Hp).
      int_ok.
      apply (for_loop_int_sim (fun j => 0 <= j < n + k)); [| | |lia].
      * intros j Hj. now int_ok.
      * intros j Hj Hc3. apply Z.ltb_lt in Hc3. int_ok. split; [reflexivity|lia].
      * intros j s2 Hj Hc3. apply Z.ltb_lt in Hc3. int_ok.
        apply (for_loop_int_sim (fun i => 0 <= i <= k)); [| | |lia].
        -- intros i Hi. now int_ok.
        -- intros i Hi Hc4. destruct (Z.eqb_spec i 0); [discriminate|].
           int_ok. split; [reflexivity|lia].
        -- intros i s3 Hi Hc4. destruct (Z.eqb_spec i 0); [discriminate|].
           int_ok. cbv zeta. now destruct (_ =? _).
  - exists 0%nat. reflexivity.
Qed.

Lemma land_mask_bounds (k : Z) (a : nat) :
  0 <= Z.land k (pw a - 1) < pw a.
Proof.
  assert (Hp := pw_pos a).
  replace (pw a - 1) with (Z.ones (Z.of_nat a))
    by (rewrite Z.ones_equiv; unfold pw; lia).
  rewrite Z.land_ones by lia. apply Z.mod_pos_bound. exact Hp.
Qed.

Lemma listing4_int_exact (fuel : nat) (s : S) :
  listing4_int emit fuel n s = Some (listing4 emit fuel n s).
Proof.
  unfold listing4_int, listing4.
  apply (for_loop_int_sim (fun p => exists a, p = pw a)).
  - reflexivity.
  - intros p (a & ->) Hc. apply Z.ltb_lt in Hc.
    assert (Hp2 := phase_bound a n Hc Hn). assert (Hp := pw_pos a).
    split; [now int_ok|]. exists (Datatypes.S a). rewrite pw_S. lia.
  - intros p s0 (a & ->) Hc. apply Z.ltb_lt in Hc.
    assert (Hp2 := phase_bound a n Hc Hn). assert (Hp := pw_pos a).
    apply (for_loop_int_sim (fun k => 0 <= k <= pw a)); [reflexivity| | |lia].
    + intros k Hk Hc2. apply Z.gtb_lt in Hc2.
      assert (Hq := quot2_bounds k ltac:(lia)).
      split; [now int_ok|lia].
    + intros k s1 Hk Hc2. apply Z.gtb_lt in Hc2.
      assert (Hl := land_mask_bounds k a).
      int_ok.
      apply (for_loop_int_sim (fun j => 0 <= j < n + k)); [| | |lia].
      * intros j Hj. now int_ok.
      * intros j Hj Hc3. apply Z.ltb_lt in Hc3. int_ok. split; [reflexivity|lia].
      * intros j s2 Hj Hc3. apply Z.ltb_lt in Hc3. int_ok.
        destruct (_ =? _); [|reflexivity]. int_ok.
        apply (for_loop_int_sim (fun i => 0 <= i <= k)); [| | |lia].
        -- intros i Hi. now int_ok.
        -- intros i Hi Hc4. destruct (Z.eqb_spec i 0); [discriminate|].
           int_ok. split; [reflexivity|lia].
        -- intros i s3 Hi Hc4. destruct (Z.eqb_spec i 0); [discriminate|].
           now int_ok.
  - exists 0%nat. reflexivity.
Qed.

End IntExact.

(** ** The first size beyond the range: [n = 2^30 + 1] *)

Lemma for_loop_int_stuck_now {S : Type} (cond : Z -> option bool)
      (step : Z -> option Z) (body : Z -> S -> option (result S)) (x : Z) :
  (cond x = None \/
   (cond x = Some true /\ forall s s', body x s <> Some (Ok s'))) ->
  forall fuel s s', for_loop_int fuel cond step body x s <> Some (Ok s').
Proof.
  intros H fuel s s'.
  apply (for_loop_int_stuck cond step body (fun _ => x) 0
                            ltac:(intros i Hi; lia) H fuel 0%nat s s' (le_n 0)).
Qed.

Lemma phase_loop_reaches {S : Type} (step : Z -> option Z)
      (body : Z -> S -> option (result S)) :
  (forall a, (a < 30)%nat -> step (pw a) = Some (pw (Datatypes.S a))) ->
  (forall s s', body (2 ^ 30) s <> Some (Ok s')) ->
  forall fuel s s',
    for_loop_int fuel (fun p => Some (p <? 2 ^ 30 + 1)) step body 1 s
    <> Some (Ok s').
Proof.
  intros Hs Hb fuel s s'.
  set (cond := fun p => Some (p <? 2 ^ 30 + 1)).
  assert (H1 : forall a, (a < 30)%nat ->
                 cond (pw a) = Some true /\
                 step (pw a) = Some (pw (Datatypes.S a))).
  { intros a Ha. split; [|now apply Hs].
    assert (H := @pw_le_mono a 29 ltac:(lia)).
    assert (E : pw 29 = 2 ^ 29) by reflexivity.
    unfold cond. f_equal. apply Z.ltb_lt. lia. }
  assert (H2 : cond (pw 30) = None \/
               (cond (pw 30) = Some true /\
                forall s s', body (pw 30) s <> Some (Ok s'))).
  { right. split; [reflexivity|exact Hb]. }
  exact (for_loop_int_stuck cond step body (fun a => pw a) 30 H1 H2
                            fuel 0%nat s s' (Nat.le_0_l 30)).
Qed.

Lemma phase_step_add (a : nat) :
  (a < 30)%nat -> iadd (pw a) (pw a) = Some (pw (Datatypes.S a)).
Proof.
  intros Ha. assert (H := @pw_le_mono a 29 ltac:(lia)).
  assert (E : pw 29 = 2 ^ 29) by reflexivity. assert (Hp := pw_pos a).
  rewrite iadd_ok by lia. f_equal. rewrite pw_S. lia.
Qed.

Lemma phase_step_mul (a : nat) :
  (a < 30)%nat -> imul (pw a) 2 = Some (pw (Datatypes.S a)).
Proof.
  intros Ha. assert (H := @pw_le_mono a 29 ltac:(lia)).
  assert (E : pw 29 = 2 ^ 29) by reflexivity. assert (Hp := pw_pos a).
  rewrite imul_ok by lia. f_equal. rewrite pw_S. lia.
Qed.

Section IntOverflow.

Context {S : Type} (emit : Z -> Z -> Z -> Z -> Z -> S -> result S).

Lemma listing1_int_overflow (fuel : nat) (s s' : S) :
  listing1_int emit fuel (2 ^ 30 + 1) s <> Some (Ok s').
Proof.
  unfold listing1_int. apply phase_loop_reaches; [apply phase_step_add|].
  clear. intros s s'. apply for_loop_int_stuck_now. right.
  split; [reflexivity|]. clear. intros s s'.
  rewrite irem_ok by lia. cbn [obind]. rewrite Z.rem_same by lia.
  apply for_loop_int_stuck_now. right. split; [reflexivity|]. clear.
  intros s s'. apply for_loop_int_stuck_now. right.
  split; [reflexivity|]. clear. intros s s'. discriminate.
Qed.

Lemma listing2_int_overflow (fuel : nat) (s s' : S) :
  listing2_int emit fuel (2 ^ 30 + 1) s <> Some (Ok s').
Proof.
  unfold listing2_int. apply phase_loop_reaches; [apply phase_step_mul|].
  clear. intros s s'. apply for_loop_int_stuck_now. right.
  split; [reflexivity|]. clear. intros s s'.
  rewrite irem_ok by lia. cbn [obind]. rewrite Z.rem_same by lia.
  apply for_loop_int_stuck_now. left. reflexivity.
Qed.

Lemma listing3_int_overflow (fuel : nat) (s s' : S) :
  listing3_int emit fuel (2 ^ 30 + 1) s <> Some (Ok s').
Proof.
  unfold listing3_int. apply phase_loop_reaches; [apply phase_step_mul|].
  clear. intros s s'. apply for_loop_int_stuck_now. right.
  split; [reflexivity|]. clear. intros s s'.
  rewrite irem_ok by lia. cbn [obind]. rewrite Z.rem_same by lia.
  apply for_loop_int_stuck_now. right. split; [reflexivity|]. clear.
  intros s s'. rewrite !isub_ok by lia. cbn [obind].
  apply for_loop_int_stuck_now. right.
  split; [reflexivity|]. clear. intros s s'. discriminate.
Qed.

Lemma listing4_int_overflow (fuel : nat) (s s' : S) :
  listing4_int emit fuel (2 ^ 30 + 1) s <> Some (Ok s').
Proof.
  unfold listing4_int. apply phase_loop_reaches; [apply phase_step_mul|].
  clear. intros s s'. apply for_loop_int_stuck_now. right.
  split; [reflexivity|]. clear. intros s s'.
  rewrite isub_ok by lia. cbn [obind].
  apply for_loop_int_stuck_now. right. split; [reflexivity|]. clear.
  intros s s'. discriminate.
Qed.

End IntOverflow.

(** ** The sorts and the recorded schedules up to [n <= 2^30] *)

Lemma sortListing1_int_exact (fuel : nat) (A : list Z) (n : Z) :
  n <= 2 ^ 30 -> sortListing1_int fuel A n = Some (sortListing1 fuel A n).
Proof. intros Hn. now apply listing1_int_exact. Qed.

Lemma sortListing2_int_exact (fuel : nat) (A : list Z) (n : Z) :
  n <= 2 ^ 30 -> sortListing2_int fuel A n = Some (sortListing2 fuel A n).
Proof. intros Hn. now apply listing2_int_exact. Qed.

Lemma sortListing3_int_exact (fuel : nat) (A : list Z) (n : Z) :
  n <= 2 ^ 30 -> sortListing3_int fuel A n = Some (sortListing3 fuel A n).
Proof. intros Hn. now apply listing3_int_exact. Qed.

Lemma sortListing4_int_exact (fuel : nat) (A : list Z) (n : Z) :
  n <= 2 ^ 30 -> sortListing4_int fuel A n = Some (sortListing4 fuel A n).
Proof. intros Hn. now apply listing4_int_exact. Qed.

Lemma trace1_int_exact (fuel : nat) (n : Z) :
  n <= 2 ^ 30 -> trace1_int fuel n = Some (trace1 fuel n).
Proof. intros Hn. now apply listing1_int_exact. Qed.

Lemma trace2_int_exact (fuel : nat) (n : Z) :
  n <= 2 ^ 30 -> trace2_int fuel n = Some (trace2 fuel n).
Proof. intros Hn. now apply listing2_int_exact. Qed.

Lemma trace3_int_exact (fuel : nat) (n : Z) :
  n <= 2 ^ 30 -> trace3_int fuel n = Some (trace3 fuel n).
Proof. intros Hn. now apply listing3_int_exact. Qed.

Lemma trace4_int_exact (fuel : nat) (n : Z) :
  n <= 2 ^ 30 -> trace4_int fuel n = Some (trace4 fuel n).
Proof. intros Hn. now apply listing4_int_exact. Qed.

Lemma index_safe_to_int (trace : nat -> Z -> result (list emission))
      (sort : nat -> list Z -> Z -> result (list Z))
      (trace' : nat -> Z -> option (result (list emission)))
      (sort' : nat -> list Z -> Z -> option (result (list Z)))
      (fuel : nat) (A : list Z) (n : Z) :
  trace' fuel n = Some (trace fuel n) ->
  sort' fuel A n = Some (sort fuel A n) ->
  index_safe trace sort fuel A n -> index_safe_int trace' sort' fuel A n.
Proof.
  intros Et Es (t & A' & E1 & Hr & E2 & E3).
  exists t, A'. rewrite Et, Es, E1. rewrite <- E2, E3.
  split; [reflexivity|]. split; [exact Hr|]. split; reflexivity.
Qed.

Lemma terminates_to_int (sort : nat -> list Z -> Z -> result (list Z))
      (sort' : nat -> list Z -> Z -> option (result (list Z)))
      (A : list Z) (n : Z) :
  (forall fuel, sort' fuel A n = Some (sort fuel A n)) ->
  terminates sort A n -> terminates_int sort' A n.
Proof.
  intros E (A' & H). exists A'. intros fuel Hf. rewrite E. f_equal.
  now apply H.
Qed.

(** * The claims of the specification *)

(** C1 (as stated). For [n = 2^30 + 1] no sequential sort returns: each
    of them reaches the phase [p = 2^30], where it computes [p + p] or
    [2 * p], outside the range of [int]. *)
Lemma C1_counterexample :
  ~ (exists fuel A A',
        sortListing1_int fuel A (2 ^ 30 + 1) = Some (Ok A') \/
        sortListing2_int fuel A (2 ^ 30 + 1) = Some (Ok A') \/
        sortListing3_int fuel A (2 ^ 30 + 1) = Some (Ok A') \/
        sortListing4_int fuel A (2 ^ 30 + 1) = Some (Ok A')).
Proof.
  intros (fuel & A & A' & [H|[H|[H|H]]]); revert H.
  - apply listing1_int_overflow.
  - apply listing2_int_overflow.
  - apply listing3_int_overflow.
  - apply listing4_int_overflow.
Qed.

(** C1 (amended). For every [n] with [0 <= n <= 2^30] and every array
    [A] of [n] integers, each of the four sequential sorts
    [sortListing1] .. [sortListing4], run in [int] arithmetic, returns
    the buffer it was given, still of [n] elements, in non-decreasing
    order: [output[i] <= output[j]] for all positions [i < j < n]. *)
Theorem C1_sorted_output (fuel : nat) (A : list Z) (n : Z) :
  n <= 2 ^ 30 -> len A = n -> (Z.to_nat n < fuel)%nat ->
  (exists A', sortListing1_int fuel A n = Some (Ok A') /\ len A' = n
              /\ nondecreasing n A') /\
  (exists A', sortListing2_int fuel A n = Some (Ok A') /\ len A' = n
              /\ nondecreasing n A') /\
  (exists A', sortListing3_int fuel A n = Some (Ok A') /\ len A' = n
              /\ nondecreasing n A') /\
  (exists A', sortListing4_int fuel A n = Some (Ok A') /\ len A' = n
              /\ nondecreasing n A').
Proof.
  intros Hn HA Hf.
  rewrite sortListing1_int_exact, sortListing2_int_exact,
    sortListing3_int_exact, sortListing4_int_exact by assumption.
  destruct (sortListing1_sorts fuel A n HA Hf) as (A1 & E1 & L1 & _ & S1).
  destruct (sortListing2_sorts fuel A n HA Hf) as (A2 & E2 & L2 & _ & S2).
  destruct (sortListing3_sorts fuel A n HA Hf) as (A3 & E3 & L3 & _ & S3).
  destruct (sortListing4_sorts fuel A n HA Hf) as (A4 & E4 & L4 & _ & S4).
  rewrite E1, E2, E3, E4.
  split; [|split; [|split]].
  - exists A1. auto using ascending_nondecreasing.
  - exists A2. auto using ascending_nondecreasing.
  - exists A3. auto using ascending_nondecreasing.
  - exists A4. auto using ascending_nondecreasing.
Qed.

(** Witness for C1: the array [[5,3,4,1,2]], with 6 units of fuel. *)
Lemma C1_sorted_output_witness :
  (5 <= 2 ^ 30 /\ len [5; 3; 4; 1; 2] = 5 /\ (Z.to_nat 5 < 6)%nat) /\
  (exists A', sortListing1_int 6 [5; 3; 4; 1; 2] 5 = Some (Ok A') /\ len A' = 5
              /\ nondecreasing 5 A') /\
  (exists A', sortListing2_int 6 [5; 3; 4; 1; 2] 5 = Some (Ok A') /\ len A' = 5
              /\ nondecreasing 5 A') /\
  (exists A', sortListing3_int 6 [5; 3; 4; 1; 2] 5 = Some (Ok A') /\ len A' = 5
              /\ nondecreasing 5 A') /\
  (exists A', sortListing4_int 6 [5; 3; 4; 1; 2] 5 = Some (Ok A') /\ len A' = 5
              /\ nondecreasing 5 A').
Proof.
  split.
  - split; [lia|]. split; [reflexivity|simpl; lia].
  - apply (C1_sorted_output 6 [5; 3; 4; 1; 2] 5);
      [lia|reflexivity|simpl; lia].
Defined.

(** C2 (as stated). For [n = 2^30 + 1] listing 1 returns no output, so
    none that is a permutation of the input: in the phase [p = 2^30] the
    test of its position loop computes [p + p]. *)
Lemma C2_counterexample :
  ~ (exists fuel A A',
        sortListing1_int fuel A (2 ^ 30 + 1) = Some (Ok A') /\
        Permutation A A').
Proof.
  intros (fuel & A & A' & H & _). revert H. apply listing1_int_overflow.
Qed.

(** C2 (amended). For every [n] with [0 <= n <= 2^30] and every array
    [A] of [n] integers the output of each sequential sort, run in [int]
    arithmetic, is a permutation of [A]; and a compare-exchange on
    indices [x < y] of an array either leaves the array unchanged or
    swaps exactly the values at [x] and [y], leaves every other position
    untouched, and afterwards [A[x] <= A[y]]. *)
Theorem C2_permutation (fuel : nat) (A : list Z) (n : Z) :
  n <= 2 ^ 30 -> len A = n -> (Z.to_nat n < fuel)%nat ->
  (exists A', sortListing1_int fuel A n = Some (Ok A') /\ Permutation A A') /\
  (exists A', sortListing2_int fuel A n = Some (Ok A') /\ Permutation A A') /\
  (exists A', sortListing3_int fuel A n = Some (Ok A') /\ Permutation A A') /\
  (exists A', sortListing4_int fuel A n = Some (Ok A') /\ Permutation A A') /\
  (forall x y B,
      0 <= x < y -> y < len B ->
      exists B' a b,
        compexch x y B = Ok B' /\
        (B' = B \/ (load B' x = load B y /\ load B' y = load B x)) /\
        (forall z, z <> x -> z <> y -> load B' z = load B z) /\
        load B' x = Some a /\ load B' y = Some b /\ a <= b).
Proof.
  intros Hn HA Hf.
  rewrite sortListing1_int_exact, sortListing2_int_exact,
    sortListing3_int_exact, sortListing4_int_exact by assumption.
  destruct (sortListing1_sorts fuel A n HA Hf) as (A1 & E1 & _ & P1 & _).
  destruct (sortListing2_sorts fuel A n HA Hf) as (A2 & E2 & _ & P2 & _).
  destruct (sortListing3_sorts fuel A n HA Hf) as (A3 & E3 & _ & P3 & _).
  destruct (sortListing4_sorts fuel A n HA Hf) as (A4 & E4 & _ & P4 & _).
  rewrite E1, E2, E3, E4.
  split; [eauto|]. split; [eauto|]. split; [eauto|]. split; [eauto|].
  intros x y B Hxy Hy.
  destruct (compexch_spec x y B Hxy Hy)
    as (B' & a & b & E & _ & _ & La & Lb & Hab & Hsw & Hrest).
  exists B', a, b. repeat split; assumption.
Qed.

(** Witness for C2: the array [[5,3,4,1,2]], with 6 units of fuel. *)
Lemma C2_permutation_witness :
  (5 <= 2 ^ 30 /\ len [5; 3; 4; 1; 2] = 5 /\ (Z.to_nat 5 < 6)%nat) /\
  exists A', sortListing1_int 6 [5; 3; 4; 1; 2] 5 = Some (Ok A')
             /\ Permutation [5; 3; 4; 1; 2] A'.
Proof.
  split.
  - split; [lia|]. split; [reflexivity|simpl; lia].
  - apply (C2_permutation 6 [5; 3; 4; 1; 2] 5); [lia|reflexivity|simpl; lia].
Defined.

(** C3 (as stated). For [n = 2^30 + 1] listings 2 and 4 produce no final
    array, identical or not: in the phase [p = 2^30] both compute
    [2 * p]. *)
Lemma C3_counterexample :
  ~ (exists fuel A A',
        sortListing2_int fuel A (2 ^ 30 + 1) = Some (Ok A') \/
        sortListing4_int fuel A (2 ^ 30 + 1) = Some (Ok A')).
Proof.
  intros (fuel & A & A' & [H|H]); revert H.
  - apply listing2_int_overflow.
  - apply listing4_int_overflow.
Qed.

(** C3 (amended). For every [n] with [0 <= n <= 2^30] and every array
    [A] of [n] integers the four sequential variants, run in [int]
    arithmetic, produce the identical final array; on the input
    [[5,3,4,1,2]] every one of them outputs [[1,2,3,4,5]]. *)
Theorem C3_variants_agree (fuel : nat) (A : list Z) (n : Z) :
  n <= 2 ^ 30 -> len A = n -> (Z.to_nat n < fuel)%nat ->
  (exists A', sortListing1_int fuel A n = Some (Ok A') /\
              sortListing2_int fuel A n = Some (Ok A') /\
              sortListing3_int fuel A n = Some (Ok A') /\
              sortListing4_int fuel A n = Some (Ok A')) /\
  sortListing1_int 6 [5; 3; 4; 1; 2] 5 = Some (Ok [1; 2; 3; 4; 5]) /\
  sortListing2_int 6 [5; 3; 4; 1; 2] 5 = Some (Ok [1; 2; 3; 4; 5]) /\
  sortListing3_int 6 [5; 3; 4; 1; 2] 5 = Some (Ok [1; 2; 3; 4; 5]) /\
  sortListing4_int 6 [5; 3; 4; 1; 2] 5 = Some (Ok [1; 2; 3; 4; 5]).
Proof.
  intros Hn HA Hf. split; [|repeat split; vm_compute; reflexivity].
  rewrite sortListing1_int_exact, sortListing2_int_exact,
    sortListing3_int_exact, sortListing4_int_exact by assumption.
  destruct (sortListing1_sorts fuel A n HA Hf) as (A1 & E1 & _ & P1 & S1).
  destruct (sortListing2_sorts fuel A n HA Hf) as (A2 & E2 & _ & P2 & S2).
  destruct (sortListing3_sorts fuel A n HA Hf) as (A3 & E3 & _ & P3 & S3).
  destruct (sortListing4_sorts fuel A n HA Hf) as (A4 & E4 & _ & P4 & S4).
  assert (A2 = A1)
    by (apply ascending_unique; try assumption;
        transitivity A; [now symmetry|assumption]).
  assert (A3 = A1)
    by (apply ascending_unique; try assumption;
        transitivity A; [now symmetry|assumption]).
  assert (A4 = A1)
    by (apply ascending_unique; try assumption;
        transitivity A; [now symmetry|assumption]).
  subst. exists A1. rewrite E1, E2, E3, E4. now repeat split.
Qed.

(** Witness for C3: the array [[9,4,7,1,8,2,6]], with 8 units of fuel. *)
Lemma C3_variants_agree_witness :
  (7 <= 2 ^ 30 /\ len [9; 4; 7; 1; 8; 2; 6] = 7 /\ (Z.to_nat 7 < 8)%nat) /\
  exists A', sortListing1_int 8 [9; 4; 7; 1; 8; 2; 6] 7 = Some (Ok A') /\
             sortListing2_int 8 [9; 4; 7; 1; 8; 2; 6] 7 = Some (Ok A') /\
             sortListing3_int 8 [9; 4; 7; 1; 8; 2; 6] 7 = Some (Ok A') /\
             sortListing4_int 8 [9; 4; 7; 1; 8; 2; 6] 7 = Some (Ok A').
Proof.
  split.
  - split; [lia|]. split; [reflexivity|simpl; lia].
  - apply (C3_variants_agree 8 [9; 4; 7; 1; 8; 2; 6] 7);
      [lia|reflexivity|simpl; lia].
Defined.

(** C4 (as stated). For [n = 2^30 + 1] the sweeps of listings 1 and 3 do
    not complete, so that they perform no set of compare-exchanges of a
    full sweep: the pair [(0, 2^30)] of the network belongs to the phase
    [p = 2^30], whose tests compute [p + p] and [2 * p]. *)
Lemma C4_counterexample :
  In (0, 2 ^ 30) (batcher (2 ^ 30 + 1)) /\
  ~ (exists fuel t,
        trace1_int fuel (2 ^ 30 + 1) = Some (Ok t) \/
        trace3_int fuel (2 ^ 30 + 1) = Some (Ok t)).
Proof.
  split.
  - apply in_batcher. exists 30%nat, 30%nat. cbn [fst snd].
    split; [lia|]. split; [reflexivity|]. split; [reflexivity|].
    split; [reflexivity|lia].
  - intros (fuel & t & [H|H]); revert H.
    + apply listing1_int_overflow.
    + apply listing3_int_overflow.
Qed.

(** C4 (amended). For every [n] with [0 <= n <= 2^30], the set of index
    pairs at which a sequential variant, run in [int] arithmetic,
    performs a compare-exchange during its full [(p,k,j,i)] sweep is
    exactly the comparator set of Batcher's odd-even merge network
    restricted to the indices below [n]; every such pair has its first
    index below its second, so that ordered and unordered pairs are the
    same sets; the set is the same for all four variants, although the
    order of the visits differs (already for [n = 5], between variants 2
    and 3). *)
Theorem C4_comparator_set (fuel : nat) (n : Z) :
  n <= 2 ^ 30 -> (Z.to_nat n < fuel)%nat ->
  (exists t, trace1_int fuel n = Some (Ok t) /\ same_set (pairs t) (batcher n)) /\
  (exists t, trace2_int fuel n = Some (Ok t) /\ same_set (pairs t) (batcher n)) /\
  (exists t, trace3_int fuel n = Some (Ok t) /\ same_set (pairs t) (batcher n)) /\
  (exists t, trace4_int fuel n = Some (Ok t) /\ same_set (pairs t) (batcher n)) /\
  (forall c, In c (batcher n) -> 0 <= fst c < snd c /\ snd c < n) /\
  (exists t2 t3, trace2_int 6 5 = Some (Ok t2) /\ trace3_int 6 5 = Some (Ok t3)
                 /\ pairs t2 <> pairs t3).
Proof.
  intros Hn Hf.
  rewrite trace1_int_exact, trace2_int_exact, trace3_int_exact,
    trace4_int_exact by assumption.
  split; [|split; [|split; [|split; [|split]]]].
  - exists (sched1 n). split; [f_equal; now apply trace1_sched|].
    intros c. now rewrite sched1_pairs, in_batcher.
  - exists (sched2 n). split; [f_equal; now apply trace2_sched|].
    intros c. rewrite in_batcher.
    apply (exact_pairs layer2 n c (layer2_exact n)).
  - exists (sched3 n). split; [f_equal; now apply trace3_sched|].
    intros c. rewrite in_batcher.
    apply (exact_pairs layer3 n c (layer3_exact n)).
  - exists (sched4 n). split; [f_equal; now apply trace4_sched|].
    intros c. rewrite in_batcher.
    apply (exact_pairs layer4 n c (layer4_exact n)).
  - intros c Hc. apply in_batcher in Hc. now apply network_ordered in Hc.
  - exists (sched2 5), (sched3 5).
    rewrite trace2_int_exact, trace3_int_exact by lia.
    split; [f_equal; apply trace2_sched; simpl; lia|].
    split; [f_equal; apply trace3_sched; simpl; lia|].
    vm_compute. discriminate.
Qed.

(** Witness for C4: [n = 5], with 6 units of fuel. *)
Lemma C4_comparator_set_witness :
  (5 <= 2 ^ 30 /\ (Z.to_nat 5 < 6)%nat) /\
  exists t, trace1_int 6 5 = Some (Ok t) /\ same_set (pairs t) (batcher 5).
Proof.
  split; [split; [lia|simpl; lia]|].
  apply (C4_comparator_set 6 5); [lia|simpl; lia].
Defined.

(** C5 (as stated). For [n = 6], [p = 2], [k = 1], [j = 3], [i = 1]
    the division test of listing 1 holds, [(3+1)/4 == (3+1+1)/4], and
    listing 1 compares positions 4 and 5, while the same-block test of
    listing 4 fails at that [j], [(3 | 3) <> (4 | 3)], and listing 4
    performs no compare-exchange under these [p], [k], [j]: under
    [p = 2], [k = 1] listing 1 performs four compare-exchanges and
    listing 4 one. *)
Lemma C5_counterexample :
  (1 <? 6 - 3 - 1) = true /\
  (Z.quot (3 + 1) (2 + 2) =? Z.quot (3 + 1 + 1) (2 + 2)) = true /\
  (Z.lor 3 (2 * 2 - 1) =? Z.lor (3 + 1) (2 * 2 - 1)) = false /\
  exists t1 t4,
    trace1_int 7 6 = Some (Ok t1) /\ trace4_int 7 6 = Some (Ok t4) /\
    In (Emit 2 1 3 4 5) t1 /\
    (forall e, In e t4 -> ~ (e_p e = 2 /\ e_k e = 1 /\ e_j e = 3)) /\
    length (filter (fun e => (e_p e =? 2) && (e_k e =? 1)) t1) = 4%nat /\
    length (filter (fun e => (e_p e =? 2) && (e_k e =? 1)) t4) = 1%nat.
Proof.
  split; [reflexivity|]. split; [reflexivity|]. split; [reflexivity|].
  exists (sched1 6), (sched4 6).
  rewrite trace1_int_exact, trace4_int_exact by lia.
  split; [f_equal; apply trace1_sched; simpl; lia|].
  split; [f_equal; apply trace4_sched; simpl; lia|].
  split; [vm_compute; tauto|].
  split; [|split; vm_compute; reflexivity].
  assert (F : forallb (fun e => negb ((e_p e =? 2) && (e_k e =? 1)
                                      && (e_j e =? 3))) (sched4 6) = true)
    by (vm_compute; reflexivity).
  intros e He (Ep & Ek & Ej).
  apply (proj1 (forallb_forall _ _) F) in He.
  rewrite Ep, Ek, Ej in He. discriminate He.
Qed.

(** C5 (amended). For [n <= 2^30] and [p] and [k] powers of two with
    [1 <= k <= p < n], as the doubling and halving loops produce them:
    [k & (p - 1)] equals [k % p]; at every block offset [j] of the [j]
    loop and every position [i < k], the positions that listings 3 and 4
    visit, the same-block test [(j | (2p-1)) == ((j+k) | (2p-1))] of
    listing 4 holds exactly when the division test
    [(j+i)/(p+p) == (j+i+k)/(p+p)] of listing 1 does.  Hence every
    compare-exchange of listing 4 is one of listing 1 under the same [p],
    [k] and [j], and every compare-exchange of listing 1 at a position
    [i < k] is one of listing 4; listing 1 also visits positions
    [i >= k], where the tests can differ.  Over the whole sweep the two
    listings perform the same comparator set, that of Batcher's
    network. *)
Theorem C5_bit_tests (a b : nat) (fuel : nat) (n : Z) :
  (b <= a)%nat -> pw a < n -> n <= 2 ^ 30 -> (Z.to_nat n < fuel)%nat ->
  let p := pw a in
  let k := pw b in
  Z.land k (p - 1) = Z.rem k p /\
  (forall t i,
      0 <= t -> 0 <= i < k ->
      let j := Z.land k (p - 1) + 2 * k * t in
      j + k < n ->
      (Z.lor j (2 * p - 1) =? Z.lor (j + k) (2 * p - 1))
      = (Z.quot (j + i) (p + p) =? Z.quot (j + i + k) (p + p))) /\
  exists t1 t4,
    trace1_int fuel n = Some (Ok t1) /\ trace4_int fuel n = Some (Ok t4) /\
    (forall e, In e t4 -> In e t1) /\
    (forall e, In e t1 -> e_x e - e_j e < e_k e -> In e t4) /\
    same_set (pairs t4) (pairs t1) /\
    same_set (pairs t4) (batcher n).
Proof.
  intros Hba Ha Hn Hf p k. split; [apply land_pw|].
  split; [intros t i Ht Hi j _; now apply lor_test_quot|].
  exists (sched1 n), (sched4 n).
  rewrite trace1_int_exact, trace4_int_exact by assumption.
  split; [f_equal; now apply trace1_sched|].
  split; [f_equal; now apply trace4_sched|].
  split; [apply sched4_in_sched1|]. split; [apply sched1_low_in_sched4|].
  split; intros c.
  - rewrite sched1_pairs. apply (exact_pairs layer4 n c (layer4_exact n)).
  - rewrite in_batcher. apply (exact_pairs layer4 n c (layer4_exact n)).
Qed.

(** Witness for C5: [n = 7], [p = 4], [k = 2]; the compare-exchange of
    positions 3 and 5 under [j = 2] is performed by both listings. *)
Lemma C5_bit_tests_witness :
  ((1 <= 2)%nat /\ pw 2 < 7 /\ 7 <= 2 ^ 30 /\ (Z.to_nat 7 < 8)%nat) /\
  exists t1 t4,
    trace1_int 8 7 = Some (Ok t1) /\ trace4_int 8 7 = Some (Ok t4) /\
    In (Emit 4 2 2 3 5) t4 /\ In (Emit 4 2 2 3 5) t1.
Proof.
  split.
  - split; [lia|]. split; [reflexivity|]. split; [lia|simpl; lia].
  - destruct (C5_bit_tests 2 1 8 7) as (_ & _ & t1 & t4 & E1 & E4 & I41 & _);
      [lia|reflexivity|lia|simpl; lia|].
    exists t1, t4. split; [exact E1|]. split; [exact E4|].
    assert (H4 : In (Emit 4 2 2 3 5) t4).
    { rewrite trace4_int_exact in E4 by lia.
      rewrite trace4_sched in E4 by (simpl; lia).
      injection E4 as <-. vm_compute. tauto. }
    split; [exact H4|apply I41, H4].
Defined.

(** C6 (as stated, for listing 1). On an input of size 16 listing 1 does
    not execute 63 compare-exchanges: it executes 280. *)
Lemma C6_counterexample :
  ~ (exists t, trace1 17 16 = Ok t /\ length t = 63%nat).
Proof.
  intros (t & E & L).
  rewrite trace1_sched in E by (simpl; lia). injection E as <-.
  vm_compute in L. discriminate.
Qed.

(** C6 (amended). On every input of size 16, in particular on the
    reverse-sorted one, the output of each sequential variant is fully
    ascending; variants 2, 3 and 4 execute 63 compare-exchanges, the size
    of Batcher's odd-even merge network for 16 elements; variant 1, whose
    position loop runs over the whole remaining span, executes 280. *)
Theorem C6_size_sixteen (fuel : nat) (A : list Z) :
  len A = 16 -> (Z.to_nat 16 < fuel)%nat ->
  ((exists A', sortListing1 fuel A 16 = Ok A' /\ nondecreasing 16 A') /\
   (exists A', sortListing2 fuel A 16 = Ok A' /\ nondecreasing 16 A') /\
   (exists A', sortListing3 fuel A 16 = Ok A' /\ nondecreasing 16 A') /\
   (exists A', sortListing4 fuel A 16 = Ok A' /\ nondecreasing 16 A')) /\
  (sortListing1 17 rev16 16 = Ok asc16 /\ sortListing2 17 rev16 16 = Ok asc16 /\
   sortListing3 17 rev16 16 = Ok asc16 /\ sortListing4 17 rev16 16 = Ok asc16) /\
  length (batcher 16) = 63%nat /\
  (exists t, trace2 fuel 16 = Ok t /\ length t = 63%nat) /\
  (exists t, trace3 fuel 16 = Ok t /\ length t = 63%nat) /\
  (exists t, trace4 fuel 16 = Ok t /\ length t = 63%nat) /\
  (exists t, trace1 fuel 16 = Ok t /\ length t = 280%nat).
Proof.
  intros HA Hf.
  destruct (sortListing1_sorts fuel A 16 HA Hf) as (A1 & E1 & L1 & _ & S1).
  destruct (sortListing2_sorts fuel A 16 HA Hf) as (A2 & E2 & L2 & _ & S2).
  destruct (sortListing3_sorts fuel A 16 HA Hf) as (A3 & E3 & L3 & _ & S3).
  destruct (sortListing4_sorts fuel A 16 HA Hf) as (A4 & E4 & L4 & _ & S4).
  split; [|split; [|split; [|split; [|split; [|split]]]]].
  - repeat split; eauto using ascending_nondecreasing.
  - repeat split; vm_compute; reflexivity.
  - vm_compute. reflexivity.
  - exists (sched2 16). split; [now apply trace2_sched|now vm_compute].
  - exists (sched3 16). split; [now apply trace3_sched|now vm_compute].
  - exists (sched4 16). split; [now apply trace4_sched|now vm_compute].
  - exists (sched1 16). split; [now apply trace1_sched|now vm_compute].
Qed.

(** Witness for C6: the reverse-sorted array of 16 elements, with 17 units of fuel. *)
Lemma C6_size_sixteen_witness :
  (len rev16 = 16 /\ (Z.to_nat 16 < 17)%nat) /\
  exists t, trace2 17 16 = Ok t /\ length t = 63%nat.
Proof.
  split.
  - split; [reflexivity|simpl; lia].
  - apply (C6_size_sixteen 17 rev16); [reflexivity|simpl; lia].
Defined.

(** C7. For [n = 0] and for [n = 1] every sequential sort stops at the
    first test of the phase loop ([p < n] is false on entry: one unit of
    fuel is enough), emits no compare-exchange and returns the buffer
    unchanged; on [[]] the output is [[]] and on [[7]] it is [[7]]. *)
Theorem C7_degenerate_sizes (fuel : nat) (A : list Z) :
  (sortListing1 (Datatypes.S fuel) A 0 = Ok A /\ trace1 (Datatypes.S fuel) 0 = Ok [] /\
   sortListing1 (Datatypes.S fuel) A 1 = Ok A /\ trace1 (Datatypes.S fuel) 1 = Ok []) /\
  (sortListing2 (Datatypes.S fuel) A 0 = Ok A /\ trace2 (Datatypes.S fuel) 0 = Ok [] /\
   sortListing2 (Datatypes.S fuel) A 1 = Ok A /\ trace2 (Datatypes.S fuel) 1 = Ok []) /\
  (sortListing3 (Datatypes.S fuel) A 0 = Ok A /\ trace3 (Datatypes.S fuel) 0 = Ok [] /\
   sortListing3 (Datatypes.S fuel) A 1 = Ok A /\ trace3 (Datatypes.S fuel) 1 = Ok []) /\
  (sortListing4 (Datatypes.S fuel) A 0 = Ok A /\ trace4 (Datatypes.S fuel) 0 = Ok [] /\
   sortListing4 (Datatypes.S fuel) A 1 = Ok A /\ trace4 (Datatypes.S fuel) 1 = Ok []) /\
  (sortListing1 1 [] 0 = Ok [] /\ sortListing2 1 [] 0 = Ok [] /\
   sortListing3 1 [] 0 = Ok [] /\ sortListing4 1 [] 0 = Ok []) /\
  (sortListing1 1 [7] 1 = Ok [7] /\ sortListing2 1 [7] 1 = Ok [7] /\
   sortListing3 1 [7] 1 = Ok [7] /\ sortListing4 1 [7] 1 = Ok [7]).
Proof.
  unfold sortListing1, sortListing2, sortListing3, sortListing4,
    trace1, trace2, trace3, trace4.
  repeat split;
    first [ apply listing1_small | apply listing2_small
          | apply listing3_small | apply listing4_small ]; lia.
Qed.

(** C8 (as stated). For [n = 2^30 + 1] the runs of listings 1 and 2 do
    not complete within the range of [int]: the test [j + k < 2*p] of
    listing 2 and the division test of listing 1 compute [2p] for
    [p = 2^30]. *)
Lemma C8_counterexample :
  ~ (exists fuel A,
        index_safe_int trace1_int sortListing1_int fuel A (2 ^ 30 + 1) \/
        index_safe_int trace2_int sortListing2_int fuel A (2 ^ 30 + 1)).
Proof.
  intros (fuel & A & [(t & A' & H & _)|(t & A' & H & _)]); revert H.
  - apply listing1_int_overflow.
  - apply listing2_int_overflow.
Qed.

(** C8 (amended). For every [n] with [0 <= n <= 2^30], every array index
    read or written by a sequential sort, run in [int] arithmetic, lies
    in [[0, n)]: the compare-exchanges a sort performs are exactly the
    pairs its loops emit, both indices of every emitted pair are below
    [n] by the loop bounds (nothing is filtered after emission), and the
    run on an array of [n] elements never leaves the array. *)
Theorem C8_indices_in_range (fuel : nat) (A : list Z) (n : Z) :
  n <= 2 ^ 30 -> len A = n -> (Z.to_nat n < fuel)%nat ->
  index_safe_int trace1_int sortListing1_int fuel A n /\
  index_safe_int trace2_int sortListing2_int fuel A n /\
  index_safe_int trace3_int sortListing3_int fuel A n /\
  index_safe_int trace4_int sortListing4_int fuel A n.
Proof.
  intros Hn HA Hf. split; [|split; [|split]].
  - apply (index_safe_to_int trace1 sortListing1);
      [now apply trace1_int_exact|now apply sortListing1_int_exact|].
    apply sorts_index_safe with (sched := sched1);
      auto using sortListing1_sorts, trace1_sched, sched1_in_bounds.
    intros. apply listing1_sched. assumption.
  - apply (index_safe_to_int trace2 sortListing2);
      [now apply trace2_int_exact|now apply sortListing2_int_exact|].
    apply sorts_index_safe with (sched := sched2);
      auto using sortListing2_sorts, trace2_sched, sched2_in_bounds.
    intros. apply listing2_sched. assumption.
  - apply (index_safe_to_int trace3 sortListing3);
      [now apply trace3_int_exact|now apply sortListing3_int_exact|].
    apply sorts_index_safe with (sched := sched3);
      auto using sortListing3_sorts, trace3_sched, sched3_in_bounds.
    intros. apply listing3_sched. assumption.
  - apply (index_safe_to_int trace4 sortListing4);
      [now apply trace4_int_exact|now apply sortListing4_int_exact|].
    apply sorts_index_safe with (sched := sched4);
      auto using sortListing4_sorts, trace4_sched, sched4_in_bounds.
    intros. apply listing4_sched. assumption.
Qed.

(** Witness for C8: the array [[5,3,4,1,2]], with 6 units of fuel. *)
Lemma C8_indices_in_range_witness :
  (5 <= 2 ^ 30 /\ len [5; 3; 4; 1; 2] = 5 /\ (Z.to_nat 5 < 6)%nat) /\
  index_safe_int trace2_int sortListing2_int 6 [5; 3; 4; 1; 2] 5.
Proof.
  split.
  - split; [lia|]. split; [reflexivity|simpl; lia].
  - apply (C8_indices_in_range 6 [5; 3; 4; 1; 2] 5);
      [lia|reflexivity|simpl; lia].
Defined.

(** C9 (as stated, for listing 1). For [n = 4] the group
    [(p, k, j) = (2, 1, 1)] of listing 1 emits the pairs [(1, 2)] and
    [(2, 3)], which share position 2. *)
Lemma C9_counterexample :
  exists t, trace1 5 4 = Ok t /\ ~ groups_disjoint t.
Proof.
  exists (sched1 4). split; [apply trace1_sched; simpl; lia|].
  intros H.
  apply (H (Emit 2 1 1 1 2) (Emit 2 1 1 2 3)).
  - vm_compute. tauto.
  - vm_compute. tauto.
  - repeat split.
  - cbn [e_x e_y]. intros E. discriminate.
  - right. right. left. reflexivity.
Qed.

(** C9 (amended). For every [n] with [0 <= n <= 2^30], in variants 2,
    3 and 4, run in [int] arithmetic, the pairs emitted within one
    [(p,k,j)] group are pairwise index-disjoint: no array position
    occurs in two distinct pairs of the group.  In variant 1 the
    position loop runs over the whole remaining span; two distinct pairs
    of one of its groups share a position only as a chain [(x, x+k)],
    [(x+k, x+2k)]. *)
Theorem C9_group_disjoint (fuel : nat) (n : Z) :
  n <= 2 ^ 30 -> (Z.to_nat n < fuel)%nat ->
  (exists t, trace2_int fuel n = Some (Ok t) /\ trace2 fuel n = Ok t
             /\ groups_disjoint t) /\
  (exists t, trace3_int fuel n = Some (Ok t) /\ trace3 fuel n = Ok t
             /\ groups_disjoint t) /\
  (exists t, trace4_int fuel n = Some (Ok t) /\ trace4 fuel n = Ok t
             /\ groups_disjoint t) /\
  (exists t, trace1_int fuel n = Some (Ok t) /\ trace1 fuel n = Ok t
             /\ groups_chained t).
Proof.
  intros Hn Hf.
  rewrite trace1_int_exact, trace2_int_exact, trace3_int_exact,
    trace4_int_exact by assumption.
  rewrite trace1_sched, trace2_sched, trace3_sched, trace4_sched
    by assumption.
  split; [|split; [|split]].
  - exists (sched2 n). split; [reflexivity|]. split; [reflexivity|].
    apply span_disjoint. apply sched2_span.
  - exists (sched3 n). split; [reflexivity|]. split; [reflexivity|].
    apply span_disjoint. apply sched3_span.
  - exists (sched4 n). split; [reflexivity|]. split; [reflexivity|].
    apply span_disjoint. apply sched4_span.
  - exists (sched1 n). split; [reflexivity|]. split; [reflexivity|].
    apply sched1_chained.
Qed.

(** Witness for C9: [n = 5], with 6 units of fuel. *)
Lemma C9_group_disjoint_witness :
  (5 <= 2 ^ 30 /\ (Z.to_nat 5 < 6)%nat) /\
  exists t, trace3_int 6 5 = Some (Ok t) /\ trace3 6 5 = Ok t
            /\ groups_disjoint t.
Proof.
  split; [split; [lia|simpl; lia]|].
  apply (C9_group_disjoint 6 5); [lia|simpl; lia].
Defined.

(** C10 (as stated). For [n = 2^30 + 1] no sequential sort terminates
    with a result, whatever the array and the fuel: the phase counter
    [p] reaches [2^30], and doubling it leaves the range of [int]. *)
Lemma C10_counterexample :
  ~ (exists A,
        terminates_int sortListing1_int A (2 ^ 30 + 1) \/
        terminates_int sortListing2_int A (2 ^ 30 + 1) \/
        terminates_int sortListing3_int A (2 ^ 30 + 1) \/
        terminates_int sortListing4_int A (2 ^ 30 + 1)).
Proof.
  intros (A & [(A' & H)|[(A' & H)|[(A' & H)|(A' & H)]]]);
    specialize (H (Datatypes.S (Z.to_nat (2 ^ 30 + 1))) (Nat.lt_succ_diag_r _));
    revert H.
  - apply listing1_int_overflow.
  - apply listing2_int_overflow.
  - apply listing3_int_overflow.
  - apply listing4_int_overflow.
Qed.

(** C10 (amended). For every [n] with [0 <= n <= 2^30] and every array
    of [n] integers each sequential sort, run in [int] arithmetic,
    terminates: every loop of the nest finishes within [n] iterations,
    so that a run in which each loop may test its condition [n + 1]
    times returns a result, the same for any larger amount of fuel. *)
Theorem C10_termination (A : list Z) (n : Z) :
  n <= 2 ^ 30 -> len A = n ->
  terminates_int sortListing1_int A n /\ terminates_int sortListing2_int A n /\
  terminates_int sortListing3_int A n /\ terminates_int sortListing4_int A n.
Proof.
  intros Hn HA. split; [|split; [|split]].
  - apply (terminates_to_int sortListing1);
      [intros; now apply sortListing1_int_exact|].
    apply sorts_terminates; auto using sortListing1_sorts.
  - apply (terminates_to_int sortListing2);
      [intros; now apply sortListing2_int_exact|].
    apply sorts_terminates; auto using sortListing2_sorts.
  - apply (terminates_to_int sortListing3);
      [intros; now apply sortListing3_int_exact|].
    apply sorts_terminates; auto using sortListing3_sorts.
  - apply (terminates_to_int sortListing4);
      [intros; now apply sortListing4_int_exact|].
    apply sorts_terminates; auto using sortListing4_sorts.
Qed.

(** Witness for C10: the array [[5,3,4,1,2]]. *)
Lemma C10_termination_witness :
  (5 <= 2 ^ 30 /\ len [5; 3; 4; 1; 2] = 5) /\
  terminates_int sortListing1_int [5; 3; 4; 1; 2] 5.
Proof.
  split; [split; [lia|reflexivity]|].
  apply (C10_termination [5; 3; 4; 1; 2] 5); [lia|reflexivity].
Defined.

(** * Further properties of the listings *)

(** ** What every emission satisfies *)

Lemma lower_block (p k x : Z) :
  lower p k x = true -> x / (2 * p) = (x + k) / (2 * p).
Proof.
  unfold lower. intros H.
  apply andb_true_iff in H. destruct H as (H & _).
  apply andb_true_iff in H. destruct H as (_ & H). now apply Z.eqb_eq.
Qed.

Lemma sched1_local (n : Z) (e : emission) :
  In e (sched1 n) -> block_local n e.
Proof.
  intros He. apply in_sweep in He. destruct He as (a & b & Hba & Ha & He).
  assert (Hk := pw_pos b). assert (Hp := pw_pos a).
  assert (Hj0 := rem_pw_nonneg a (a - b)).
  replace (a - (a - b))%nat with b in Hj0 by lia.
  apply in_layer1 in He; [|assumption].
  destruct He as (t & i & Ht & Hi & Hn & E & ->).
  exists a, b. cbn [e_p e_k e_j e_x e_y].
  assert (H0 : 0 <= Z.rem (pw b) (pw a) + 2 * pw b * t) by nia.
  rewrite !Z.quot_div_nonneg in E by lia.
  replace (pw a + pw a) with (2 * pw a) in E by lia.
  repeat split; try assumption; try lia.
Qed.

Lemma exact_local (layer : Z -> Z -> Z -> list emission) (n : Z) (e : emission) :
  layer_exact layer n ->
  (forall a b e', In e' (layer n (pw a) (pw b)) ->
                  e_p e' = pw a /\ e_k e' = pw b /\ 0 <= e_j e' <= e_x e') ->
  In e (sweep layer n) -> block_local n e.
Proof.
  intros Hex Hlab He. apply in_sweep in He.
  destruct He as (a & b & Hba & Ha & He).
  destruct (Hex a b Hba Ha) as (Hin & _).
  destruct (Hin e He) as (Ey & L & Hn).
  destruct (Hlab a b e He) as (Ep & Ek & Hj).
  exists a, b. rewrite Ep, Ek, Ey.
  repeat split; try assumption; try lia.
  now apply lower_block.
Qed.

Lemma sched2_local (n : Z) (e : emission) :
  In e (sched2 n) -> block_local n e.
Proof.
  apply exact_local; [apply layer2_exact|].
  intros a b e' He'. assert (Hk := pw_pos b). assert (Hp := pw_pos a).
  assert (Hj0 := rem_pw_nonneg a (a - b)).
  destruct (Nat.le_gt_cases b a) as [Hba|Hba].
  - replace (a - (a - b))%nat with b in Hj0 by lia.
    apply in_layer2 in He'; [|assumption|assumption].
    destruct He' as (t & i & u & Ht & Hi & Hu & Hj & Hm & ->).
    cbn [e_p e_k e_j e_x e_y]. repeat split; nia.
  - apply in_layer2 in He'; [|assumption|assumption].
    destruct He' as (t & i & u & Ht & Hi & Hu & Hj & Hm & ->).
    cbn [e_p e_k e_j e_x e_y].
    assert (0 <= Z.rem (pw b) (pw a)) by (apply Z.rem_nonneg; lia).
    repeat split; nia.
Qed.

Lemma sched3_local (n : Z) (e : emission) :
  In e (sched3 n) -> block_local n e.
Proof.
  apply exact_local; [apply layer3_exact|].
  intros a b e' He'. assert (Hk := pw_pos b). assert (Hp := pw_pos a).
  assert (0 <= Z.rem (pw b) (pw a)) by (apply Z.rem_nonneg; lia).
  apply in_layer3 in He'; [|assumption].
  destruct He' as (t & i & Ht & Hi & Hn & _ & ->).
  cbn [e_p e_k e_j e_x e_y]. repeat split; nia.
Qed.

Lemma sched4_local (n : Z) (e : emission) :
  In e (sched4 n) -> block_local n e.
Proof.
  apply exact_local; [apply layer4_exact|].
  intros a b e' He'. assert (Hk := pw_pos b). assert (Hp := pw_pos a).
  assert (0 <= Z.land (pw b) (pw a - 1)) by (apply Z.land_nonneg; lia).
  apply in_layer4 in He'; [|assumption].
  destruct He' as (t & i & Ht & Hi & Hn & _ & ->).
  cbn [e_p e_k e_j e_x e_y]. repeat split; nia.
Qed.

(** X1. For [n <= 2^30], in all four listings every compare-exchange is emitted with [p]
    and [k] powers of two, [k <= p < n], at a pair of distance [k] that
    lies below [n], not below the block offset [j], and inside a single
    merge block of size [2p]. *)
Theorem X1_emissions_block_local (fuel : nat) (n : Z) :
  n <= 2 ^ 30 -> (Z.to_nat n < fuel)%nat ->
  (exists t, trace1 fuel n = Ok t /\ forall e, In e t -> block_local n e) /\
  (exists t, trace2 fuel n = Ok t /\ forall e, In e t -> block_local n e) /\
  (exists t, trace3 fuel n = Ok t /\ forall e, In e t -> block_local n e) /\
  (exists t, trace4 fuel n = Ok t /\ forall e, In e t -> block_local n e).
Proof.
  intros Hn Hf. split; [|split; [|split]].
  - exists (sched1 n). split; [now apply trace1_sched|apply sched1_local].
  - exists (sched2 n). split; [now apply trace2_sched|apply sched2_local].
  - exists (sched3 n). split; [now apply trace3_sched|apply sched3_local].
  - exists (sched4 n). split; [now apply trace4_sched|apply sched4_local].
Qed.

(** Witness for X1: [n = 5], with 6 units of fuel. *)
Lemma X1_emissions_block_local_witness :
  (5 <= 2 ^ 30 /\ (Z.to_nat 5 < 6)%nat) /\
  exists t, trace1 6 5 = Ok t /\ forall e, In e t -> block_local 5 e.
Proof.
  split; [split; [lia|simpl; lia]|].
  apply (X1_emissions_block_local 6 5); [lia|simpl; lia].
Defined.

(** ** Sorted input, permuted input, relabelled input *)

Lemma sorts_sorted_input (sort : nat -> list Z -> Z -> result (list Z))
      (fuel : nat) (A : list Z) (n : Z) :
  sorts sort -> len A = n -> (Z.to_nat n < fuel)%nat ->
  ascending A -> sort fuel A n = Ok A.
Proof.
  intros Hs HA Hf Hasc.
  destruct (Hs fuel A n HA Hf) as (A' & E & _ & P & S).
  rewrite E. f_equal. symmetry. now apply ascending_unique.
Qed.

(** X2. Sorting an array of [n <= 2^30] elements that is already in
    non-decreasing order leaves it unchanged, in every sequential
    listing. *)
Theorem X2_sorted_input_unchanged (fuel : nat) (A : list Z) (n : Z) :
  n <= 2 ^ 30 -> len A = n -> (Z.to_nat n < fuel)%nat -> ascending A ->
  sortListing1 fuel A n = Ok A /\ sortListing2 fuel A n = Ok A /\
  sortListing3 fuel A n = Ok A /\ sortListing4 fuel A n = Ok A.
Proof.
  intros Hn HA Hf Hasc. repeat split; apply sorts_sorted_input;
    auto using sortListing1_sorts, sortListing2_sorts,
    sortListing3_sorts, sortListing4_sorts.
Qed.

(** Witness for X2: the array [[1,2,2,5]], with 5 units of fuel. *)
Lemma X2_sorted_input_unchanged_witness :
  (4 <= 2 ^ 30 /\ len [1; 2; 2; 5] = 4 /\ (Z.to_nat 4 < 5)%nat
   /\ ascending [1; 2; 2; 5]) /\
  sortListing1 5 [1; 2; 2; 5] 4 = Ok [1; 2; 2; 5] /\
  sortListing2 5 [1; 2; 2; 5] 4 = Ok [1; 2; 2; 5] /\
  sortListing3 5 [1; 2; 2; 5] 4 = Ok [1; 2; 2; 5] /\
  sortListing4 5 [1; 2; 2; 5] 4 = Ok [1; 2; 2; 5].
Proof.
  assert (H : ascending [1; 2; 2; 5]).
  { intros i j vi vj Hij Hi Hj.
    assert (Hr := load_range [1; 2; 2; 5] j vj Hj).
    unfold len in Hr. cbn [length] in Hr.
    assert (Hc : i = 0 /\ j = 1 \/ i = 0 /\ j = 2 \/ i = 0 /\ j = 3 \/
                 i = 1 /\ j = 2 \/ i = 1 /\ j = 3 \/ i = 2 /\ j = 3) by lia.
    destruct Hc as [(-> & ->)|[(-> & ->)|[(-> & ->)|[(-> & ->)|[(-> & ->)|
                   (-> & ->)]]]]];
      cbv in Hi, Hj; injection Hi as <-; injection Hj as <-; lia. }
  split.
  - split; [lia|]. split; [reflexivity|]. split; [simpl; lia|exact H].
  - apply (X2_sorted_input_unchanged 5 [1; 2; 2; 5] 4);
      [lia|reflexivity|simpl; lia|exact H].
Defined.

Lemma sorts_permuted_input (sort : nat -> list Z -> Z -> result (list Z))
      (fuel : nat) (A B : list Z) (n : Z) :
  sorts sort -> len A = n -> (Z.to_nat n < fuel)%nat -> Permutation A B ->
  sort fuel A n = sort fuel B n.
Proof.
  intros Hs HA Hf HP.
  assert (HB : len B = n)
    by (unfold len in *; now rewrite <- (Permutation_length HP)).
  destruct (Hs fuel A n HA Hf) as (A' & EA & _ & PA & SA).
  destruct (Hs fuel B n HB Hf) as (B' & EB & _ & PB & SB).
  rewrite EA, EB. f_equal. apply ascending_unique; try assumption.
  transitivity A; [now symmetry|]. now transitivity B.
Qed.

(** X3. The output of a sequential listing depends only on the multiset
    of the input: two arrays of [n <= 2^30] elements that are
    permutations of each other are sorted to the same array. *)
Theorem X3_permuted_input_same_output (fuel : nat) (A B : list Z) (n : Z) :
  n <= 2 ^ 30 -> len A = n -> (Z.to_nat n < fuel)%nat -> Permutation A B ->
  sortListing1 fuel A n = sortListing1 fuel B n /\
  sortListing2 fuel A n = sortListing2 fuel B n /\
  sortListing3 fuel A n = sortListing3 fuel B n /\
  sortListing4 fuel A n = sortListing4 fuel B n.
Proof.
  intros Hn HA Hf HP. repeat split; apply sorts_permuted_input;
    auto using sortListing1_sorts, sortListing2_sorts,
    sortListing3_sorts, sortListing4_sorts.
Qed.

(** Witness for X3: [[3,1,2]] and [[1,2,3]], with 4 units of fuel. *)
Lemma X3_permuted_input_same_output_witness :
  (3 <= 2 ^ 30 /\ len [3; 1; 2] = 3 /\ (Z.to_nat 3 < 4)%nat
   /\ Permutation [3; 1; 2] [1; 2; 3]) /\
  sortListing1 4 [3; 1; 2] 3 = sortListing1 4 [1; 2; 3] 3.
Proof.
  assert (H : Permutation [3; 1; 2] [1; 2; 3]).
  { apply Permutation_sym. apply (Permutation_cons_app [3] [2] 1).
    apply perm_swap. }
  split.
  - split; [lia|]. split; [reflexivity|]. split; [simpl; lia|exact H].
  - apply (X3_permuted_input_same_output 4 [3; 1; 2] [1; 2; 3] 3);
      [lia|reflexivity|simpl; lia|exact H].
Defined.

Lemma load_map (f : Z -> Z) (A : list Z) (i : Z) :
  load (map f A) i = option_map f (load A i).
Proof.
  unfold load. destruct (i <? 0); [reflexivity|]. apply nth_error_map.
Qed.

Lemma ascending_map (f : Z -> Z) (A : list Z) :
  (forall x y, x <= y -> f x <= f y) -> ascending A -> ascending (map f A).
Proof.
  intros Hmono H i j vi vj Hij Hi Hj. rewrite load_map in Hi, Hj.
  destruct (load A i) as [wi|] eqn:Ei; [|discriminate].
  destruct (load A j) as [wj|] eqn:Ej; [|discriminate].
  injection Hi as <-. injection Hj as <-.
  apply Hmono. now apply (H i j).
Qed.

Lemma sorts_monotone (sort : nat -> list Z -> Z -> result (list Z))
      (f : Z -> Z) (fuel : nat) (A : list Z) (n : Z) :
  sorts sort -> (forall x y, x <= y -> f x <= f y) ->
  len A = n -> (Z.to_nat n < fuel)%nat ->
  exists A', sort fuel A n = Ok A' /\ sort fuel (map f A) n = Ok (map f A').
Proof.
  intros Hs Hmono HA Hf.
  assert (HB : len (map f A) = n) by (unfold len in *; now rewrite length_map).
  destruct (Hs fuel A n HA Hf) as (A' & EA & _ & PA & SA).
  destruct (Hs fuel (map f A) n HB Hf) as (B' & EB & _ & PB & SB).
  exists A'. split; [assumption|]. rewrite EB. f_equal.
  apply ascending_unique; [assumption|now apply ascending_map|].
  transitivity (map f A); [now symmetry|now apply Permutation_map].
Qed.

(** X4. The listings only compare elements: for [n <= 2^30],
    relabelling the elements by a monotone function and sorting gives the
    relabelled sorted array. *)
Theorem X4_monotone_relabelling (f : Z -> Z) (fuel : nat) (A : list Z) (n : Z) :
  n <= 2 ^ 30 -> (forall x y, x <= y -> f x <= f y) ->
  len A = n -> (Z.to_nat n < fuel)%nat ->
  (exists A', sortListing1 fuel A n = Ok A' /\
              sortListing1 fuel (map f A) n = Ok (map f A')) /\
  (exists A', sortListing2 fuel A n = Ok A' /\
              sortListing2 fuel (map f A) n = Ok (map f A')) /\
  (exists A', sortListing3 fuel A n = Ok A' /\
              sortListing3 fuel (map f A) n = Ok (map f A')) /\
  (exists A', sortListing4 fuel A n = Ok A' /\
              sortListing4 fuel (map f A) n = Ok (map f A')).
Proof.
  intros Hn Hmono HA Hf. repeat split; apply sorts_monotone;
    auto using sortListing1_sorts, sortListing2_sorts,
    sortListing3_sorts, sortListing4_sorts.
Qed.

(** Witness for X4: doubling the elements of [[5,3,4,1,2]]. *)
Lemma X4_monotone_relabelling_witness :
  (5 <= 2 ^ 30 /\ (forall x y, x <= y -> 2 * x <= 2 * y)
   /\ len [5; 3; 4; 1; 2] = 5 /\ (Z.to_nat 5 < 6)%nat) /\
  exists A', sortListing1 6 [5; 3; 4; 1; 2] 5 = Ok A' /\
             sortListing1 6 (map (fun x => 2 * x) [5; 3; 4; 1; 2]) 5
             = Ok (map (fun x => 2 * x) A').
Proof.
  split.
  - split; [lia|]. split; [intros; lia|]. split; [reflexivity|simpl; lia].
  - apply (X4_monotone_relabelling (fun x => 2 * x) 6 [5; 3; 4; 1; 2] 5);
      [lia|intros; lia|reflexivity|simpl; lia].
Defined.

(** ** A buffer longer or shorter than [n] *)

Lemma update_app (P R : list Z) (i : nat) (v : Z) :
  (i < length P)%nat -> update (P ++ R) i v = update P i v ++ R.
Proof.
  revert i. induction P as [|a P IH]; intros [|i] H; simpl in *;
    try lia; [reflexivity|]. f_equal. apply IH. lia.
Qed.

Lemma load_app (P R : list Z) (i : Z) :
  0 <= i < len P -> load (P ++ R) i = load P i.
Proof.
  intros H. unfold load, len in *. destruct (i <? 0); [reflexivity|].
  apply nth_error_app1. lia.
Qed.

Lemma store_app (P R : list Z) (i v : Z) :
  0 <= i < len P -> store (P ++ R) i v = store P i v ++ R.
Proof. intros H. unfold store, len in *. apply update_app. lia. Qed.

Lemma compexch_app (x y : Z) (P P' R : list Z) :
  compexch x y P = Ok P' -> compexch x y (P ++ R) = Ok (P' ++ R).
Proof.
  unfold compexch.
  destruct (load P x) as [a|] eqn:Ea; [|discriminate].
  destruct (load P y) as [b|] eqn:Eb; [|discriminate].
  assert (Hx := load_range P x a Ea). assert (Hy := load_range P y b Eb).
  rewrite !load_app, Ea, Eb by assumption.
  destruct (a >? b); intros E; injection E as <-; [|reflexivity].
  rewrite store_app by assumption.
  rewrite store_app by (rewrite store_len; assumption). reflexivity.
Qed.

Lemma mfold_exec_app (cs : list emission) (R : list Z) :
  forall P P', mfold (on_emission exec) cs P = Ok P' ->
               mfold (on_emission exec) cs (P ++ R) = Ok (P' ++ R).
Proof.
  induction cs as [|e cs IH]; intros P P' H; cbn [mfold] in *.
  - injection H as <-. reflexivity.
  - unfold on_emission at 1, exec in H. unfold on_emission at 1, exec.
    destruct (compexch (e_x e) (e_y e) P) as [P1| |] eqn:E;
      cbn [bind] in H; try discriminate.
    rewrite (compexch_app _ _ _ _ R E). cbn [bind]. now apply IH.
Qed.

Lemma sorts_prefix (sort : nat -> list Z -> Z -> result (list Z))
      (sched : Z -> list emission) (fuel : nat) (P R : list Z) (n : Z) :
  sorts sort ->
  (forall fuel A n, (Z.to_nat n < fuel)%nat ->
                    sort fuel A n = mfold (on_emission exec) (sched n) A) ->
  len P = n -> (Z.to_nat n < fuel)%nat ->
  exists P', sort fuel (P ++ R) n = Ok (P' ++ R) /\ len P' = n /\
             Permutation P P' /\ ascending P'.
Proof.
  intros Hs Hm HP Hf.
  destruct (Hs fuel P n HP Hf) as (P' & E & L & Pm & S).
  exists P'. repeat split; try assumption.
  rewrite Hm in * by assumption. now apply mfold_exec_app.
Qed.

(** X5. When the buffer holds more than [n <= 2^30] elements, a sequential
    listing sorts its first [n] elements among themselves and leaves the
    elements from position [n] on untouched. *)
Theorem X5_longer_buffer (fuel : nat) (P R : list Z) (n : Z) :
  n <= 2 ^ 30 -> len P = n -> (Z.to_nat n < fuel)%nat ->
  (exists P', sortListing1 fuel (P ++ R) n = Ok (P' ++ R) /\ len P' = n /\
              Permutation P P' /\ ascending P') /\
  (exists P', sortListing2 fuel (P ++ R) n = Ok (P' ++ R) /\ len P' = n /\
              Permutation P P' /\ ascending P') /\
  (exists P', sortListing3 fuel (P ++ R) n = Ok (P' ++ R) /\ len P' = n /\
              Permutation P P' /\ ascending P') /\
  (exists P', sortListing4 fuel (P ++ R) n = Ok (P' ++ R) /\ len P' = n /\
              Permutation P P' /\ ascending P').
Proof.
  intros Hn HP Hf. split; [|split; [|split]].
  - apply sorts_prefix with (sched := sched1);
      auto using sortListing1_sorts.
    intros. now apply listing1_sched.
  - apply sorts_prefix with (sched := sched2);
      auto using sortListing2_sorts.
    intros. now apply listing2_sched.
  - apply sorts_prefix with (sched := sched3);
      auto using sortListing3_sorts.
    intros. now apply listing3_sched.
  - apply sorts_prefix with (sched := sched4);
      auto using sortListing4_sorts.
    intros. now apply listing4_sched.
Qed.

(** Witness for X5: the first three elements of [[3,1,2,0,9]]. *)
Lemma X5_longer_buffer_witness :
  (3 <= 2 ^ 30 /\ len [3; 1; 2] = 3 /\ (Z.to_nat 3 < 4)%nat) /\
  exists P', sortListing1 4 ([3; 1; 2] ++ [0; 9]) 3 = Ok (P' ++ [0; 9]) /\
             len P' = 3 /\ Permutation [3; 1; 2] P' /\ ascending P'.
Proof.
  split.
  - split; [lia|]. split; [reflexivity|simpl; lia].
  - apply (X5_longer_buffer 4 [3; 1; 2] [0; 9] 3);
      [lia|reflexivity|simpl; lia].
Defined.

Lemma last_in_network (n : Z) :
  2 <= n -> exists x, in_network n (x, n - 1).
Proof.
  intros Hn.
  assert (H0 : (0 < phases n)%nat)
    by (apply pw_lt_phases; replace (pw 0) with 1 by reflexivity; lia).
  destruct (phases n) as [|a] eqn:E; [lia|].
  assert (Ha : pw a < n) by (apply pw_lt_phases; lia).
  assert (Hu : n <= 2 * pw a)
    by (rewrite <- pw_S, <- E; apply phases_spec).
  exists (n - 1 - pw a), a, a. cbn [fst snd].
  split; [lia|]. split; [assumption|]. split; [|lia].
  unfold lower.
  replace (n - 1 - pw a + pw a) with (n - 1) by lia.
  rewrite !Z.div_small by lia.
  rewrite Z.ltb_irrefl.
  destruct (Z.leb_spec 0 (n - 1 - pw a)); [reflexivity|lia].
Qed.

Lemma compexch_len (x y : Z) (A A' : list Z) :
  compexch x y A = Ok A' ->
  len A' = len A /\ 0 <= x < len A /\ 0 <= y < len A.
Proof.
  unfold compexch.
  destruct (load A x) as [a|] eqn:Ea; [|discriminate].
  destruct (load A y) as [b|] eqn:Eb; [|discriminate].
  assert (Hx := load_range A x a Ea). assert (Hy := load_range A y b Eb).
  destruct (a >? b); intros E; injection E as <-.
  - now rewrite !store_len.
  - auto.
Qed.

Lemma compexch_fuel (x y : Z) (A : list Z) : compexch x y A <> OutOfFuel.
Proof.
  unfold compexch. destruct (load A x); [|discriminate].
  destruct (load A y); [|discriminate]. destruct (_ >? _); discriminate.
Qed.

Lemma mfold_exec_short (cs : list emission) :
  forall A, (exists e, In e cs /\ len A <= e_y e) ->
            mfold (on_emission exec) cs A = OutOfBounds.
Proof.
  induction cs as [|e cs IH]; intros A (e0 & Hin & Hy); [destruct Hin|].
  cbn [mfold]. unfold on_emission at 1, exec.
  destruct (compexch (e_x e) (e_y e) A) as [A1| |] eqn:E; cbn [bind].
  - destruct (compexch_len _ _ _ _ E) as (L & _ & Hy1).
    destruct Hin as [<-|Hin]; [lia|].
    apply IH. exists e0. split; [assumption|lia].
  - exfalso. exact (compexch_fuel _ _ _ E).
  - reflexivity.
Qed.

Lemma pairs_last (sched : Z -> list emission) (n : Z) :
  (forall c, In c (pairs (sched n)) <-> in_network n c) ->
  2 <= n -> exists e, In e (sched n) /\ e_y e = n - 1.
Proof.
  intros Hp Hn. destruct (last_in_network n Hn) as (x & Hx).
  apply Hp in Hx. unfold pairs in Hx. apply in_map_iff in Hx.
  destruct Hx as (e & He & Hin). exists e. split; [assumption|congruence].
Qed.

(** X6. Every sequential listing reaches position [n - 1] when
    [2 <= n <= 2^30]: on a buffer with fewer than [n] elements the run
    reads outside the buffer. *)
Theorem X6_shorter_buffer (fuel : nat) (A : list Z) (n : Z) :
  2 <= n -> n <= 2 ^ 30 -> len A < n -> (Z.to_nat n < fuel)%nat ->
  sortListing1 fuel A n = OutOfBounds /\
  sortListing2 fuel A n = OutOfBounds /\
  sortListing3 fuel A n = OutOfBounds /\
  sortListing4 fuel A n = OutOfBounds.
Proof.
  intros Hn Hmax HA Hf.
  unfold sortListing1, sortListing2, sortListing3, sortListing4.
  rewrite listing1_sched, listing2_sched, listing3_sched, listing4_sched
    by assumption.
  split; [|split; [|split]]; apply mfold_exec_short.
  - destruct (pairs_last sched1 n (sched1_pairs n) Hn) as (e & He & Hy).
    exists e. split; [assumption|lia].
  - destruct (pairs_last sched2 n
                (fun c => exact_pairs layer2 n c (layer2_exact n)) Hn)
      as (e & He & Hy).
    exists e. split; [assumption|lia].
  - destruct (pairs_last sched3 n
                (fun c => exact_pairs layer3 n c (layer3_exact n)) Hn)
      as (e & He & Hy).
    exists e. split; [assumption|lia].
  - destruct (pairs_last sched4 n
                (fun c => exact_pairs layer4 n c (layer4_exact n)) Hn)
      as (e & He & Hy).
    exists e. split; [assumption|lia].
Qed.

(** Witness for X6: three elements sorted as if they were four. *)
Lemma X6_shorter_buffer_witness :
  (2 <= 4 /\ 4 <= 2 ^ 30 /\ len [3; 1; 2] < 4 /\ (Z.to_nat 4 < 5)%nat) /\
  sortListing1 5 [3; 1; 2] 4 = OutOfBounds /\
  sortListing2 5 [3; 1; 2] 4 = OutOfBounds /\
  sortListing3 5 [3; 1; 2] 4 = OutOfBounds /\
  sortListing4 5 [3; 1; 2] 4 = OutOfBounds.
Proof.
  split.
  - split; [lia|]. split; [lia|]. split; [reflexivity|simpl; lia].
  - apply (X6_shorter_buffer 5 [3; 1; 2] 4);
      [lia|lia|reflexivity|simpl; lia].
Defined.

(** ** Listing 4 against listing 3 *)

(** X7. For [n <= 2^30], listing 4 performs the compare-exchanges of listing 3, under the
    same loop variables and in the same order: its bit tests select the
    same iterations, so the two listings pass through the same arrays,
    whatever the buffer. *)
Theorem X7_listing4_same_trace (fuel : nat) (n : Z) :
  n <= 2 ^ 30 -> (Z.to_nat n < fuel)%nat ->
  (exists t, trace3 fuel n = Ok t /\ trace4 fuel n = Ok t) /\
  (forall A, sortListing3 fuel A n = sortListing4 fuel A n).
Proof.
  intros Hn Hf. split.
  - exists (sched3 n). split; [now apply trace3_sched|].
    rewrite sched3_sched4. now apply trace4_sched.
  - intros A. unfold sortListing3, sortListing4.
    rewrite listing3_sched, listing4_sched by assumption.
    now rewrite sched3_sched4.
Qed.

(** Witness for X7: eleven positions. *)
Lemma X7_listing4_same_trace_witness :
  (11 <= 2 ^ 30 /\ (Z.to_nat 11 < 12)%nat) /\
  (exists t, trace3 12 11 = Ok t /\ trace4 12 11 = Ok t) /\
  (forall A, sortListing3 12 A 11 = sortListing4 12 A 11).
Proof.
  split; [split; [lia|simpl; lia]|].
  apply (X7_listing4_same_trace 12 11); [lia|simpl; lia].
Defined.

(** ** Compare-exchanges on separate positions *)

Lemma load_ext (A B : list Z) :
  (forall z, load A z = load B z) -> A = B.
Proof.
  intros H. apply nth_error_ext. intros i.
  specialize (H (Z.of_nat i)). unfold load in H.
  destruct (Z.ltb_spec (Z.of_nat i) 0); [lia|].
  now rewrite Nat2Z.id in H.
Qed.

Lemma compexch_minmax (x y : Z) (A : list Z) :
  0 <= x < y -> y < len A ->
  exists a b A1,
    load A x = Some a /\ load A y = Some b /\
    compexch x y A = Ok A1 /\ len A1 = len A /\
    load A1 x = Some (Z.min a b) /\ load A1 y = Some (Z.max a b) /\
    (forall z, z <> x -> z <> y -> load A1 z = load A z).
Proof.
  intros Hxy Hy.
  destruct (load_Some A x ltac:(lia)) as (a & Ha).
  destruct (load_Some A y ltac:(lia)) as (b & Hb).
  exists a, b. unfold compexch. rewrite Ha, Hb.
  destruct (Z.gtb_spec a b) as [Hgt|Hle].
  - exists (store (store A x b) y a).
    repeat split; try assumption; try reflexivity.
    + now rewrite !store_len.
    + rewrite load_store_other by lia. rewrite load_store_same by lia.
      f_equal. lia.
    + rewrite load_store_same by (rewrite store_len; lia). f_equal. lia.
    + intros z Hzx Hzy. now rewrite !load_store_other by lia.
  - exists A. repeat split; try assumption; try reflexivity.
    + rewrite Ha. f_equal. lia.
    + rewrite Hb. f_equal. lia.
Qed.

Lemma touched_true (cs : list emission) (z : Z) :
  touched cs z = true <-> exists e, In e cs /\ (e_x e = z \/ e_y e = z).
Proof.
  unfold touched. rewrite existsb_exists. split.
  - intros (e & He & E). apply orb_true_iff in E. exists e.
    split; [assumption|]. destruct E as [E|E]; apply Z.eqb_eq in E; auto.
  - intros (e & He & E). exists e. split; [assumption|].
    apply orb_true_iff. destruct E as [E|E]; apply Z.eqb_eq in E; auto.
Qed.

Lemma touched_false (cs : list emission) (z : Z) :
  touched cs z = false -> forall e, In e cs -> z <> e_x e /\ z <> e_y e.
Proof.
  intros H e He.
  assert (N : ~ (e_x e = z \/ e_y e = z)).
  { intros E. assert (T : touched cs z = true)
      by (apply touched_true; eauto). congruence. }
  split; intros E; apply N; auto.
Qed.

Lemma compatible_tail (e : emission) (cs : list emission) :
  compatible (e :: cs) -> compatible cs.
Proof. intros H e1 e2 H1 H2. apply H; now right. Qed.

(** The array after a list of compatible compare-exchanges, position by
    position. *)
Lemma mfold_compatible (cs : list emission) :
  forall A,
    compatible cs -> in_bounds (len A) cs ->
    exists A',
      mfold (on_emission exec) cs A = Ok A' /\ len A' = len A /\
      (forall e, In e cs ->
                 exists a b, load A (e_x e) = Some a /\
                             load A (e_y e) = Some b /\
                             load A' (e_x e) = Some (Z.min a b) /\
                             load A' (e_y e) = Some (Z.max a b)) /\
      (forall z, touched cs z = false -> load A' z = load A z).
Proof.
  induction cs as [|e cs IH]; intros A Hc Hb.
  - exists A. repeat split; try reflexivity. intros e [].
  - destruct (Hb e (or_introl eq_refl)) as (Hxy & Hy).
    destruct (compexch_minmax (e_x e) (e_y e) A Hxy Hy)
      as (a & b & A1 & Ha & Hbv & E1 & L1 & M1 & X1 & O1).
    assert (Hb1 : in_bounds (len A1) cs)
      by (rewrite L1; intros e' He'; apply Hb; now right).
    destruct (IH A1 (compatible_tail e cs Hc) Hb1) as (A' & E' & L' & P' & O').
    exists A'. cbn [mfold]. unfold on_emission at 1, exec. rewrite E1.
    cbn [bind]. split; [assumption|]. split; [lia|].
    assert (Q : forall e0, In e0 cs ->
                exists a0 b0, load A (e_x e0) = Some a0 /\
                              load A (e_y e0) = Some b0 /\
                              load A' (e_x e0) = Some (Z.min a0 b0) /\
                              load A' (e_y e0) = Some (Z.max a0 b0)).
    { intros e0 He0.
      destruct (P' e0 He0) as (a1 & b1 & Ha1 & Hb1' & Hm1 & Hx1).
      destruct (Hb e0 (or_intror He0)) as (Hxy0 & _).
      destruct (Hc e e0 (or_introl eq_refl) (or_intror He0))
        as [(Ex & Ey)|Hd].
      - exists a, b. rewrite <- Ex, <- Ey in *.
        rewrite M1 in Ha1. rewrite X1 in Hb1'.
        injection Ha1 as <-. injection Hb1' as <-.
        repeat split; try assumption.
        + rewrite Hm1. f_equal. lia.
        + rewrite Hx1. f_equal. lia.
      - unfold share_index in Hd.
        rewrite O1 in Ha1 by (intros E; apply Hd; auto).
        rewrite O1 in Hb1' by (intros E; apply Hd; auto).
        exists a1, b1. repeat split; assumption. }
    split.
    + intros e0 [<-|He0]; [|now apply Q].
      destruct (touched cs (e_x e)) eqn:T.
      * apply touched_true in T. destruct T as (e0 & He0 & T).
        destruct (Hc e e0 (or_introl eq_refl) (or_intror He0))
          as [(Ex & Ey)|Hd].
        -- destruct (Q e0 He0) as (a0 & b0 & Ha0 & Hb0 & Hm0 & Hx0).
           rewrite <- Ex, <- Ey in *. exists a0, b0. now repeat split.
        -- exfalso. apply Hd. unfold share_index.
           destruct T as [T|T]; auto.
      * destruct (touched cs (e_y e)) eqn:T2.
        -- apply touched_true in T2. destruct T2 as (e0 & He0 & T2).
           destruct (Hc e e0 (or_introl eq_refl) (or_intror He0))
             as [(Ex & Ey)|Hd].
           ++ destruct (Q e0 He0) as (a0 & b0 & Ha0 & Hb0 & Hm0 & Hx0).
              rewrite <- Ex, <- Ey in *. exists a0, b0. now repeat split.
           ++ exfalso. apply Hd. unfold share_index.
              destruct T2 as [T2|T2]; auto.
        -- exists a, b. rewrite (O' _ T), (O' _ T2). now repeat split.
    + intros z T. unfold touched in T. cbn [existsb] in T.
      apply orb_false_iff in T. destruct T as (T0 & T).
      apply orb_false_iff in T0. destruct T0 as (Tx & Ty).
      apply Z.eqb_neq in Tx, Ty.
      rewrite (O' z T). apply O1; congruence.
Qed.

(** Two lists of compatible compare-exchanges with the same pairs give
    the same array. *)
Lemma mfold_same_pairs (cs cs' : list emission) (A : list Z) :
  compatible cs -> compatible cs' -> in_bounds (len A) cs ->
  same_set (pairs cs) (pairs cs') ->
  mfold (on_emission exec) cs A = mfold (on_emission exec) cs' A.
Proof.
  intros Hc Hc' Hb Hs.
  assert (T : forall e, In e cs' -> exists e0, In e0 cs /\
                e_x e0 = e_x e /\ e_y e0 = e_y e).
  { intros e He.
    assert (Hin : In (e_x e, e_y e) (pairs cs))
      by (apply Hs; unfold pairs; apply in_map_iff; eauto).
    unfold pairs in Hin. apply in_map_iff in Hin.
    destruct Hin as (e0 & E & He0). exists e0.
    split; [assumption|]. split; congruence. }
  assert (T' : forall e, In e cs -> exists e0, In e0 cs' /\
                e_x e0 = e_x e /\ e_y e0 = e_y e).
  { intros e He.
    assert (Hin : In (e_x e, e_y e) (pairs cs'))
      by (apply Hs; unfold pairs; apply in_map_iff; eauto).
    unfold pairs in Hin. apply in_map_iff in Hin.
    destruct Hin as (e0 & E & He0). exists e0.
    split; [assumption|]. split; congruence. }
  assert (Hb' : in_bounds (len A) cs').
  { intros e He. destruct (T e He) as (e0 & He0 & Ex & Ey).
    rewrite <- Ex, <- Ey. now apply Hb. }
  destruct (mfold_compatible cs A Hc Hb) as (A1 & E1 & L1 & P1 & O1).
  destruct (mfold_compatible cs' A Hc' Hb') as (A2 & E2 & L2 & P2 & O2).
  rewrite E1, E2. f_equal. apply load_ext. intros z.
  destruct (touched cs z) eqn:Tz.
  - apply touched_true in Tz. destruct Tz as (e & He & Ez).
    destruct (T' e He) as (e' & He' & Ex & Ey).
    destruct (P1 e He) as (a & b & Ha & Hbv & Hm & Hx).
    destruct (P2 e' He') as (a' & b' & Ha' & Hbv' & Hm' & Hx').
    rewrite Ex in Ha', Hm'. rewrite Ey in Hbv', Hx'.
    assert (a' = a) by congruence. assert (b' = b) by congruence.
    subst a' b'. destruct Ez as [<-|<-]; congruence.
  - rewrite (O1 z Tz). symmetry. apply O2.
    destruct (touched cs' z) eqn:Tz'; [|reflexivity].
    apply touched_true in Tz'. destruct Tz' as (e & He & Ez).
    destruct (T e He) as (e0 & He0 & Ex & Ey).
    assert (Tt : touched cs z = true)
      by (apply touched_true; exists e0; split; [assumption|];
          rewrite Ex, Ey; assumption).
    congruence.
Qed.

Lemma exact_compatible (layer : Z -> Z -> Z -> list emission) (n : Z)
      (a b : nat) :
  layer_exact layer n -> (b <= a)%nat -> pw a < n ->
  compatible (layer n (pw a) (pw b)) /\
  in_bounds n (layer n (pw a) (pw b)).
Proof.
  intros Hex Hba Ha. destruct (Hex a b Hba Ha) as (Hin & _).
  assert (Hk := pw_pos b). split.
  - intros e1 e2 H1 H2.
    destruct (Hin e1 H1) as (Ey1 & L1 & _).
    destruct (Hin e2 H2) as (Ey2 & L2 & _).
    destruct (Z.eq_dec (e_x e1) (e_x e2)) as [E|N]; [left; lia|].
    right. unfold share_index. rewrite Ey1, Ey2.
    intros [E|[E|[E|E]]]; try lia.
    + apply lower_sep in L2; [|assumption]. congruence.
    + apply lower_sep in L1; [|assumption]. congruence.
  - intros e He. destruct (Hin e He) as (Ey & L & Hn).
    apply lower_nonneg in L. lia.
Qed.

Lemma layer_any_order (layer : Z -> Z -> Z -> list emission) (n : Z)
      (a b : nat) (A : list Z) (cs : list emission) :
  layer_exact layer n -> (b <= a)%nat -> pw a < n -> len A = n ->
  Permutation (layer n (pw a) (pw b)) cs ->
  mfold (on_emission exec) cs A
  = mfold (on_emission exec) (layer n (pw a) (pw b)) A.
Proof.
  intros Hex Hba Ha HA HP.
  destruct (exact_compatible layer n a b Hex Hba Ha) as (Hc & Hb).
  symmetry. apply mfold_same_pairs.
  - assumption.
  - intros e1 e2 H1 H2. apply Hc;
      eapply Permutation_in; try eassumption; now symmetry.
  - now rewrite HA.
  - intros c. unfold pairs. split; apply Permutation_in;
      [|symmetry]; now apply Permutation_map.
Qed.

(** X8. For [n <= 2^30], in listings 2, 3 and 4 the compare-exchanges
    performed under one value of [p] and [k] can be performed in any order: every
    rearrangement of them leaves the same array.  This is what the loops
    over [j], [i] and [m] rely on when their iterations are distributed. *)
Theorem X8_layer_any_order (n : Z) (a b : nat) (A : list Z)
        (cs : list emission) :
  (b <= a)%nat -> pw a < n -> n <= 2 ^ 30 -> len A = n ->
  (Permutation (layer2 n (pw a) (pw b)) cs ->
   mfold (on_emission exec) cs A
   = mfold (on_emission exec) (layer2 n (pw a) (pw b)) A) /\
  (Permutation (layer3 n (pw a) (pw b)) cs ->
   mfold (on_emission exec) cs A
   = mfold (on_emission exec) (layer3 n (pw a) (pw b)) A) /\
  (Permutation (layer4 n (pw a) (pw b)) cs ->
   mfold (on_emission exec) cs A
   = mfold (on_emission exec) (layer4 n (pw a) (pw b)) A).
Proof.
  intros Hba Ha Hn HA. split; [|split]; intros HP.
  - now apply layer_any_order; [apply layer2_exact| | | |].
  - now apply layer_any_order; [apply layer3_exact| | | |].
  - now apply layer_any_order; [apply layer4_exact| | | |].
Qed.

(** Witness for X8: the four compare-exchanges of listing 3 under
    [p = 2], [k = 2] on eight elements, [(1,3)], [(0,2)], [(5,7)],
    [(4,6)], performed in the reverse order. *)
Lemma X8_layer_any_order_witness :
  ((1 <= 1)%nat /\ pw 1 < 8 /\ 8 <= 2 ^ 30 /\
   len [8; 7; 6; 5; 4; 3; 2; 1] = 8 /\
   Permutation (layer3 8 (pw 1) (pw 1)) (rev (layer3 8 (pw 1) (pw 1)))) /\
  pairs (layer3 8 (pw 1) (pw 1)) = [(1, 3); (0, 2); (5, 7); (4, 6)] /\
  mfold (on_emission exec) (rev (layer3 8 (pw 1) (pw 1)))
        [8; 7; 6; 5; 4; 3; 2; 1]
  = mfold (on_emission exec) (layer3 8 (pw 1) (pw 1))
          [8; 7; 6; 5; 4; 3; 2; 1].
Proof.
  split.
  - split; [lia|]. split; [reflexivity|]. split; [lia|].
    split; [reflexivity|]. apply Permutation_rev.
  - split; [reflexivity|].
    apply (X8_layer_any_order 8 1 1 [8; 7; 6; 5; 4; 3; 2; 1]
             (rev (layer3 8 (pw 1) (pw 1))));
      [lia|reflexivity|lia|reflexivity|apply Permutation_rev].
Defined.

Lemma exact_same_pairs (l1 l2 : Z -> Z -> Z -> list emission) (n : Z)
      (a b : nat) :
  layer_exact l1 n -> layer_exact l2 n -> (b <= a)%nat -> pw a < n ->
  same_set (pairs (l1 n (pw a) (pw b))) (pairs (l2 n (pw a) (pw b))).
Proof.
  intros H1 H2 Hba Ha.
  assert (G : forall la lb, layer_exact la n -> layer_exact lb n ->
            forall c, In c (pairs (la n (pw a) (pw b))) ->
                      In c (pairs (lb n (pw a) (pw b)))).
  { intros la lb Ea Eb c Hc. unfold pairs in *. apply in_map_iff in Hc.
    destruct Hc as (e & <- & He).
    destruct (Ea a b Hba Ha) as (Hin & _).
    destruct (Eb a b Hba Ha) as (Hin' & Hall).
    destruct (Hin e He) as (Ey & L & Hn).
    destruct (Hall (e_x e) L Hn) as (e' & He' & Ex).
    destruct (Hin' e' He') as (Ey' & _).
    apply in_map_iff. exists e'. split; [|assumption]. f_equal; lia. }
  intros c. split; now apply G.
Qed.

(** X9. Listings 2, 3 and 4 agree round by round, not only at the end:
    from the same array of [n <= 2^30] elements, the compare-exchanges of one value of [p] and
    [k] leave the same array in the three listings. *)
Theorem X9_layers_agree (n : Z) (a b : nat) (A : list Z) :
  (b <= a)%nat -> pw a < n -> n <= 2 ^ 30 -> len A = n ->
  mfold (on_emission exec) (layer2 n (pw a) (pw b)) A
  = mfold (on_emission exec) (layer3 n (pw a) (pw b)) A /\
  mfold (on_emission exec) (layer3 n (pw a) (pw b)) A
  = mfold (on_emission exec) (layer4 n (pw a) (pw b)) A.
Proof.
  intros Hba Ha Hn HA.
  destruct (exact_compatible layer2 n a b (layer2_exact n) Hba Ha)
    as (C2 & B2).
  destruct (exact_compatible layer3 n a b (layer3_exact n) Hba Ha)
    as (C3 & B3).
  destruct (exact_compatible layer4 n a b (layer4_exact n) Hba Ha)
    as (C4 & B4).
  split; apply mfold_same_pairs; try assumption; try (now rewrite HA).
  - apply exact_same_pairs; auto using layer2_exact, layer3_exact.
  - apply exact_same_pairs; auto using layer3_exact, layer4_exact.
Qed.

(** Witness for X9: the layer [p = 4], [k = 2] on seven elements. *)
Lemma X9_layers_agree_witness :
  ((1 <= 2)%nat /\ pw 2 < 7 /\ 7 <= 2 ^ 30
   /\ len [7; 6; 5; 4; 3; 2; 1] = 7) /\
  mfold (on_emission exec) (layer2 7 (pw 2) (pw 1)) [7; 6; 5; 4; 3; 2; 1]
  = mfold (on_emission exec) (layer3 7 (pw 2) (pw 1)) [7; 6; 5; 4; 3; 2; 1] /\
  mfold (on_emission exec) (layer3 7 (pw 2) (pw 1)) [7; 6; 5; 4; 3; 2; 1]
  = mfold (on_emission exec) (layer4 7 (pw 2) (pw 1)) [7; 6; 5; 4; 3; 2; 1].
Proof.
  split.
  - split; [lia|]. split; [reflexivity|]. split; [lia|reflexivity].
  - apply (X9_layers_agree 7 2 1 [7; 6; 5; 4; 3; 2; 1]);
      [lia|reflexivity|lia|reflexivity].
Defined.

(** ** The range of the loop variables *)

(** X10. For [n] up to [2^30] the loop variables of every
    compare-exchange stay in the range of a 32-bit [int]: [2p], [j + 3k]
    and the upper index plus [2p] are below [2^31], so the index
    expressions evaluated at a compare-exchange do not wrap. *)
Theorem X10_no_int_overflow (fuel : nat) (n : Z) :
  n <= 2 ^ 30 -> (Z.to_nat n < fuel)%nat ->
  (exists t, trace1 fuel n = Ok t /\ forall e, In e t -> fits_int e) /\
  (exists t, trace2 fuel n = Ok t /\ forall e, In e t -> fits_int e) /\
  (exists t, trace3 fuel n = Ok t /\ forall e, In e t -> fits_int e) /\
  (exists t, trace4 fuel n = Ok t /\ forall e, In e t -> fits_int e).
Proof.
  intros Hn Hf. split; [|split; [|split]].
  - exists (sched1 n). split; [now apply trace1_sched|].
    intros e He. now apply (sched1_fits n).
  - exists (sched2 n). split; [now apply trace2_sched|].
    intros e He. now apply (sched2_fits n).
  - exists (sched3 n). split; [now apply trace3_sched|].
    intros e He. now apply (sched3_fits n).
  - exists (sched4 n). split; [now apply trace4_sched|].
    intros e He. now apply (sched4_fits n).
Qed.

(** Witness for X10: five elements. *)
Lemma X10_no_int_overflow_witness :
  (5 <= 2 ^ 30 /\ (Z.to_nat 5 < 6)%nat) /\
  exists t, trace1 6 5 = Ok t /\ forall e, In e t -> fits_int e.
Proof.
  split.
  - split; [lia|simpl; lia].
  - apply (X10_no_int_overflow 6 5); [lia|simpl; lia].
Defined.

(** ** The invariant of the phase loop *)

Lemma in_sweep_upto (layer : Z -> Z -> Z -> list emission) (n : Z) (T : nat)
      (e : emission) :
  (T <= phases n)%nat -> In e (sweep_upto layer n T) -> In e (sweep layer n).
Proof.
  intros HT. unfold sweep_upto, sweep. rewrite !in_flat_map.
  intros (a & Ha & He). exists a. split; [|assumption].
  apply in_seq in Ha. apply in_seq. lia.
Qed.

Lemma sweep_split (layer : Z -> Z -> Z -> list emission) (n : Z) (T : nat) :
  (T <= phases n)%nat ->
  sweep layer n = sweep_upto layer n T ++ sweep_from layer n T.
Proof.
  intros HT. unfold sweep, sweep_upto, sweep_from.
  rewrite <- flat_map_app, <- seq_app. do 2 f_equal. lia.
Qed.

Lemma phases_blocks (layer : Z -> Z -> Z -> list emission) (n : Z) (T : nat)
      (A : list Z) :
  layer_ok layer n -> in_bounds n (sweep layer n) ->
  (T <= phases n)%nat -> len A = n ->
  exists A', mfold (on_emission exec) (sweep_upto layer n T) A = Ok A' /\
             len A' = n /\ Permutation A A' /\ block_ascending (pw T) A' /\
             mfold (on_emission exec) (sweep layer n) A
             = mfold (on_emission exec) (sweep_from layer n T) A'.
Proof.
  intros Hok Hb HT HA.
  assert (Hb' : in_bounds n (sweep_upto layer n T))
    by (intros e He; apply Hb; now apply in_sweep_upto with (T := T)).
  destruct (run_schedule n (sweep_upto layer n T) Hb' A HA)
    as (A' & H' & L' & P' & F').
  exists A'. split; [assumption|]. split; [assumption|].
  split; [assumption|]. split;
    [|now rewrite (sweep_split layer n T HT), mfold_app, H'].
  intros i j vi vj Hij Hq Hi Hj. assert (Hp := pw_pos T).
  assert (Ht : true_from n (toF vi A)) by (rewrite <- HA; apply toF_true_from).
  destruct (sweep_phases layer n (toF vi A) Hok Ht T HT) as (_ & Hs).
  assert (Hblk : 0 <= i / pw T) by (apply Z.div_pos; lia).
  destruct (Hs (i / pw T) Hblk) as (z & Hz & Hl).
  assert (Ei := Z.div_mod i (pw T) ltac:(lia)).
  assert (Ej := Z.div_mod j (pw T) ltac:(lia)).
  assert (Bi := Z.mod_pos_bound i (pw T) Hp).
  assert (Bj := Z.mod_pos_bound j (pw T) Hp).
  assert (Gi := Hl (i mod pw T) Bi). rewrite <- Ei in Gi.
  assert (Gj := Hl (j mod pw T) Bj). rewrite Hq, <- Ej in Gj.
  fold (sweep_upto layer n T) in Gi, Gj.
  rewrite <- F' in Gi, Gj. unfold toF in Gi, Gj. rewrite Hi in Gi.
  rewrite Hj in Gj. rewrite Hq in Ei.
  assert (Zi : z <= i mod pw T).
  { apply Z.leb_le. rewrite <- Gi. apply Z.leb_le. lia. }
  apply Z.leb_le. rewrite Gj. apply Z.leb_le. lia.
Qed.

(** X11. The invariant of the phase loop, for [n <= 2^30]: a run passes, after the phases
    [p = 1, ..., 2^(T-1)], through an array that is a permutation of the
    input and in which every aligned block of [2^T] elements is in
    nondecreasing order; the remaining phases continue from it. *)
Theorem X11_phase_invariant (fuel : nat) (n : Z) (T : nat) (A : list Z) :
  n <= 2 ^ 30 ->
  (T <= phases n)%nat -> len A = n -> (Z.to_nat n < fuel)%nat ->
  (exists A', mfold (on_emission exec) (sweep_upto layer1 n T) A = Ok A' /\
              len A' = n /\ Permutation A A' /\ block_ascending (pw T) A' /\
              sortListing1 fuel A n
              = mfold (on_emission exec) (sweep_from layer1 n T) A') /\
  (exists A', mfold (on_emission exec) (sweep_upto layer2 n T) A = Ok A' /\
              len A' = n /\ Permutation A A' /\ block_ascending (pw T) A' /\
              sortListing2 fuel A n
              = mfold (on_emission exec) (sweep_from layer2 n T) A') /\
  (exists A', mfold (on_emission exec) (sweep_upto layer3 n T) A = Ok A' /\
              len A' = n /\ Permutation A A' /\ block_ascending (pw T) A' /\
              sortListing3 fuel A n
              = mfold (on_emission exec) (sweep_from layer3 n T) A') /\
  (exists A', mfold (on_emission exec) (sweep_upto layer4 n T) A = Ok A' /\
              len A' = n /\ Permutation A A' /\ block_ascending (pw T) A' /\
              sortListing4 fuel A n
              = mfold (on_emission exec) (sweep_from layer4 n T) A').
Proof.
  intros Hn HT HA Hf.
  unfold sortListing1, sortListing2, sortListing3, sortListing4.
  rewrite listing1_sched, listing2_sched, listing3_sched, listing4_sched
    by assumption.
  split; [|split; [|split]]; apply phases_blocks; try assumption.
  - apply layer1_ok.
  - apply sched1_in_bounds.
  - apply layer_exact_ok, layer2_exact.
  - apply sched2_in_bounds.
  - apply layer_exact_ok, layer3_exact.
  - apply sched3_in_bounds.
  - apply layer_exact_ok, layer4_exact.
  - apply sched4_in_bounds.
Qed.

(** Witness for X11: two of the three phases on seven elements. *)
Lemma X11_phase_invariant_witness :
  (7 <= 2 ^ 30 /\ (2 <= phases 7)%nat /\ len [7; 6; 5; 4; 3; 2; 1] = 7
   /\ (Z.to_nat 7 < 8)%nat) /\
  exists A', mfold (on_emission exec) (sweep_upto layer1 7 2)
                   [7; 6; 5; 4; 3; 2; 1] = Ok A' /\
             len A' = 7 /\ Permutation [7; 6; 5; 4; 3; 2; 1] A' /\
             block_ascending (pw 2) A' /\
             sortListing1 8 [7; 6; 5; 4; 3; 2; 1] 7
             = mfold (on_emission exec) (sweep_from layer1 7 2) A'.
Proof.
  split.
  - split; [lia|]. split; [vm_compute; lia|].
    split; [reflexivity|simpl; lia].
  - apply (X11_phase_invariant 8 7 2 [7; 6; 5; 4; 3; 2; 1]);
      [lia|vm_compute; lia|reflexivity|simpl; lia].
Defined.

(** ** The number of compare-exchanges *)

Lemma NoDup_flat_map {X Y : Type} (f : X -> list Y) (l : list X) :
  NoDup l -> (forall x, In x l -> NoDup (f x)) ->
  (forall x x' y, In x l -> In x' l -> In y (f x) -> In y (f x') -> x = x') ->
  NoDup (flat_map f l).
Proof.
  induction l as [|x l IH]; intros Hl Hf Hd; cbn [flat_map]; [constructor|].
  apply NoDup_cons_iff in Hl. destruct Hl as (Hx & Hl).
  apply NoDup_app.
  - apply Hf. now left.
  - apply IH; [assumption| |].
    + intros x' Hx'. apply Hf. now right.
    + intros x1 x2 y H1 H2. apply Hd; now right.
  - intros y Hy Hy'. apply in_flat_map in Hy'.
    destruct Hy' as (x' & Hx' & Hy').
    assert (x = x') by (apply (Hd x x' y); auto; [now left|now right]).
    subst x'. contradiction.
Qed.

Lemma NoDup_map_inj {X Y : Type} (f : X -> Y) (l : list X) :
  (forall x x', f x = f x' -> x = x') -> NoDup l -> NoDup (map f l).
Proof.
  intros Hinj. induction 1 as [|x l Hx Hl IH]; cbn [map]; constructor;
    [|assumption].
  intros Hin. apply in_map_iff in Hin. destruct Hin as (x' & E & Hx').
  apply Hinj in E. now subst x'.
Qed.

Lemma map_flat_map {X Y W : Type} (f : Y -> W) (g : X -> list Y) (l : list X) :
  map f (flat_map g l) = flat_map (fun x => map f (g x)) l.
Proof.
  induction l as [|x l IH]; cbn [flat_map map]; [reflexivity|].
  now rewrite map_app, IH.
Qed.

Lemma NoDup_upto (x0 d bound : Z) : 0 < d -> NoDup (upto x0 d bound).
Proof.
  intros Hd. unfold upto. apply NoDup_map_inj; [|apply seq_NoDup].
  intros i i' E. nia.
Qed.

Lemma NoDup_downfrom (m : Z) : NoDup (downfrom m).
Proof.
  unfold downfrom. apply NoDup_map_inj; [|apply seq_NoDup].
  intros i i' E. lia.
Qed.

Lemma NoDup_guard {X : Type} (c : bool) (x : X) :
  NoDup (if c then [x] else []).
Proof. destruct c; repeat constructor. intros []. Qed.

Lemma in_guard {X : Type} (c : bool) (x y : X) :
  In y (if c then [x] else []) -> y = x.
Proof. destruct c; intros H; [|destruct H]. destruct H as [H|[]]; auto. Qed.

Lemma layer3_NoDup (n p k : Z) : 0 < k -> NoDup (map e_x (layer3 n p k)).
Proof.
  intros Hk. unfold layer3. rewrite map_flat_map.
  apply NoDup_flat_map; [apply NoDup_upto; lia| |].
  - intros j _. unfold group3. rewrite map_flat_map.
    apply NoDup_flat_map; [apply NoDup_downfrom| |].
    + intros i' _. cbv zeta. destruct (_ =? _); repeat constructor.
      intros [].
    + intros i1 i2 x _ _ H1 H2. cbv zeta in H1, H2.
      destruct (_ =? _) in H1; [|destruct H1].
      destruct (_ =? _) in H2; [|destruct H2].
      destruct H1 as [H1|[]]. destruct H2 as [H2|[]].
      cbn [e_x] in H1, H2. lia.
  - intros j1 j2 x Hj1 Hj2 H1 H2.
    apply in_upto in Hj1; [|lia]. apply in_upto in Hj2; [|lia].
    destruct Hj1 as (t1 & Ht1 & -> & _). destruct Hj2 as (t2 & Ht2 & -> & _).
    apply in_map_iff in H1. destruct H1 as (e1 & E1 & H1).
    apply in_map_iff in H2. destruct H2 as (e2 & E2 & H2).
    unfold group3 in H1, H2. apply in_flat_map in H1, H2.
    destruct H1 as (i1 & Hi1 & H1). destruct H2 as (i2 & Hi2 & H2).
    apply in_downfrom in Hi1, Hi2. cbv zeta in H1, H2.
    apply in_guard in H1. apply in_guard in H2. subst e1 e2.
    cbn [e_x] in E1, E2.
    assert (t1 = t2) by nia. now subst t2.
Qed.

Lemma layer2_NoDup (n p k : Z) :
  0 < k -> 0 < p -> NoDup (map e_x (layer2 n p k)).
Proof.
  intros Hk Hp. assert (Hr : 0 <= Z.rem k p) by (apply Z.rem_nonneg; lia).
  unfold layer2. rewrite map_flat_map.
  apply NoDup_flat_map; [apply NoDup_upto; lia| |].
  - intros j Hj. unfold group2. rewrite map_flat_map.
    apply NoDup_flat_map; [apply NoDup_upto; lia| |].
    + intros i _. rewrite map_map. cbn [e_x]. rewrite map_id.
      apply NoDup_upto. lia.
    + intros i1 i2 x Hi1 Hi2 H1 H2.
      apply in_upto in Hi1; [|lia]. apply in_upto in Hi2; [|lia].
      destruct Hi1 as (s1 & Hs1 & -> & Hb1).
      destruct Hi2 as (s2 & Hs2 & -> & Hb2).
      rewrite map_map in H1, H2. cbn [e_x] in H1, H2.
      rewrite map_id in H1, H2.
      apply in_upto in H1; [|lia]. apply in_upto in H2; [|lia].
      destruct H1 as (u1 & Hu1 & E1 & _). destruct H2 as (u2 & Hu2 & E2 & _).
      apply in_upto in Hj; [|lia]. destruct Hj as (t & Ht & Ej & Hjb).
      assert (u1 = u2) by nia. subst u2. lia.
  - intros j1 j2 x Hj1 Hj2 H1 H2.
    apply in_upto in Hj1; [|lia]. apply in_upto in Hj2; [|lia].
    destruct Hj1 as (t1 & Ht1 & -> & Hb1).
    destruct Hj2 as (t2 & Ht2 & -> & Hb2).
    apply in_map_iff in H1. destruct H1 as (e1 & E1 & H1).
    apply in_map_iff in H2. destruct H2 as (e2 & E2 & H2).
    unfold group2 in H1, H2. apply in_flat_map in H1, H2.
    destruct H1 as (i1 & Hi1 & H1). destruct H2 as (i2 & Hi2 & H2).
    apply in_upto in Hi1; [|lia]. apply in_upto in Hi2; [|lia].
    destruct Hi1 as (s1 & Hs1 & -> & Hc1).
    destruct Hi2 as (s2 & Hs2 & -> & Hc2).
    apply in_map_iff in H1. destruct H1 as (m1 & <- & H1).
    apply in_map_iff in H2. destruct H2 as (m2 & <- & H2).
    cbn [e_x] in E1, E2. subst m1 m2.
    apply in_upto in H1; [|lia]. apply in_upto in H2; [|lia].
    destruct H1 as (u1 & Hu1 & E1 & _). destruct H2 as (u2 & Hu2 & E2 & _).
    assert (u1 = u2) by nia. subst u2.
    assert (t1 = t2) by nia. now subst t2.
Qed.

Lemma exact_lower_indices (l1 l2 : Z -> Z -> Z -> list emission) (n : Z)
      (a b : nat) (x : Z) :
  layer_exact l1 n -> layer_exact l2 n -> (b <= a)%nat -> pw a < n ->
  In x (map e_x (l1 n (pw a) (pw b))) -> In x (map e_x (l2 n (pw a) (pw b))).
Proof.
  intros H1 H2 Hba Ha Hx. apply in_map_iff in Hx.
  destruct Hx as (e & <- & He).
  destruct (H1 a b Hba Ha) as (Hin & _).
  destruct (H2 a b Hba Ha) as (_ & Hall).
  destruct (Hin e He) as (_ & L & Hn).
  destruct (Hall (e_x e) L Hn) as (e' & He' & Ex).
  apply in_map_iff. exists e'. split; assumption.
Qed.

Lemma layer2_layer3_length (n : Z) (a b : nat) :
  (b <= a)%nat -> pw a < n ->
  length (layer2 n (pw a) (pw b)) = length (layer3 n (pw a) (pw b)).
Proof.
  intros Hba Ha.
  rewrite <- (length_map e_x (layer2 n (pw a) (pw b))).
  rewrite <- (length_map e_x (layer3 n (pw a) (pw b))).
  apply Permutation_length. apply NoDup_Permutation.
  - apply layer2_NoDup; apply pw_pos.
  - apply layer3_NoDup; apply pw_pos.
  - intros x. split; apply exact_lower_indices;
      auto using layer2_exact, layer3_exact.
Qed.

Lemma layer3_layer1_length (n : Z) (a b : nat) :
  (length (layer3 n (pw a) (pw b)) <= length (layer1 n (pw a) (pw b)))%nat.
Proof.
  assert (Hk := pw_pos b). apply NoDup_incl_length.
  - apply NoDup_map_inv with (f := e_x). now apply layer3_NoDup.
  - intros e He. apply in_layer3 in He; [|assumption].
    destruct He as (t & i & Ht & Hi & Hn & E & ->).
    apply in_layer1; [assumption|]. exists t, i.
    replace (pw a + pw a) with (2 * pw a) by lia.
    repeat split; try assumption; lia.
Qed.

Lemma flat_map_length_le {X Y : Type} (f g : X -> list Y) (l : list X) :
  (forall x, In x l -> (length (f x) <= length (g x))%nat) ->
  (length (flat_map f l) <= length (flat_map g l))%nat.
Proof.
  induction l as [|x l IH]; intros H; cbn [flat_map]; [lia|].
  rewrite !length_app.
  assert (H1 := H x (or_introl eq_refl)).
  assert (H2 : (length (flat_map f l) <= length (flat_map g l))%nat)
    by (apply IH; intros y Hy; apply H; now right).
  lia.
Qed.

Lemma sweep_length_le (l1 l2 : Z -> Z -> Z -> list emission) (n : Z) :
  (forall a b : nat, (b <= a)%nat -> pw a < n ->
     (length (l1 n (pw a) (pw b)) <= length (l2 n (pw a) (pw b)))%nat) ->
  (length (sweep l1 n) <= length (sweep l2 n))%nat.
Proof.
  intros H. unfold sweep. apply flat_map_length_le. intros a Ha.
  apply in_seq in Ha. apply flat_map_length_le. intros i Hi.
  apply in_seq in Hi. apply H; [lia|]. apply pw_lt_phases. lia.
Qed.

(** X12. For every [n <= 2^30], listings 2, 3 and 4 perform the same number of
    compare-exchanges, and listing 1 performs at least as many. *)
Theorem X12_compare_exchange_counts (fuel : nat) (n : Z) :
  n <= 2 ^ 30 -> (Z.to_nat n < fuel)%nat ->
  exists t1 t2 t3 t4,
    trace1 fuel n = Ok t1 /\ trace2 fuel n = Ok t2 /\
    trace3 fuel n = Ok t3 /\ trace4 fuel n = Ok t4 /\
    length t2 = length t3 /\ length t3 = length t4 /\
    (length t3 <= length t1)%nat.
Proof.
  intros Hn Hf. exists (sched1 n), (sched2 n), (sched3 n), (sched4 n).
  split; [now apply trace1_sched|]. split; [now apply trace2_sched|].
  split; [now apply trace3_sched|]. split; [now apply trace4_sched|].
  split; [|split].
  - apply Nat.le_antisymm; apply sweep_length_le; intros a b Hba Ha;
      rewrite (layer2_layer3_length n a b Hba Ha); apply Nat.le_refl.
  - now rewrite sched3_sched4.
  - apply sweep_length_le. intros a b _ _. apply layer3_layer1_length.
Qed.

(** Witness for X12: six elements. *)
Lemma X12_compare_exchange_counts_witness :
  (6 <= 2 ^ 30 /\ (Z.to_nat 6 < 7)%nat) /\
  exists t1 t2 t3 t4,
    trace1 7 6 = Ok t1 /\ trace2 7 6 = Ok t2 /\
    trace3 7 6 = Ok t3 /\ trace4 7 6 = Ok t4 /\
    length t2 = length t3 /\ length t3 = length t4 /\
    (length t3 <= length t1)%nat.
Proof.
  split; [split; [lia|simpl; lia]|].
  apply (X12_compare_exchange_counts 7 6); [lia|simpl; lia].
Defined.

(** ** The four listings round by round *)

Section PhasePrefix.

Variable layer : Z -> Z -> Z -> list emission.
Variable n : Z.
Hypothesis Hok : layer_ok layer n.

Lemma phase_pre (a : nat) (f : Z -> bool) :
  pw a < n -> true_from n f ->
  (forall blk, 0 <= blk -> exists za zb, block_pre (pw a) f blk za zb) ->
  forall i, (i <= a)%nat ->
    let g := runF (flat_map (fun i => layer n (pw a) (pw (a - i)))
                            (seq 0 i)) f in
    true_from n g /\
    forall blk, 0 <= blk -> exists za zb, state_before a (a - i) g blk za zb.
Proof.
  intros Ha Hf Hall [|i] Hi g; subst g.
  - cbn [seq flat_map runF fold_left]. split; [assumption|].
    intros blk Hb. destruct (Hall blk Hb) as (za & zb & H).
    exists za, zb. unfold state_before.
    rewrite Nat.sub_0_r, Nat.eqb_refl. exact H.
  - destruct (phase_layers layer n Hok a f Ha Hf Hall i ltac:(lia))
      as (Ht & Hst).
    split; [exact Ht|]. intros blk Hb.
    destruct (Hall blk Hb) as (za & zb & H). exists za, zb.
    unfold state_before.
    destruct (Nat.eqb_spec (a - Datatypes.S i) a) as [E|_]; [lia|].
    replace (Datatypes.S (a - Datatypes.S i)) with (a - i)%nat by lia.
    apply (Hst blk za zb Hb H).
Qed.

End PhasePrefix.

Section TwoListings.

Variables l1 l2 : Z -> Z -> Z -> list emission.
Variable n : Z.
Hypothesis H1 : layer_ok l1 n.
Hypothesis H2 : layer_ok l2 n.

Lemma phase_agree (a : nat) (f : Z -> bool) :
  pw a < n -> true_from n f ->
  (forall blk, 0 <= blk -> exists za zb, block_pre (pw a) f blk za zb) ->
  forall i, (i <= Datatypes.S a)%nat ->
    forall z, runF (flat_map (fun i => l1 n (pw a) (pw (a - i))) (seq 0 i)) f z
              = runF (flat_map (fun i => l2 n (pw a) (pw (a - i))) (seq 0 i)) f z.
Proof.
  intros Ha Hf Hall i. induction i as [|i IH]; intros Hi z; [reflexivity|].
  specialize (IH ltac:(lia)).
  destruct (phase_pre l1 n H1 a f Ha Hf Hall i ltac:(lia)) as (T1 & P1).
  destruct (phase_pre l2 n H2 a f Ha Hf Hall i ltac:(lia)) as (T2 & P2).
  rewrite !seq_S, !flat_map_app, !runF_app. cbn [flat_map Nat.add].
  rewrite !app_nil_r.
  rewrite (H1 a (a - i)%nat _ ltac:(lia) Ha T1 P1 z).
  rewrite (H2 a (a - i)%nat _ ltac:(lia) Ha T2 P2 z).
  unfold Lf. now rewrite !IH.
Qed.

Lemma sweep_agree (f : Z -> bool) :
  true_from n f ->
  forall T, (T <= phases n)%nat ->
    forall z, runF (sweep_upto l1 n T) f z = runF (sweep_upto l2 n T) f z.
Proof.
  intros Hf T. induction T as [|T IH]; intros HT z; [reflexivity|].
  specialize (IH ltac:(lia)).
  destruct (sweep_phases l1 n f H1 Hf T ltac:(lia)) as (Ht & Hs).
  fold (sweep_upto l1 n T) in Ht, Hs.
  unfold sweep_upto. rewrite !seq_S, !flat_map_app, !runF_app.
  fold (sweep_upto l1 n T). fold (sweep_upto l2 n T).
  cbn [flat_map Nat.add]. rewrite !app_nil_r.
  assert (Ha : pw T < n) by (apply pw_lt_phases; lia).
  assert (Hall : forall blk, 0 <= blk ->
            exists za zb, block_pre (pw T) (runF (sweep_upto l1 n T) f) blk za zb).
  { intros blk Hb. apply block_sorted_pre; [apply pw_pos|assumption|assumption]. }
  rewrite (phase_agree T _ Ha Ht Hall (Datatypes.S T) (le_n _) z).
  apply runF_ext. exact IH.
Qed.

Lemma rounds_agree (f : Z -> bool) (a i : nat) :
  true_from n f -> pw a < n -> (i <= Datatypes.S a)%nat ->
  forall z, runF (rounds_upto l1 n a i) f z = runF (rounds_upto l2 n a i) f z.
Proof.
  intros Hf Ha Hi z.
  assert (HT : (a <= phases n)%nat) by (apply pw_lt_phases in Ha; lia).
  destruct (sweep_phases l1 n f H1 Hf a HT) as (Ht & Hs).
  fold (sweep_upto l1 n a) in Ht, Hs.
  assert (Hall : forall blk, 0 <= blk ->
            exists za zb, block_pre (pw a) (runF (sweep_upto l1 n a) f) blk za zb).
  { intros blk Hb. apply block_sorted_pre; [apply pw_pos|assumption|assumption]. }
  unfold rounds_upto. rewrite !runF_app.
  rewrite (phase_agree a _ Ha Ht Hall i Hi z).
  apply runF_ext. now apply sweep_agree.
Qed.

End TwoListings.

Lemma toF_eq (A B : list Z) :
  len A = len B -> (forall t z, toF t A z = toF t B z) -> A = B.
Proof.
  intros HL H. apply load_ext. intros z.
  destruct (load A z) as [v|] eqn:Ea.
  - assert (Hz := load_range A z v Ea).
    destruct (load_Some B z ltac:(lia)) as (w & Eb). rewrite Eb.
    assert (Hv := H v z). assert (Hw := H w z). unfold toF in Hv, Hw.
    rewrite Ea, Eb in Hv, Hw. rewrite Z.leb_refl in Hv, Hw.
    symmetry in Hv. apply Z.leb_le in Hv, Hw. f_equal. lia.
  - destruct (load B z) as [w|] eqn:Eb; [|reflexivity].
    assert (Hz := load_range B z w Eb).
    destruct (load_Some A z ltac:(lia)) as (v & Ea'). congruence.
Qed.

Lemma in_rounds_upto (layer : Z -> Z -> Z -> list emission) (n : Z)
      (a i : nat) (e : emission) :
  pw a < n -> (i <= Datatypes.S a)%nat ->
  In e (rounds_upto layer n a i) -> In e (sweep layer n).
Proof.
  intros Ha Hi He. apply pw_lt_phases in Ha.
  unfold rounds_upto in He. apply in_app_or in He. destruct He as [He|He].
  - apply in_sweep_upto with (T := a); [lia|assumption].
  - unfold sweep. apply in_flat_map. exists a. split; [apply in_seq; lia|].
    apply in_flat_map in He. destruct He as (i' & Hi' & He).
    apply in_flat_map. exists i'. split; [|assumption].
    apply in_seq in Hi'. apply in_seq. lia.
Qed.

Lemma rounds_same_array (l1 l2 : Z -> Z -> Z -> list emission) (n : Z)
      (a i : nat) (A : list Z) :
  layer_ok l1 n -> layer_ok l2 n ->
  in_bounds n (sweep l1 n) -> in_bounds n (sweep l2 n) ->
  pw a < n -> (i <= Datatypes.S a)%nat -> len A = n ->
  mfold (on_emission exec) (rounds_upto l1 n a i) A
  = mfold (on_emission exec) (rounds_upto l2 n a i) A.
Proof.
  intros H1 H2 B1 B2 Ha Hi HA.
  assert (B1' : in_bounds n (rounds_upto l1 n a i))
    by (intros e He; apply B1; now apply in_rounds_upto with (a := a) (i := i)).
  assert (B2' : in_bounds n (rounds_upto l2 n a i))
    by (intros e He; apply B2; now apply in_rounds_upto with (a := a) (i := i)).
  destruct (run_schedule n _ B1' A HA) as (A1 & E1 & L1 & _ & F1).
  destruct (run_schedule n _ B2' A HA) as (A2 & E2 & L2 & _ & F2).
  rewrite E1, E2. f_equal. apply toF_eq; [lia|].
  intros t z. rewrite F1, F2. apply rounds_agree; try assumption.
  rewrite <- HA. apply toF_true_from.
Qed.

(** X13. The four listings hold the same array after every round: from
    an array of [n <= 2^30] elements, the compare-exchanges up to any merge
    distance of any phase leave the same array in listings 1, 2, 3 and 4.
    The additional compare-exchanges of listing 1 therefore never change
    what the round computes. *)
Theorem X13_rounds_agree (n : Z) (a i : nat) (A : list Z) :
  pw a < n -> n <= 2 ^ 30 -> (i <= Datatypes.S a)%nat -> len A = n ->
  mfold (on_emission exec) (rounds_upto layer1 n a i) A
  = mfold (on_emission exec) (rounds_upto layer2 n a i) A /\
  mfold (on_emission exec) (rounds_upto layer1 n a i) A
  = mfold (on_emission exec) (rounds_upto layer3 n a i) A /\
  mfold (on_emission exec) (rounds_upto layer1 n a i) A
  = mfold (on_emission exec) (rounds_upto layer4 n a i) A.
Proof.
  intros Ha Hn Hi HA.
  assert (K1 := layer1_ok n).
  assert (K2 := layer_exact_ok layer2 n (layer2_exact n)).
  assert (K3 := layer_exact_ok layer3 n (layer3_exact n)).
  assert (K4 := layer_exact_ok layer4 n (layer4_exact n)).
  split; [|split]; apply rounds_same_array; try assumption;
    auto using sched1_in_bounds, sched2_in_bounds, sched3_in_bounds,
    sched4_in_bounds.
Qed.

(** Witness for X13: seven elements, up to [p = 2], [k = 2]. *)
Lemma X13_rounds_agree_witness :
  (pw 1 < 7 /\ 7 <= 2 ^ 30 /\ (1 <= 2)%nat
   /\ len [7; 6; 5; 4; 3; 2; 1] = 7) /\
  mfold (on_emission exec) (rounds_upto layer1 7 1 1) [7; 6; 5; 4; 3; 2; 1]
  = mfold (on_emission exec) (rounds_upto layer2 7 1 1) [7; 6; 5; 4; 3; 2; 1].
Proof.
  split.
  - split; [reflexivity|]. split; [lia|]. split; [lia|reflexivity].
  - apply (X13_rounds_agree 7 1 1 [7; 6; 5; 4; 3; 2; 1]);
      [reflexivity|lia|lia|reflexivity].
Defined.

(** ** The integers and [int] arithmetic *)

(** X14. For [n <= 2^30] no arithmetic operation of the four listings
    leaves the range of [int]: run in [int] arithmetic, a listing
    returns exactly the result of the listing over the integers, for
    every action on the emitted pairs, every amount of fuel and every
    initial state. *)
Theorem X14_int_arithmetic_exact (S : Type)
        (emit : Z -> Z -> Z -> Z -> Z -> S -> result S)
        (fuel : nat) (n : Z) (s : S) :
  n <= 2 ^ 30 ->
  listing1_int emit fuel n s = Some (listing1 emit fuel n s) /\
  listing2_int emit fuel n s = Some (listing2 emit fuel n s) /\
  listing3_int emit fuel n s = Some (listing3 emit fuel n s) /\
  listing4_int emit fuel n s = Some (listing4 emit fuel n s).
Proof.
  intros Hn. split; [|split; [|split]].
  - now apply listing1_int_exact.
  - now apply listing2_int_exact.
  - now apply listing3_int_exact.
  - now apply listing4_int_exact.
Qed.

(** Witness for X14: the executor on [[5,3,4,1,2]], with 6 units of
    fuel. *)
Lemma X14_int_arithmetic_exact_witness :
  5 <= 2 ^ 30 /\
  listing1_int exec 6 5 [5; 3; 4; 1; 2]
  = Some (listing1 exec 6 5 [5; 3; 4; 1; 2]) /\
  listing2_int exec 6 5 [5; 3; 4; 1; 2]
  = Some (listing2 exec 6 5 [5; 3; 4; 1; 2]) /\
  listing3_int exec 6 5 [5; 3; 4; 1; 2]
  = Some (listing3 exec 6 5 [5; 3; 4; 1; 2]) /\
  listing4_int exec 6 5 [5; 3; 4; 1; 2]
  = Some (listing4 exec 6 5 [5; 3; 4; 1; 2]).
Proof.
  split; [lia|].
  apply (X14_int_arithmetic_exact (list Z) exec 6 5 [5; 3; 4; 1; 2]). lia.
Defined.
